(** * CHash: a fixed-capacity chained hash table (chash.c, chash.h)

    A shallow embedding of the C module over an explicit heap.  The module
    manipulates four kinds of heap blocks ([t_table], slot arrays,
    [t_property] entries and key buffers); each kind lives in its own finite
    map from addresses to contents.  A block that has been released is removed
    from its map, so that any later access through a stale pointer is a
    [Fault] (undefined behaviour in C).

    Data model (LP64, x86-64 System V): [unsigned long] and [size_t] are 64
    bits wide, [unsigned int] and [int] 32 bits, [unsigned short] 16 bits,
    plain [char] is signed, every pointer is 8 bytes.  A [const char *]
    argument is modelled by the bytes it holds before the terminator. *)

From Stdlib Require Import ZArith Ascii String Lia.
From stdpp Require Import base numbers option list gmap strings.

Local Open Scope string_scope.
Local Open Scope list_scope.
Local Open Scope Z_scope.

(** ** Machine constants *)

Definition ULONG_MOD : Z := 2 ^ 64.
Definition UINT_MOD : Z := 2 ^ 32.
Definition USHRT_MOD : Z := 2 ^ 16.
Definition INT_MAX : Z := 2 ^ 31 - 1.
Definition sizeof_ptr : Z := 8.
(** [t_property] is three pointers, [t_table] an [unsigned long] and a pointer. *)
Definition sizeof_t_property : Z := 3 * sizeof_ptr.
Definition sizeof_t_table : Z := 8 + sizeof_ptr.

Definition NULL : Z := 0.

(** ** Structures of chash.h *)

Record t_property := Property {
  p_key : Z;      (* char *: address of the owned key buffer *)
  p_value : Z;    (* void *: caller-owned value reference *)
  p_next : Z      (* struct s_property *: next node of the chain *)
}.

Record t_table := Table {
  t_size : Z;     (* unsigned long size *)
  p_entries : Z   (* t_property **: address of the slot array *)
}.

(** ** The heap *)

Record memory := Memory {
  m_tables : gmap Z t_table;
  m_arrays : gmap Z (list Z);
  m_props : gmap Z t_property;
  m_keys : gmap Z string;
  m_nalloc : nat  (* number of calls to malloc made so far *)
}.

Definition set_tables (f : gmap Z t_table -> gmap Z t_table) (m : memory) : memory :=
  Memory (f (m_tables m)) (m_arrays m) (m_props m) (m_keys m) (m_nalloc m).
Definition set_arrays (f : gmap Z (list Z) -> gmap Z (list Z)) (m : memory) : memory :=
  Memory (m_tables m) (f (m_arrays m)) (m_props m) (m_keys m) (m_nalloc m).
Definition set_props (f : gmap Z t_property -> gmap Z t_property) (m : memory) : memory :=
  Memory (m_tables m) (m_arrays m) (f (m_props m)) (m_keys m) (m_nalloc m).
Definition set_keys (f : gmap Z string -> gmap Z string) (m : memory) : memory :=
  Memory (m_tables m) (m_arrays m) (m_props m) (f (m_keys m)) (m_nalloc m).
Definition count_alloc (m : memory) : memory :=
  Memory (m_tables m) (m_arrays m) (m_props m) (m_keys m) (S (m_nalloc m)).

Definition empty_memory : memory := Memory ∅ ∅ ∅ ∅ O.

(** An address can be handed out by [malloc] when it is not [NULL] and no
    live block sits there. *)
Definition is_free (m : memory) (a : Z) : bool :=
  match m_tables m !! a, m_arrays m !! a, m_props m !! a, m_keys m !! a with
  | None, None, None, None => negb (a =? NULL)
  | _, _, _, _ => false
  end.

(** ** Outcomes and the state monad

    [Fault] is undefined behaviour: a load, store or [free] through [NULL] or
    through a pointer to a released block, an out-of-bounds slot, a division
    by zero, a signed overflow.  [Diverge] is a loop that never ends (a walk
    along a cyclic chain). *)

Inductive outcome (A : Type) : Type :=
  | Ok (a : A) (m : memory)
  | Fault
  | Diverge.
Arguments Ok {A} a m.
Arguments Fault {A}.
Arguments Diverge {A}.

Definition M (A : Type) : Type := memory -> outcome A.

Definition ret {A} (a : A) : M A := fun m => Ok a m.
Definition bind {A B} (c : M A) (k : A -> M B) : M B := fun m =>
  match c m with
  | Ok a m' => k a m'
  | Fault => Fault
  | Diverge => Diverge
  end.
Definition fault {A} : M A := fun _ => Fault.
Definition diverge {A} : M A := fun _ => Diverge.

Notation "'let*' x ':=' c 'in' k" := (bind c (fun x => k))
  (at level 10, x pattern, c at level 100, k at level 200).

(** The value an operation hands back to its caller, when it returns. *)
Definition returned {A} (o : outcome A) : option A :=
  match o with Ok a _ => Some a | _ => None end.
(** ** Loads, stores and [free] *)

Definition load_table {B} (f : t_table -> B) (p : Z) : M B := fun m =>
  match m_tables m !! p with Some t => Ok (f t) m | None => Fault end.
Definition store_table (f : t_table -> t_table) (p : Z) : M unit := fun m =>
  match m_tables m !! p with
  | Some t => Ok tt (set_tables <[p := f t]> m)
  | None => Fault
  end.
Definition load_prop {B} (f : t_property -> B) (p : Z) : M B := fun m =>
  match m_props m !! p with Some e => Ok (f e) m | None => Fault end.
Definition store_prop (f : t_property -> t_property) (p : Z) : M unit := fun m =>
  match m_props m !! p with
  | Some e => Ok tt (set_props <[p := f e]> m)
  | None => Fault
  end.

Definition load_size : Z -> M Z := load_table t_size.
Definition load_p_entries : Z -> M Z := load_table p_entries.
Definition store_size (p v : Z) : M unit :=
  store_table (fun t => Table v (p_entries t)) p.
Definition store_p_entries (p v : Z) : M unit :=
  store_table (fun t => Table (t_size t) v) p.

Definition load_p_key : Z -> M Z := load_prop p_key.
Definition load_p_value : Z -> M Z := load_prop p_value.
Definition load_p_next : Z -> M Z := load_prop p_next.
Definition store_p_key (p v : Z) : M unit :=
  store_prop (fun e => Property v (p_value e) (p_next e)) p.
Definition store_p_value (p v : Z) : M unit :=
  store_prop (fun e => Property (p_key e) v (p_next e)) p.
Definition store_p_next (p v : Z) : M unit :=
  store_prop (fun e => Property (p_key e) (p_value e) v) p.

(** [arr[i]] as an rvalue and as an lvalue; outside the array is a fault. *)
Definition load_slot (arr i : Z) : M Z := fun m =>
  match m_arrays m !! arr with
  | Some l =>
      if i <? 0 then Fault else
      match l !! Z.to_nat i with Some p => Ok p m | None => Fault end
  | None => Fault
  end.
Definition store_slot (arr i v : Z) : M unit := fun m =>
  match m_arrays m !! arr with
  | Some l =>
      if (i <? 0) || (Z.of_nat (length l) <=? i) then Fault
      else Ok tt (set_arrays <[arr := <[Z.to_nat i := v]> l]> m)
  | None => Fault
  end.

(** The string held by a key buffer, and [strcpy] into one. *)
Definition load_key (p : Z) : M string := fun m =>
  match m_keys m !! p with Some s => Ok s m | None => Fault end.
Definition strcpy (dest : Z) (src : string) : M unit := fun m =>
  match m_keys m !! dest with
  | Some _ => Ok tt (set_keys <[dest := src]> m)
  | None => Fault
  end.

(** [free(p)]: nothing for [NULL], the block goes for a live pointer, and
    anything else (a second [free]) is a fault. *)
Definition free_table (p : Z) : M unit := fun m =>
  if p =? NULL then Ok tt m else
  match m_tables m !! p with
  | Some _ => Ok tt (set_tables (delete p) m)
  | None => Fault
  end.
Definition free_array (p : Z) : M unit := fun m =>
  if p =? NULL then Ok tt m else
  match m_arrays m !! p with
  | Some _ => Ok tt (set_arrays (delete p) m)
  | None => Fault
  end.
Definition free_prop (p : Z) : M unit := fun m =>
  if p =? NULL then Ok tt m else
  match m_props m !! p with
  | Some _ => Ok tt (set_props (delete p) m)
  | None => Fault
  end.
Definition free_key (p : Z) : M unit := fun m =>
  if p =? NULL then Ok tt m else
  match m_keys m !! p with
  | Some _ => Ok tt (set_keys (delete p) m)
  | None => Fault
  end.

(** ** Strings of <string.h> *)

Definition strlen (s : string) : Z := Z.of_nat (String.length s).

(** The value of a plain (signed) [char] and of the same byte read as
    [unsigned char]. *)
Definition uchar_val (c : ascii) : Z := Z.of_N (N_of_ascii c).
Definition char_val (c : ascii) : Z :=
  if uchar_val c <? 128 then uchar_val c else uchar_val c - 256.

(** [strcmp] compares bytes as [unsigned char]; only the sign of its result
    is specified. *)
Fixpoint strcmp (s1 s2 : string) : Z :=
  match s1, s2 with
  | EmptyString, EmptyString => 0
  | EmptyString, String _ _ => -1
  | String _ _, EmptyString => 1
  | String c1 r1, String c2 r2 =>
      if uchar_val c1 <? uchar_val c2 then -1
      else if uchar_val c2 <? uchar_val c1 then 1
      else strcmp r1 r2
  end.

(** ** [_hash] (chash.c, lines 34-52)

    [length] is an [unsigned short]: the result of [strlen] is reduced modulo
    2^16 by the assignment.  The loop reads the first [length] bytes; each
    [char] is converted to [unsigned long] before the addition, and the
    arithmetic wraps modulo 2^64. *)
Fixpoint hash_loop (length : nat) (p_key : string) (value : Z) : Z :=
  match length, p_key with
  | S n, String c rest => hash_loop n rest ((value * 33 + char_val c) mod ULONG_MOD)
  | _, _ => value
  end.

Definition _hash (p_key : string) : Z :=
  let length := strlen p_key mod USHRT_MOD in
  hash_loop (Z.to_nat length) p_key 0.

(** ** Allocation

    [malloc] is not deterministic in C: it may fail, and when it succeeds any
    address with no live block may come back, a released one included.  The
    model takes the choice from a [policy], asked once per call; an answer
    that names [NULL] or a live block counts as a failed call. *)

Section CHash.

Variable policy : memory -> option Z.

Definition malloc (init : Z -> memory -> memory) : M Z := fun m =>
  let m' := count_alloc m in
  match policy m with
  | Some a => if is_free m a then Ok a (init a m') else Ok NULL m'
  | None => Ok NULL m'
  end.

(** The content of a fresh block is indeterminate in C.  The module writes
    every field and every slot before it reads it, so the model fills fresh
    blocks with zeroes. *)
Definition malloc_table (bytes : Z) : M Z :=
  malloc (fun a => set_tables <[a := Table 0 NULL]>).
Definition malloc_array (bytes : Z) : M Z :=
  malloc (fun a => set_arrays <[a := replicate (Z.to_nat (bytes / sizeof_ptr)) NULL]>).
Definition malloc_prop (bytes : Z) : M Z :=
  malloc (fun a => set_props <[a := Property NULL NULL NULL]>).
Definition malloc_key (bytes : Z) : M Z :=
  malloc (fun a => set_keys <[a := EmptyString]>).

(** ** [_clear] (lines 65-78) *)
Definition _clear (p_entry : Z) : M unit :=
  let* k := load_p_key p_entry in
  let* _ := (if negb (k =? NULL)
             then let* _ := free_key k in store_p_key p_entry NULL
             else ret tt) in
  if negb (p_entry =? NULL) then free_prop p_entry else ret tt.

(** ** [_construct] (lines 92-117) *)
Definition _construct (p_key : string) (p_value : Z) : M Z :=
  let* p_entry := malloc_prop sizeof_t_property in
  let* buffer := malloc_key (strlen p_key + 1) in
  let* _ := store_p_key p_entry buffer in
  let* failed := (if p_entry =? NULL then ret true
                  else let* k := load_p_key p_entry in ret (k =? NULL)) in
  if failed : bool then
    let* _ := _clear p_entry in ret NULL
  else
    let* k := load_p_key p_entry in
    let* _ := strcpy k p_key in
    let* _ := store_p_value p_entry p_value in
    let* _ := store_p_next p_entry NULL in
    ret p_entry.

(** A walk along an acyclic chain visits each live entry at most once. *)
Definition chain_fuel : M nat := fun m => Ok (S (size (m_props m))) m.

(** The slot of a key: [_hash(p_key) % p_table->size], stored in an
    [unsigned int]. *)
Definition slot_index (p_key : string) (sz : Z) : Z :=
  (_hash p_key mod sz) mod UINT_MOD.

(** ** [ch_put] (lines 143-177)

    [put_loop] is the [while] loop at line 162 together with the two
    statements that follow it. *)
Fixpoint put_loop (fuel : nat) (p_entry p_previous : Z) (p_key : string)
    (p_value : Z) : M Z :=
  if p_entry =? NULL then
    let* e := _construct p_key p_value in
    let* _ := store_p_next p_previous e in
    ret p_value
  else
    match fuel with
    | O => diverge
    | S fuel' =>
        let* k := load_p_key p_entry in
        let* s := load_key k in
        if strcmp s p_key =? 0 then
          let* _ := store_p_value p_entry p_value in
          ret p_value
        else
          let* next := load_p_next p_entry in
          put_loop fuel' next p_entry p_key p_value
    end.

Definition ch_put (p_table : Z) (p_key : string) (p_value : Z) : M Z :=
  let* sz := load_size p_table in
  if sz =? 0 then fault else
  let hash := slot_index p_key sz in
  let* arr := load_p_entries p_table in
  let* p_entry := load_slot arr hash in
  if p_entry =? NULL then
    let* e := _construct p_key p_value in
    let* _ := store_slot arr hash e in
    ret p_value
  else
    let* fuel := chain_fuel in
    put_loop fuel p_entry NULL p_key p_value.

(** ** [ch_get] (lines 191-219) *)
Fixpoint get_loop (fuel : nat) (p_entry : Z) (p_key : string) : M Z :=
  if p_entry =? NULL then ret NULL
  else
    match fuel with
    | O => diverge
    | S fuel' =>
        let* k := load_p_key p_entry in
        let* s := load_key k in
        if strcmp s p_key =? 0 then load_p_value p_entry
        else
          let* next := load_p_next p_entry in
          get_loop fuel' next p_key
    end.

Definition ch_get (p_table : Z) (p_key : string) : M Z :=
  let* sz := load_size p_table in
  if sz =? 0 then fault else
  let hash := slot_index p_key sz in
  let* arr := load_p_entries p_table in
  let* p_entry := load_slot arr hash in
  if p_entry =? NULL then ret NULL
  else
    let* fuel := chain_fuel in
    get_loop fuel p_entry p_key.

(** ** [ch_delete] (lines 234-277)

    [delete_loop] is the search loop at line 249; it hands back the final
    [p_current] and [p_previous]. *)
Fixpoint delete_loop (fuel : nat) (p_current p_previous : Z) (p_key : string)
    : M (Z * Z) :=
  if p_current =? NULL then ret (p_current, p_previous)
  else
    match fuel with
    | O => diverge
    | S fuel' =>
        let* k := load_p_key p_current in
        let* s := load_key k in
        if negb (strcmp s p_key =? 0) then
          let* next := load_p_next p_current in
          delete_loop fuel' next p_current p_key
        else ret (p_current, p_previous)
    end.

Definition ch_delete (p_table : Z) (p_key : string) : M Z :=
  let* sz := load_size p_table in
  if sz =? 0 then fault else
  let hash := slot_index p_key sz in
  let* arr := load_p_entries p_table in
  let* head := load_slot arr hash in
  let* fuel := chain_fuel in
  let* found := delete_loop fuel head NULL p_key in
  let p_current := fst found in
  let p_previous := snd found in
  if p_current =? NULL then ret NULL
  else
    let* p_value_storage := load_p_value p_current in
    let* next := load_p_next p_current in
    let target := if next =? NULL then NULL else next in
    let* _ := (if p_previous =? NULL then store_slot arr hash target
               else store_p_next p_previous target) in
    let* _ := _clear p_current in
    ret p_value_storage.

(** ** [ch_clear] (lines 290-307)

    [counter] is an [int]: it is converted to [unsigned long] for the
    comparison, and [counter++] overflows at [INT_MAX]. *)
Fixpoint clear_loop (fuel : nat) (counter : Z) (p_table : Z) : M unit :=
  let* sz := load_size p_table in
  if counter <? sz then
    match fuel with
    | O => diverge
    | S fuel' =>
        let* arr := load_p_entries p_table in
        let* p_entry := load_slot arr counter in
        if INT_MAX <=? counter then fault else
        let* _ := (if negb (p_entry =? NULL) then _clear p_entry else ret tt) in
        clear_loop fuel' (counter + 1) p_table
    end
  else ret tt.

Definition ch_clear (p_table : Z) : M unit :=
  let* sz := load_size p_table in
  clear_loop (S (Z.to_nat sz)) 0 p_table.

(** ** [ch_destroy] (lines 362-380)

    The guard of line 365 divides the size of a pointer by the size of a
    [t_property]; [sizeof] does not evaluate its operand. *)
Definition ch_destroy (p_table : Z) : M unit :=
  let* _ := (if 0 <? sizeof_ptr / sizeof_t_property then ch_clear p_table
             else ret tt) in
  let* arr := load_p_entries p_table in
  let* _ := (if negb (arr =? NULL)
             then let* _ := free_array arr in store_p_entries p_table NULL
             else ret tt) in
  if negb (p_table =? NULL) then free_table p_table else ret tt.

(** ** [ch_create] (lines 320-349) *)
Fixpoint create_loop (fuel : nat) (counter table_size p_table : Z) : M unit :=
  if counter <? table_size then
    match fuel with
    | O => diverge
    | S fuel' =>
        let* arr := load_p_entries p_table in
        let* _ := store_slot arr counter NULL in
        if INT_MAX <=? counter then fault
        else create_loop fuel' (counter + 1) table_size p_table
    end
  else ret tt.

Definition ch_create (table_size : Z) : M Z :=
  let* p_table := malloc_table sizeof_t_table in
  let* arr := malloc_array ((sizeof_ptr * table_size) mod ULONG_MOD) in
  let* _ := store_p_entries p_table arr in
  let* _ := store_size p_table table_size in
  let* failed := (if p_table =? NULL then ret true
                  else let* a := load_p_entries p_table in ret (a =? NULL)) in
  if failed : bool then
    let* _ := ch_destroy p_table in ret NULL
  else
    let* _ := create_loop (S (Z.to_nat table_size)) 0 table_size p_table in
    ret p_table.

(** A sequence of insertions, as a caller would issue them. *)
Fixpoint put_all (t : Z) (kvs : list (string * Z)) : M unit :=
  match kvs with
  | [] => ret tt
  | (k, v) :: rest => let* _ := ch_put t k v in put_all t rest
  end.

End CHash.

(** * The table as lists of chains

    A well-formed table is described by its chains: one list of nodes per
    slot, in chain order.  A node records where the entry and its key buffer
    live and what they hold. *)

Record node := Node {
  n_addr : Z;       (* address of the [t_property] *)
  n_kaddr : Z;      (* address of its key buffer *)
  n_key : string;   (* content of the key buffer *)
  n_value : Z       (* its value reference *)
}.

(** The pointer that leads into a list of nodes followed by [tl]. *)
Definition link (l : list node) (tl : Z) : Z :=
  match l with [] => tl | n :: _ => n_addr n end.

Definition head_addr (l : list node) : Z := link l NULL.

(** The heap holds the nodes of [l], linked in order and ending in [tl]. *)
Fixpoint seg_ok (ps : gmap Z t_property) (ks : gmap Z string)
    (l : list node) (tl : Z) : Prop :=
  match l with
  | [] => True
  | n :: l' =>
      n_addr n ≠ NULL ∧ n_kaddr n ≠ NULL ∧
      ps !! n_addr n = Some (Property (n_kaddr n) (n_value n) (link l' tl)) ∧
      ks !! n_kaddr n = Some (n_key n) ∧
      seg_ok ps ks l' tl
  end.

Definition chain_ok (ps : gmap Z t_property) (ks : gmap Z string)
    (l : list node) : Prop := seg_ok ps ks l NULL.

(** First node of a chain with key [k]. *)
Fixpoint chain_find (k : string) (l : list node) : option node :=
  match l with
  | [] => None
  | n :: l' => if decide (n_key n = k) then Some n else chain_find k l'
  end.

Definition slot_of (chains : list (list node)) (k : string) : nat :=
  Z.to_nat (slot_index k (Z.of_nat (length chains))).

Definition table_find (chains : list (list node)) (k : string) : option node :=
  chain_find k (default [] (chains !! slot_of chains k)).

Definition value_or_null (o : option node) : Z :=
  match o with Some n => n_value n | None => NULL end.

(** The table at [t], with its slot array at [arr], holds exactly [chains]:
    the header and the array are live, every slot leads to its chain, no
    block is shared between two nodes, no key occurs twice, and every node
    sits in the slot of its key. *)
Record table_at (m : memory) (t arr : Z) (chains : list (list node)) : Prop := {
  at_table : m_tables m !! t = Some (Table (Z.of_nat (length chains)) arr);
  at_array : m_arrays m !! arr = Some (head_addr <$> chains);
  at_chains : Forall (chain_ok (m_props m) (m_keys m)) chains;
  at_addrs : NoDup (n_addr <$> concat chains);
  at_kaddrs : NoDup (n_kaddr <$> concat chains);
  at_keys : NoDup (n_key <$> concat chains);
  at_slots : ∀ i l n, chains !! i = Some l → n ∈ l → slot_of chains (n_key n) = i
}.

(** The key/value pairs of a table, and a key that is in none of them. *)
Definition bindings (chains : list (list node)) : list (string * Z) :=
  (λ n, (n_key n, n_value n)) <$> concat chains.

Definition absent (chains : list (list node)) (k : string) : Prop :=
  ∀ x, x ∈ concat chains → n_key x ≠ k.

Definition with_value (n : node) (v : Z) : node :=
  Node (n_addr n) (n_kaddr n) (n_key n) v.

(** ** The effect of the operations on the heap *)

(** A new entry at [a] with its key buffer at [b]. *)
Definition alloc_entry (a b : Z) (k : string) (v : Z) (m : memory) : memory :=
  Memory (m_tables m) (m_arrays m)
    (<[a := Property b v NULL]> (m_props m)) (<[b := k]> (m_keys m))
    (S (S (m_nalloc m))).

(** The entry of [n] and its key buffer released. *)
Definition free_entry (n : node) (m : memory) : memory :=
  Memory (m_tables m) (m_arrays m)
    (delete (n_addr n) (m_props m)) (delete (n_kaddr n) (m_keys m))
    (m_nalloc m).

(** The link that leads to a position of a chain is the slot itself at the
    head, and the [p_next] field of the node before it elsewhere. *)
Definition relink (prev : option node) (arr : Z) (slots : list Z) (i : nat)
    (target : Z) (m : memory) : memory :=
  match prev with
  | None => set_arrays <[arr := <[i := target]> slots]> m
  | Some pv =>
      set_props <[n_addr pv := Property (n_kaddr pv) (n_value pv) target]> m
  end.

Definition set_value (n : node) (next v : Z) (m : memory) : memory :=
  set_props <[n_addr n := Property (n_kaddr n) v next]> m.

(** ** Allocators *)

(** Every call of [malloc] succeeds. *)
Definition allocs_succeed (policy : memory → option Z) : Prop :=
  ∀ m, ∃ a, policy m = Some a ∧ is_free m a = true.

(** An allocator that never fails and never hands out a live address. *)
Definition fresh_policy (m : memory) : option Z :=
  Some (fresh ({[NULL]} ∪ dom (m_tables m) ∪ dom (m_arrays m)
                ∪ dom (m_props m) ∪ dom (m_keys m) : gset Z)).

(** An allocator that follows a script: the answer to the n-th call of
    [malloc], [None] for a failed call and once the script is over. *)
Definition scripted (script : list (option Z)) (m : memory) : option Z :=
  mjoin (script !! m_nalloc m).

(** An allocator that hands a released block out again, as a free list
    does: the entry and the key buffer of the second insertion get the
    addresses of the first. *)
Definition reuse_policy : memory → option Z :=
  scripted [Some 1; Some 2; Some 3; Some 4; Some 3; Some 4].

(** ** Concrete tables *)

(** Capacity 1, no entry. *)
Definition empty_one : memory := Memory {[1 := Table 1 2]} {[2 := [0]]} ∅ ∅ 2.

(** Capacity 1, keys "a" and "b" in the one chain. *)
Definition build_ab : M Z :=
  let* t := ch_create fresh_policy 1 in
  let* _ := ch_put fresh_policy t "a" 7 in
  let* _ := ch_put fresh_policy t "b" 9 in
  ret t.

Definition chain_ab : memory :=
  Memory {[1 := Table 1 2]} {[2 := [3]]}
    {[3 := Property 4 7 5; 5 := Property 6 9 NULL]}
    {[4 := "a"; 6 := "b"]} 6.

Definition chains_ab : list (list node) :=
  [[Node 3 4 "a" 7; Node 5 6 "b" 9]].

(** [chain_ab] after [ch_clear], and after [ch_destroy]. *)
Definition cleared_ab : memory :=
  Memory {[1 := Table 1 2]} {[2 := [3]]} {[5 := Property 6 9 NULL]}
    {[6 := "b"]} 6.

Definition destroyed_ab : memory :=
  Memory ∅ ∅ {[3 := Property 4 7 5; 5 := Property 6 9 NULL]}
    {[4 := "a"; 6 := "b"]} 6.

(** Capacity 1, key "a" stored with a null value reference. *)
Definition build_null : M Z :=
  let* t := ch_create fresh_policy 1 in
  let* _ := ch_put fresh_policy t "a" NULL in
  ret t.

Definition chain_null : memory :=
  Memory {[1 := Table 1 2]} {[2 := [3]]} {[3 := Property 4 NULL NULL]}
    {[4 := "a"]} 4.

(** Capacity 2: "a" inserted, the table cleared, "b" inserted. *)
Definition build_cleared : M Z :=
  let* t := ch_create reuse_policy 2 in
  let* _ := ch_put reuse_policy t "a" 7 in
  let* _ := ch_clear t in
  ret t.

Definition cleared_a : memory :=
  Memory {[1 := Table 2 2]} {[2 := [0; 3]]} ∅ ∅ 4.

Definition shared_entry : memory :=
  Memory {[1 := Table 2 2]} {[2 := [3; 3]]} {[3 := Property 4 9 NULL]}
    {[4 := "b"]} 6.

(** The keys of the live entries that a walk from [p] meets. *)
Fixpoint reachable_keys (fuel : nat) (m : memory) (p : Z) : list string :=
  match fuel with
  | O => []
  | S fuel' =>
      match m_props m !! p with
      | None => []
      | Some e =>
          default EmptyString (m_keys m !! p_key e)
            :: reachable_keys fuel' m (p_next e)
      end
  end.

(** ** The hash as the specification words it

    Section 4.1: the accumulator starts at 0 and, for each byte of the
    string in order, becomes accumulator * 33 + byte value, modulo the word
    size. *)
Definition hash_spec (key : string) : Z :=
  fold_left (λ acc c, (acc * 33 + uchar_val c) mod ULONG_MOD)
    (list_ascii_of_string key) 0.

(** A key of 65536 bytes. *)
Definition long_key : string :=
  string_of_list_ascii (repeat "a"%char (Z.to_nat 65536)).

(** * The table as a map, the heap after each operation, the printer *)

(** ** The table as a finite map *)

(** The finite map that the chains of a table stand for. *)
Definition as_map (chains : list (list node)) : gmap string Z :=
  list_to_map (bindings chains).

(** ** The heap after [ch_create], [ch_clear] and [ch_destroy] *)

(** The first node of every chain that has one, in slot order. *)
Definition heads (chains : list (list node)) : list node := omap head chains.

(** The entries of [ns] and their key buffers released, one after the other. *)
Definition release (ns : list node) (m : memory) : memory :=
  foldl (λ m n, free_entry n m) m ns.

(** The heap after [ch_create]: a header at [t] and an array of [C] null
    slots at [arr]. *)
Definition created_at (t arr C : Z) (m : memory) : memory :=
  Memory (<[t := Table C arr]> (m_tables m))
    (<[arr := replicate (Z.to_nat C) NULL]> (m_arrays m))
    (m_props m) (m_keys m) (S (S (m_nalloc m))).

(** The heap after [ch_destroy]: the header and the slot array released. *)
Definition destroyed_at (t arr : Z) (m : memory) : memory :=
  Memory (delete t (m_tables m)) (delete arr (m_arrays m))
    (m_props m) (m_keys m) (m_nalloc m).

(** An entry that [_clear] can release. *)
Definition live_entry (m : memory) (x : node) : Prop :=
  n_addr x ≠ NULL ∧ n_kaddr x ≠ NULL ∧
  (∃ next, m_props m !! n_addr x = Some (Property (n_kaddr x) (n_value x) next)) ∧
  is_Some (m_keys m !! n_kaddr x).

(** ** [_print_hash_table] (main.c, lines 25-51)

    Standard output is the list of the calls of [printf] made so far, each
    with its format and its arguments.  [PRIXPTR] is [lX]. *)

Inductive printf_arg : Type :=
  | ArgInt (i : Z)
  | ArgStr (s : string)
  | ArgPtr (p : Z).

Definition stdout : Type := list (string * list printf_arg).

Definition printf (format : string) (args : list printf_arg) (out : stdout)
    : stdout :=
  out ++ [(format, args)].

Definition dquote : ascii := "034"%char.
Definition newline : ascii := "010"%char.

Definition format_slot : string := "[%5d]: ".
Definition format_last : string :=
  String dquote (String.append "%s" (String dquote ": 0x%lX ")).
Definition format_more : string :=
  String dquote (String.append "%s" (String dquote ": 0x%lX, ")).
Definition format_newline : string := String newline EmptyString.

(** The [while] loop of line 37. *)
Fixpoint print_chain (fuel : nat) (p_entry : Z) (out : stdout) : M stdout :=
  if p_entry =? NULL then ret out
  else
    match fuel with
    | O => diverge
    | S fuel' =>
        let* next := load_p_next p_entry in
        let* k := load_p_key p_entry in
        let* s := load_key k in
        let* v := load_p_value p_entry in
        let out := printf (if next =? NULL then format_last else format_more)
                     [ArgStr s; ArgPtr v] out in
        let* next := load_p_next p_entry in
        print_chain fuel' next out
    end.

(** The [for] loop of line 31; [i] is an [int], and [i++] runs after
    [continue] as well. *)
Fixpoint print_slots (fuel : nat) (i : Z) (p_ht : Z) (out : stdout) : M stdout :=
  let* sz := load_size p_ht in
  if i <? sz then
    match fuel with
    | O => diverge
    | S fuel' =>
        let* arr := load_p_entries p_ht in
        let* p_entry := load_slot arr i in
        let* out :=
          (if p_entry =? NULL then ret out
           else
             let out := printf format_slot [ArgInt i] out in
             let* fuel := chain_fuel in
             let* out := print_chain fuel p_entry out in
             ret (printf format_newline [] out)) in
        if INT_MAX <=? i then fault
        else print_slots fuel' (i + 1) p_ht out
    end
  else ret out.

Definition _print_hash_table (p_ht : Z) : M stdout :=
  let* sz := load_size p_ht in
  print_slots (S (Z.to_nat sz)) 0 p_ht [].

(** What a table of given chains looks like on standard output. *)
Fixpoint render_chain (l : list node) : stdout :=
  match l with
  | [] => []
  | n :: l' =>
      (match l' with [] => format_last | _ => format_more end,
       [ArgStr (n_key n); ArgPtr (n_value n)]) :: render_chain l'
  end.

Definition render_slot (i : nat) (l : list node) : stdout :=
  match l with
  | [] => []
  | _ => (format_slot, [ArgInt (Z.of_nat i)]) :: render_chain l
           ++ [(format_newline, [])]
  end.

Definition render (chains : list (list node)) : stdout :=
  concat (imap render_slot chains).

(** ** Two tables in one heap, and a heap with one table only *)

(** Two tables in one heap: "a" and "b" in the first, "a" in the second. *)
Definition two_tables : memory :=
  Memory {[1 := Table 1 2; 7 := Table 1 8]} {[2 := [3]; 8 := [9]]}
    {[3 := Property 4 7 5; 5 := Property 6 9 NULL; 9 := Property 10 1 NULL]}
    {[4 := "a"; 6 := "b"; 10 := "a"]} 10.

Definition chains_second : list (list node) := [[Node 9 10 "a" 1]].

(** No entry and no key buffer of the first table belongs to the second. *)
Definition separate (chains1 chains2 : list (list node)) : Prop :=
  ∀ x y, x ∈ concat chains1 → y ∈ concat chains2 →
         n_addr x ≠ n_addr y ∧ n_kaddr x ≠ n_kaddr y.

(** The entries of the table are all the entries of the heap, and so for the
    key buffers. *)
Definition owns (m : memory) (chains : list (list node)) : Prop :=
  dom (m_props m) = list_to_set (n_addr <$> concat chains) ∧
  dom (m_keys m) = list_to_set (n_kaddr <$> concat chains).

(** ** Properties of a computation *)

(** A computation that leaves every table header as it is, and one that can
    only return [v]. *)
Definition keeps_headers {A} (c : M A) : Prop :=
  ∀ m r m', c m = Ok r m' → m_tables m' = m_tables m.

Definition returns_only {A} (v : A) (c : M A) : Prop :=
  ∀ m r m', c m = Ok r m' → r = v.

(** * Proofs *)

(** ** Tactics for the state monad *)

Lemma NULL_eqb a : a ≠ NULL → (a =? NULL) = false.
Proof. intros. by apply Z.eqb_neq. Qed.

Ltac msimpl :=
  cbn beta iota delta [m_tables m_arrays m_props m_keys m_nalloc set_tables
    set_arrays set_props set_keys count_alloc p_key p_value p_next t_size
    p_entries fst snd negb].

Ltac run_monad :=
  unfold bind, ret, fault, load_size, load_p_entries, load_p_key, load_p_value,
    load_p_next, store_p_key, store_p_value, store_p_next, store_size,
    store_p_entries, load_table, store_table, load_prop, store_prop,
    load_key, strcpy, chain_fuel; msimpl.

Ltac mstep :=
  msimpl;
  first
    [ rewrite lookup_insert_eq
    | rewrite lookup_insert_ne by done
    | rewrite NULL_eqb by done
    | progress change (NULL =? NULL) with true
    | match goal with
      | H : ?x !! ?a = Some _ |- context [?x !! ?a] => rewrite H
      end ].

Ltac mnorm :=
  unfold set_tables, set_arrays, set_props, set_keys, count_alloc; msimpl.

Ltac mrun := run_monad; repeat mstep; msimpl.

(** ** Strings *)

Lemma uchar_val_inj c1 c2 : uchar_val c1 = uchar_val c2 → c1 = c2.
Proof.
  unfold uchar_val. intros H. apply N2Z.inj in H.
  rewrite <- (ascii_N_embedding c1), <- (ascii_N_embedding c2). by rewrite H.
Qed.

Lemma strcmp_refl s : strcmp s s = 0.
Proof. induction s as [|c s IH]; simpl; [done|]. by rewrite Z.ltb_irrefl. Qed.

Lemma strcmp_eq s1 s2 : strcmp s1 s2 = 0 ↔ s1 = s2.
Proof.
  split; [|intros ->; apply strcmp_refl].
  revert s2. induction s1 as [|c1 r1 IH]; intros [|c2 r2]; simpl; try done.
  destruct (Z.ltb_spec (uchar_val c1) (uchar_val c2)); [done|].
  destruct (Z.ltb_spec (uchar_val c2) (uchar_val c1)); [done|].
  intros H1. f_equal; [apply uchar_val_inj; lia | by apply IH].
Qed.

Lemma strcmp_eqb s1 s2 : (strcmp s1 s2 =? 0) = bool_decide (s1 = s2).
Proof.
  destruct (Z.eqb_spec (strcmp s1 s2) 0) as [H|H].
  - apply strcmp_eq in H. by rewrite bool_decide_eq_true_2.
  - rewrite bool_decide_eq_false_2; [done|]. intros ->. by rewrite strcmp_refl in H.
Qed.

(** ** Slots *)

Lemma slot_index_range k sz : 0 < sz → 0 <= slot_index k sz < sz.
Proof.
  intros Hsz. unfold slot_index, UINT_MOD.
  pose proof (Z.mod_pos_bound (_hash k) sz Hsz).
  pose proof (Z.mod_pos_bound (_hash k mod sz) (2 ^ 32) ltac:(lia)).
  pose proof (Z.mod_le (_hash k mod sz) (2 ^ 32) ltac:(lia) ltac:(lia)). lia.
Qed.

Lemma slot_of_lt chains k : chains ≠ [] → (slot_of chains k < length chains)%nat.
Proof.
  intros Hne. unfold slot_of.
  assert (0 < Z.of_nat (length chains)) by (destruct chains; simpl in *; [done|lia]).
  pose proof (slot_index_range k _ H). lia.
Qed.

(** ** Segments of a chain *)

Lemma seg_ok_app ps ks l1 l2 tl :
  seg_ok ps ks (l1 ++ l2) tl ↔ seg_ok ps ks l1 (link l2 tl) ∧ seg_ok ps ks l2 tl.
Proof.
  induction l1 as [|n l1 IH]; simpl; [tauto|].
  rewrite IH. destruct l1; simpl; tauto.
Qed.

Lemma seg_ok_frame ps ks ps' ks' l tl :
  seg_ok ps ks l tl →
  (∀ n, n ∈ l → ps' !! n_addr n = ps !! n_addr n ∧ ks' !! n_kaddr n = ks !! n_kaddr n) →
  seg_ok ps' ks' l tl.
Proof.
  induction l as [|n l IH]; simpl; [done|].
  intros (?&?&?&?&?) Hf. destruct (Hf n) as [-> ->]; [left|].
  repeat split; try done. apply IH; [done|]. intros; apply Hf. by right.
Qed.

Lemma seg_ok_lookup ps ks l tl n :
  seg_ok ps ks l tl → n ∈ l →
  n_addr n ≠ NULL ∧ n_kaddr n ≠ NULL ∧ is_Some (ps !! n_addr n) ∧
  ks !! n_kaddr n = Some (n_key n).
Proof.
  induction l as [|x l IH]; simpl; [by intros _ ?%elem_of_nil|].
  intros (?&?&?&?&?) [->|?]%elem_of_cons; eauto.
Qed.

Lemma chain_length_le ps ks l tl :
  seg_ok ps ks l tl → NoDup (n_addr <$> l) → (length l <= size ps)%nat.
Proof.
  intros Hok Hnd.
  rewrite <- (length_fmap n_addr), <- (size_list_to_set (C:=gset Z)) by done.
  rewrite <- size_dom. apply subseteq_size.
  intros a [n [-> Hn]]%elem_of_list_to_set%list_elem_of_fmap.
  apply elem_of_dom. by eapply seg_ok_lookup.
Qed.

(** ** Searching a chain *)

Lemma chain_find_Some k l n :
  chain_find k l = Some n →
  ∃ l1 l2, l = l1 ++ n :: l2 ∧ n_key n = k ∧ Forall (λ x, n_key x ≠ k) l1.
Proof.
  induction l as [|x l IH]; simpl; [done|].
  destruct (decide (n_key x = k)) as [Hk|Hk].
  - intros [= ->]. by exists [], l.
  - intros (l1 & l2 & -> & ? & ?)%IH. exists (x :: l1), l2. by repeat constructor.
Qed.

Lemma chain_find_None k l :
  chain_find k l = None ↔ Forall (λ x, n_key x ≠ k) l.
Proof.
  induction l as [|x l IH]; simpl; [by split; [constructor|]|].
  destruct (decide (n_key x = k)) as [Hk|Hk]; rewrite Forall_cons.
  - split; [done|]. by intros [? _].
  - rewrite IH. tauto.
Qed.

Lemma chain_find_app_skip k l1 l2 :
  Forall (λ x, n_key x ≠ k) l1 → chain_find k (l1 ++ l2) = chain_find k l2.
Proof.
  induction 1 as [|x l1 Hx _ IH]; simpl; [done|]. by rewrite decide_False.
Qed.

Lemma chain_find_key k l n : chain_find k l = Some n → n_key n = k ∧ n ∈ l.
Proof.
  intros (l1 & l2 & -> & ? & _)%chain_find_Some. split; [done|].
  apply elem_of_app. right. left.
Qed.

(** ** One node of a chain, as the loops read it *)

Lemma last_default_cons (n : node) l p0 :
  from_option n_addr (n_addr n) (last l) = from_option n_addr p0 (last (n :: l)).
Proof.
  destruct l as [|x l]; [done|]. change (last (n :: x :: l)) with (last (x :: l)).
  destruct (last (x :: l)) eqn:E; [done|]. by apply last_None in E.
Qed.

Section Walks.
Context (m : memory) (k : string).
Local Abbreviation ps := (m_props m).
Local Abbreviation ks := (m_keys m).

Lemma get_loop_spec l tl fuel :
  seg_ok ps ks l tl → (length l < fuel)%nat →
  get_loop fuel (link l tl) k m =
    match chain_find k l with
    | Some n => Ok (n_value n) m
    | None => get_loop (fuel - length l) tl k m
    end.
Proof.
  revert fuel. induction l as [|n l IH]; intros fuel; simpl.
  { intros _ _. by rewrite Nat.sub_0_r. }
  intros (Ha & Hka & Hps & Hks & Hl) Hf.
  destruct fuel as [|fuel]; [lia|]. simpl.
  rewrite NULL_eqb by done. run_monad. rewrite Hps. simpl. rewrite Hks.
  rewrite strcmp_eqb. destruct (decide (n_key n = k)) as [Hk|Hk].
  - rewrite bool_decide_eq_true_2 by done. by rewrite Hps.
  - rewrite bool_decide_eq_false_2 by done. rewrite Hps. simpl.
    apply IH; [done|lia].
Qed.

Lemma put_loop_skip policy l rest tl p0 v fuel :
  seg_ok ps ks (l ++ rest) tl → Forall (λ x, n_key x ≠ k) l →
  (length l <= fuel)%nat →
  put_loop policy fuel (link (l ++ rest) tl) p0 k v m =
  put_loop policy (fuel - length l) (link rest tl)
    (from_option n_addr p0 (last l)) k v m.
Proof.
  revert fuel p0. induction l as [|n l IH]; intros fuel p0; simpl.
  { intros _ _ _. by rewrite Nat.sub_0_r. }
  intros (Ha & Hka & Hps & Hks & Hl) [Hk Hrest]%Forall_cons Hf.
  destruct fuel as [|fuel]; [lia|]. simpl.
  rewrite NULL_eqb by done. run_monad. rewrite Hps. simpl. rewrite Hks.
  rewrite strcmp_eqb, bool_decide_eq_false_2 by done. rewrite Hps. simpl.
  rewrite IH by (done || lia). f_equal.
  apply last_default_cons.
Qed.

Lemma delete_loop_skip l rest tl p0 fuel :
  seg_ok ps ks (l ++ rest) tl → Forall (λ x, n_key x ≠ k) l →
  (length l <= fuel)%nat →
  delete_loop fuel (link (l ++ rest) tl) p0 k m =
  delete_loop (fuel - length l) (link rest tl)
    (from_option n_addr p0 (last l)) k m.
Proof.
  revert fuel p0. induction l as [|n l IH]; intros fuel p0; simpl.
  { intros _ _ _. by rewrite Nat.sub_0_r. }
  intros (Ha & Hka & Hps & Hks & Hl) [Hk Hrest]%Forall_cons Hf.
  destruct fuel as [|fuel]; [lia|]. simpl.
  rewrite NULL_eqb by done. run_monad. rewrite Hps. simpl. rewrite Hks.
  rewrite strcmp_eqb, bool_decide_eq_false_2 by done. simpl. rewrite Hps. simpl.
  rewrite IH by (done || lia). f_equal.
  apply last_default_cons.
Qed.

End Walks.

(** ** Allocation and release of an entry *)

Lemma is_free_spec m a :
  is_free m a = true ↔
  a ≠ NULL ∧ m_tables m !! a = None ∧ m_arrays m !! a = None ∧
  m_props m !! a = None ∧ m_keys m !! a = None.
Proof.
  unfold is_free.
  destruct (m_tables m !! a), (m_arrays m !! a), (m_props m !! a),
    (m_keys m !! a);
    try (split; [discriminate | intros (_ & ? & ? & ? & ?); discriminate]).
  rewrite negb_true_iff, Z.eqb_neq. tauto.
Qed.

Lemma malloc_ok policy init m a :
  policy m = Some a → is_free m a = true →
  malloc policy init m = Ok a (init a (count_alloc m)).
Proof. intros Hp Hf. unfold malloc. by rewrite Hp, Hf. Qed.

Lemma construct_ok policy k v m a b :
  policy m = Some a → is_free m a = true →
  policy (set_props <[a := Property NULL NULL NULL]> (count_alloc m)) = Some b →
  is_free (set_props <[a := Property NULL NULL NULL]> (count_alloc m)) b = true →
  _construct policy k v m = Ok a (alloc_entry a b k v m).
Proof.
  intros Hp Hf Hp' Hf'. unfold _construct, malloc_prop, malloc_key, bind at 1.
  rewrite (malloc_ok _ _ _ _ Hp Hf). unfold bind at 1.
  rewrite (malloc_ok _ _ _ _ Hp' Hf').
  apply is_free_spec in Hf as (Ha & _). apply is_free_spec in Hf' as (Hb & _).
  mrun. unfold alloc_entry. mnorm. by rewrite !insert_insert_eq.
Qed.

Lemma construct_succeeds policy k v m :
  allocs_succeed policy →
  ∃ a b, is_free m a = true ∧ is_free m b = true ∧ a ≠ b ∧
         _construct policy k v m = Ok a (alloc_entry a b k v m).
Proof.
  intros Hpol. destruct (Hpol m) as (a & Hp & Hf).
  destruct (Hpol (set_props <[a := Property NULL NULL NULL]> (count_alloc m)))
    as (b & Hp' & Hf').
  exists a, b. split; [done|]. split; [|split].
  - apply is_free_spec in Hf' as (? & ? & ? & Hps & ?). simpl in *.
    apply lookup_insert_None in Hps as [? ?]. by apply is_free_spec.
  - apply is_free_spec in Hf' as (? & ? & ? & Hps & ?). simpl in *.
    apply lookup_insert_None in Hps as [? ?]. done.
  - by apply construct_ok.
Qed.

Lemma seg_ok_head ps ks l tl : seg_ok ps ks l tl → l ≠ [] → link l tl ≠ NULL.
Proof. destruct l as [|n l]; [done|]. simpl. tauto. Qed.

Lemma seg_ok_last ps ks l tl pv :
  seg_ok ps ks l tl → last l = Some pv →
  n_addr pv ≠ NULL ∧
  ps !! n_addr pv = Some (Property (n_kaddr pv) (n_value pv) tl).
Proof.
  intros Hok [l' ->]%last_Some. apply seg_ok_app in Hok as [_ Hok].
  simpl in Hok. tauto.
Qed.

Lemma clear_node m a ka v nx s :
  a ≠ NULL → ka ≠ NULL →
  m_props m !! a = Some (Property ka v nx) → m_keys m !! ka = Some s →
  _clear a m =
    Ok tt (Memory (m_tables m) (m_arrays m) (delete a (m_props m))
             (delete ka (m_keys m)) (m_nalloc m)).
Proof.
  intros Ha Hka Hps Hks. unfold _clear, free_key, free_prop. mrun.
  mnorm. by rewrite delete_insert_eq.
Qed.

(** ** The operations on a well-formed table *)

(** Entry to the chain of a key: the table header, the array and the slot. *)
Lemma slot_chain (chains : list (list node)) k :
  chains ≠ [] → ∃ l, chains !! slot_of chains k = Some l.
Proof. intros Hne. apply lookup_lt_is_Some. by apply slot_of_lt. Qed.

Lemma size_nonzero (chains : list (list node)) :
  chains ≠ [] → (Z.of_nat (length chains) =? 0) = false.
Proof. intros Hne. apply Z.eqb_neq. destruct chains; simpl; [done|lia]. Qed.

Lemma slot_nonneg (chains : list (list node)) k :
  chains ≠ [] → (slot_index k (Z.of_nat (length chains)) <? 0) = false.
Proof.
  intros Hne.
  pose proof (slot_index_range k (Z.of_nat (length chains))
                ltac:(destruct chains; simpl; [done|lia])).
  apply Z.ltb_ge. lia.
Qed.

Lemma slot_in_bounds (chains : list (list node)) k :
  chains ≠ [] →
  (Z.of_nat (length (head_addr <$> chains))
   <=? slot_index k (Z.of_nat (length chains))) = false.
Proof.
  intros Hne.
  pose proof (slot_index_range k (Z.of_nat (length chains))
                ltac:(destruct chains; simpl; [done|lia])).
  rewrite length_fmap. apply Z.leb_gt. lia.
Qed.

Lemma slot_lookup (chains : list (list node)) k l :
  chains !! slot_of chains k = Some l →
  (head_addr <$> chains) !! Z.to_nat (slot_index k (Z.of_nat (length chains)))
  = Some (head_addr l).
Proof.
  intros Hl. fold (slot_of chains k). by rewrite list_lookup_fmap, Hl.
Qed.

Ltac enter_slot Hat Hne Hl :=
  run_monad; rewrite (at_table _ _ _ _ Hat); msimpl;
  rewrite (size_nonzero _ Hne); rewrite (at_table _ _ _ _ Hat); msimpl;
  unfold load_slot; rewrite (at_array _ _ _ _ Hat);
  rewrite (slot_nonneg _ _ Hne), (slot_lookup _ _ _ Hl); msimpl.

Section Operations.
Context (m : memory) (t arr : Z) (chains : list (list node)) (k : string).
Hypothesis Hat : table_at m t arr chains.
Hypothesis Hne : chains ≠ [].

Local Abbreviation i := (slot_of chains k).
Local Abbreviation slots := (head_addr <$> chains).

Lemma chain_at_ok j l : chains !! j = Some l → chain_ok (m_props m) (m_keys m) l.
Proof.
  intros Hl. pose proof (at_chains _ _ _ _ Hat) as Hc.
  eapply Forall_lookup_1 in Hc; eauto.
Qed.

Lemma chain_at_addrs j l : chains !! j = Some l → NoDup (n_addr <$> l).
Proof.
  intros Hl. pose proof (at_addrs _ _ _ _ Hat) as Hnd.
  apply list_elem_of_split_length in Hl as (c1 & c2 & Heq & _).
  rewrite Heq, concat_app, concat_cons, !fmap_app in Hnd.
  apply NoDup_app in Hnd as (_ & _ & Hnd). by apply NoDup_app in Hnd as (? & _).
Qed.

Lemma fuel_enough l j : chains !! j = Some l → (length l < S (size (m_props m)))%nat.
Proof.
  intros Hl. apply Nat.lt_succ_r.
  eapply chain_length_le; [by eapply chain_at_ok | by eapply chain_at_addrs].
Qed.

Lemma ch_get_spec :
  ch_get t k m = Ok (value_or_null (table_find chains k)) m.
Proof.
  destruct (slot_chain chains k Hne) as [l Hl]. unfold ch_get, table_find.
  enter_slot Hat Hne Hl. rewrite Hl. simpl (default _ _).
  pose proof (chain_at_ok _ _ Hl) as Hok. pose proof (fuel_enough _ _ Hl) as Hfuel.
  destruct (head_addr l =? NULL) eqn:Hhd.
  - destruct l as [|n l]; [done|]. simpl in Hhd. destruct Hok as (Hn & _).
    by rewrite NULL_eqb in Hhd.
  - run_monad. unfold head_addr. rewrite (get_loop_spec m k l NULL _ Hok Hfuel).
    destruct (chain_find k l); [done|].
    by destruct (S (size (m_props m)) - length l)%nat.
Qed.

Lemma ch_delete_absent :
  table_find chains k = None → ch_delete t k m = Ok NULL m.
Proof.
  destruct (slot_chain chains k Hne) as [l Hl]. unfold ch_delete, table_find.
  rewrite Hl. simpl. intros Hnone%chain_find_None.
  enter_slot Hat Hne Hl.
  pose proof (chain_at_ok _ _ Hl) as Hok. pose proof (fuel_enough _ _ Hl) as Hfuel.
  replace (head_addr l) with (link (l ++ []) NULL) by by rewrite app_nil_r.
  rewrite (delete_loop_skip m k l [] NULL); [|by rewrite app_nil_r|done|lia].
  simpl. by destruct (S (size (m_props m)) - length l)%nat.
Qed.

Lemma ch_delete_present l1 n l2 :
  chains !! i = Some (l1 ++ n :: l2) → n_key n = k →
  Forall (λ x, n_key x ≠ k) l1 →
  ch_delete t k m =
    Ok (n_value n) (free_entry n (relink (last l1) arr slots i (head_addr l2) m)).
Proof.
  intros Hl Hk Hl1. unfold ch_delete. enter_slot Hat Hne Hl.
  pose proof (chain_at_ok _ _ Hl) as Hok. pose proof (fuel_enough _ _ Hl) as Hfuel.
  pose proof (chain_at_addrs _ _ Hl) as Hnd.
  rewrite length_app in Hfuel. simpl in Hfuel.
  unfold head_addr at 1.
  rewrite (delete_loop_skip m k l1 (n :: l2) NULL); [|done|done|lia].
  apply seg_ok_app in Hok as [Hok1 Hok2].
  destruct Hok2 as (Ha & Hka & Hps & Hks & Hok2).
  destruct (S (size (m_props m)) - length l1)%nat as [|fuel] eqn:Hfl; [lia|].
  cbn [delete_loop link]. rewrite NULL_eqb by done. mrun.
  rewrite strcmp_eqb, bool_decide_eq_true_2 by done. mrun.
  replace (if link l2 NULL =? NULL then NULL else link l2 NULL) with (link l2 NULL)
    by (unfold NULL; destruct (Z.eqb_spec (link l2 0) 0); congruence).
  destruct (last l1) as [pv|] eqn:Hlast; cbn [from_option relink].
  - destruct (seg_ok_last _ _ _ _ _ Hok1 Hlast) as [Hpv Hpvs].
    assert (n_addr pv ≠ n_addr n) as Hneq.
    { apply last_Some in Hlast as [l' ->].
      rewrite <- app_assoc, !fmap_app in Hnd. simpl in Hnd.
      apply NoDup_app in Hnd as (_ & _ & Hnd). apply NoDup_cons in Hnd as [Hnd _].
      intros Heq. apply Hnd. rewrite Heq. left. }
    mrun. erewrite clear_node; [done..| |done]; mrun. done.
  - change (NULL =? NULL) with true. cbn iota. unfold store_slot.
    rewrite (at_array _ _ _ _ Hat), slot_nonneg, slot_in_bounds by done. cbn [orb].
    erewrite clear_node; [done..| |]; by mrun.
Qed.

Lemma ch_put_present policy l1 n l2 v :
  chains !! i = Some (l1 ++ n :: l2) → n_key n = k →
  Forall (λ x, n_key x ≠ k) l1 →
  ch_put policy t k v m = Ok v (set_value n (head_addr l2) v m).
Proof.
  intros Hl Hk Hl1. unfold ch_put. enter_slot Hat Hne Hl.
  pose proof (chain_at_ok _ _ Hl) as Hok. pose proof (fuel_enough _ _ Hl) as Hfuel.
  rewrite length_app in Hfuel. simpl in Hfuel.
  assert ((head_addr (l1 ++ n :: l2) =? NULL) = false) as ->.
  { apply NULL_eqb. eapply seg_ok_head; [done|]. by destruct l1. }
  unfold head_addr at 1.
  rewrite (put_loop_skip m k policy l1 (n :: l2) NULL); [|done|done|lia].
  apply seg_ok_app in Hok as [Hok1 Hok2].
  destruct Hok2 as (Ha & Hka & Hps & Hks & Hok2).
  destruct (S (size (m_props m)) - length l1)%nat as [|fuel] eqn:Hfl; [lia|].
  cbn [put_loop link]. rewrite NULL_eqb by done. mrun.
  rewrite strcmp_eqb, bool_decide_eq_true_2 by done. by mrun.
Qed.

Lemma ch_put_absent policy l v a b :
  chains !! i = Some l → Forall (λ x, n_key x ≠ k) l →
  is_free m a = true →
  _construct policy k v m = Ok a (alloc_entry a b k v m) →
  ch_put policy t k v m =
    Ok v (relink (last l) arr slots i a (alloc_entry a b k v m)).
Proof.
  intros Hl Hk [Ha (_ & _ & Hfree & _)]%is_free_spec Hcons. unfold ch_put.
  enter_slot Hat Hne Hl.
  pose proof (chain_at_ok _ _ Hl) as Hok. pose proof (fuel_enough _ _ Hl) as Hfuel.
  destruct (last l) as [pv|] eqn:Hlast; cbn [relink].
  - destruct (seg_ok_last _ _ _ _ _ Hok Hlast) as [Hpv Hpvs].
    assert (a ≠ n_addr pv) by congruence.
    assert ((head_addr l =? NULL) = false) as ->.
    { apply NULL_eqb. eapply seg_ok_head; [done|]. by intros ->. }
    replace (head_addr l) with (link (l ++ []) NULL) by by rewrite app_nil_r.
    rewrite (put_loop_skip m k policy l [] NULL); [|by rewrite app_nil_r|done|lia].
    rewrite Hlast. cbn [from_option link].
    destruct (S (size (m_props m)) - length l)%nat; cbn [put_loop];
      change (NULL =? NULL) with true; cbn iota;
      unfold bind at 1; rewrite Hcons; unfold alloc_entry; by mrun.
  - apply last_None in Hlast as ->. change (head_addr [] =? NULL) with true.
    cbn beta iota. rewrite Hcons. unfold store_slot, alloc_entry.
    msimpl. by rewrite (at_array _ _ _ _ Hat), slot_nonneg, slot_in_bounds by done.
Qed.

End Operations.

(** ** Replacing one chain of a table *)

Lemma chains_split (chains : list (list node)) i l :
  chains !! i = Some l →
  ∃ c1 c2, chains = c1 ++ l :: c2 ∧ length c1 = i ∧
           ∀ l', <[i := l']> chains = c1 ++ l' :: c2.
Proof.
  intros (c1 & c2 & -> & ->)%list_elem_of_split_length.
  exists c1, c2. repeat split. intros l'.
  rewrite insert_app_r_alt by lia. by rewrite Nat.sub_diag.
Qed.

Lemma concat_middle (c1 : list (list node)) l c2 :
  concat (c1 ++ l :: c2) = concat c1 ++ l ++ concat c2.
Proof. by rewrite concat_app, concat_cons. Qed.

Section Isolation.
Context {B : Type} (f : node → B).

Lemma node_isolated c1 l1 n l2 c2 :
  NoDup (f <$> concat (c1 ++ (l1 ++ n :: l2) :: c2)) →
  NoDup (f <$> concat (c1 ++ (l1 ++ l2) :: c2)) ∧
  ∀ x, x ∈ concat (c1 ++ (l1 ++ l2) :: c2) → f x ≠ f n.
Proof.
  rewrite !concat_middle.
  assert (concat c1 ++ (l1 ++ n :: l2) ++ concat c2
          ≡ₚ n :: concat c1 ++ (l1 ++ l2) ++ concat c2) as ->.
  { rewrite <- (Permutation_middle l1). simpl. by rewrite <- Permutation_middle. }
  rewrite fmap_cons. intros [Hn Hnd]%NoDup_cons. split; [done|].
  intros x Hx Heq. apply Hn. rewrite <- Heq. by apply list_elem_of_fmap_2.
Qed.

Lemma node_added c1 l x c2 :
  NoDup (f <$> concat (c1 ++ l :: c2)) →
  (∀ y, y ∈ concat (c1 ++ l :: c2) → f y ≠ f x) →
  NoDup (f <$> concat (c1 ++ (l ++ [x]) :: c2)).
Proof.
  rewrite !concat_middle. intros Hnd Hx.
  assert (concat c1 ++ (l ++ [x]) ++ concat c2
          ≡ₚ x :: concat c1 ++ l ++ concat c2) as ->.
  { rewrite <- (Permutation_middle l). simpl. rewrite <- Permutation_middle.
    by rewrite app_nil_r. }
  rewrite fmap_cons. apply NoDup_cons. split; [|done].
  intros (y & Heq & Hy)%list_elem_of_fmap. by apply (Hx y).
Qed.

Lemma node_replaced c1 l1 n n' l2 c2 :
  f n' = f n →
  f <$> concat (c1 ++ (l1 ++ n' :: l2) :: c2) =
  f <$> concat (c1 ++ (l1 ++ n :: l2) :: c2).
Proof.
  intros Heq. rewrite !concat_middle, !fmap_app, !fmap_cons. by rewrite Heq.
Qed.

End Isolation.

Lemma table_at_replace m m' t arr c1 l l' c2 :
  table_at m t arr (c1 ++ l :: c2) →
  m_tables m' = m_tables m →
  m_arrays m' !! arr = Some (head_addr <$> c1 ++ l' :: c2) →
  (∀ n, n ∈ concat c1 ++ concat c2 →
        m_props m' !! n_addr n = m_props m !! n_addr n ∧
        m_keys m' !! n_kaddr n = m_keys m !! n_kaddr n) →
  chain_ok (m_props m') (m_keys m') l' →
  NoDup (n_addr <$> concat (c1 ++ l' :: c2)) →
  NoDup (n_kaddr <$> concat (c1 ++ l' :: c2)) →
  NoDup (n_key <$> concat (c1 ++ l' :: c2)) →
  (∀ n, n ∈ l' → slot_of (c1 ++ l :: c2) (n_key n) = length c1) →
  table_at m' t arr (c1 ++ l' :: c2).
Proof.
  intros [Ht Ha Hc _ _ _ Hs] Ht' Ha' Hframe Hl' Hnd1 Hnd2 Hnd3 Hs'.
  assert (length (c1 ++ l' :: c2) = length (c1 ++ l :: c2)) as Hlen
    by (rewrite !length_app; done).
  split; try done.
  - by rewrite Ht', Hlen.
  - apply Forall_app in Hc as [Hc1 Hc2]. apply Forall_cons in Hc2 as [_ Hc2].
    apply Forall_app. split; [|apply Forall_cons; split; [done|]].
    + apply Forall_forall. intros c Hin. eapply seg_ok_frame.
      { eapply Forall_forall in Hc1; eauto. }
      intros n Hn. apply Hframe, elem_of_app. left.
      apply list_elem_of_In, in_concat. exists c. by rewrite <- !list_elem_of_In.
    + apply Forall_forall. intros c Hin. eapply seg_ok_frame.
      { eapply Forall_forall in Hc2; eauto. }
      intros n Hn. apply Hframe, elem_of_app. right.
      apply list_elem_of_In, in_concat. exists c. by rewrite <- !list_elem_of_In.
  - intros j lj n Hj Hn. unfold slot_of. rewrite Hlen. fold (slot_of (c1 ++ l :: c2) (n_key n)).
    destruct (decide (j = length c1)) as [->|Hneq].
    + rewrite list_lookup_middle in Hj by done. injection Hj as <-. by apply Hs'.
    + apply (Hs j lj n); [|done].
      destruct (decide (j < length c1)%nat).
      * rewrite lookup_app_l in Hj |- * by done. done.
      * rewrite lookup_app_r in Hj |- * by lia.
        destruct (j - length c1)%nat eqn:E; [lia|]. done.
Qed.

Lemma elem_of_concat_middle (c1 : list (list node)) l c2 x :
  x ∈ concat (c1 ++ l :: c2) ↔ x ∈ l ∨ x ∈ concat c1 ++ concat c2.
Proof. rewrite concat_middle, !elem_of_app. tauto. Qed.

Lemma slots_replace (c1 : list (list node)) l l' c2 :
  <[length c1 := head_addr l']> (head_addr <$> c1 ++ l :: c2) =
  head_addr <$> c1 ++ l' :: c2.
Proof.
  rewrite !fmap_app, !fmap_cons, insert_app_r_alt by (rewrite length_fmap; lia).
  by rewrite length_fmap, Nat.sub_diag.
Qed.

Lemma slots_same (c1 : list (list node)) l l' c2 :
  head_addr l' = head_addr l →
  head_addr <$> c1 ++ l :: c2 = head_addr <$> c1 ++ l' :: c2.
Proof. intros H. by rewrite !fmap_app, !fmap_cons, H. Qed.

(** ** [ch_delete] keeps the table well formed *)

Lemma delete_preserves m t arr chains i l1 n l2 :
  table_at m t arr chains →
  chains !! i = Some (l1 ++ n :: l2) →
  table_at
    (free_entry n (relink (last l1) arr (head_addr <$> chains) i (head_addr l2) m))
    t arr (<[i := l1 ++ l2]> chains).
Proof.
  intros Hat (c1 & c2 & -> & <- & Hins)%chains_split. rewrite Hins.
  pose proof (at_chains _ _ _ _ Hat) as Hc.
  apply Forall_app in Hc as [_ Hc]. apply Forall_cons in Hc as [Hok _].
  apply seg_ok_app in Hok as [Hok1 Hok2].
  destruct Hok2 as (Ha & Hka & Hps & Hks & Hok2).
  destruct (node_isolated n_addr _ _ _ _ _ (at_addrs _ _ _ _ Hat)) as [Hnd1 Hiso1].
  destruct (node_isolated n_kaddr _ _ _ _ _ (at_kaddrs _ _ _ _ Hat)) as [Hnd2 Hiso2].
  destruct (node_isolated n_key _ _ _ _ _ (at_keys _ _ _ _ Hat)) as [Hnd3 _].
  apply (table_at_replace m _ t arr c1 (l1 ++ n :: l2)); try done.
  - destruct (last l1); reflexivity.
  - destruct (last l1) as [pv|] eqn:Hlast; simpl.
    + rewrite (at_array _ _ _ _ Hat). f_equal. apply slots_same.
      apply last_Some in Hlast as [l0 ->]. by destruct l0.
    + apply last_None in Hlast as ->. rewrite lookup_insert_eq. f_equal.
      apply slots_replace.
  - intros x Hx.
    assert (x ∈ concat (c1 ++ (l1 ++ l2) :: c2)) as Hx'
      by (apply elem_of_concat_middle; by right).
    split.
    + destruct (last l1) as [pv|] eqn:Hlast; simpl.
      * apply last_Some in Hlast as [l0 ->].
        rewrite <- app_assoc in Hnd1. simpl in Hnd1.
        destruct (node_isolated n_addr _ _ _ _ _ Hnd1) as [_ Hiso].
        rewrite lookup_delete_ne by (apply not_eq_sym, Hiso1; done).
        rewrite lookup_insert_ne; [done|]. apply not_eq_sym, Hiso.
        apply elem_of_concat_middle; by right.
      * rewrite lookup_delete_ne by (apply not_eq_sym, Hiso1; done). done.
    + assert (m_keys (free_entry n (relink (last l1) arr
                (head_addr <$> c1 ++ (l1 ++ n :: l2) :: c2) (length c1)
                (head_addr l2) m)) = delete (n_kaddr n) (m_keys m)) as ->
        by (destruct (last l1); reflexivity).
      rewrite lookup_delete_ne by (apply not_eq_sym, Hiso2; done). done.
  - assert (∀ x, x ∈ l1 ++ l2 → n_addr x ≠ n_addr n ∧ n_kaddr x ≠ n_kaddr n) as Hin.
    { intros x Hx. split; [apply Hiso1|apply Hiso2];
        apply elem_of_concat_middle; by left. }
    destruct l1 as [|pv l0 _] using rev_ind.
    + simpl. eapply seg_ok_frame; [exact Hok2|]. intros x Hx.
      destruct (Hin x Hx). simpl.
      by rewrite !lookup_delete_ne by done.
    + rewrite last_snoc. simpl. rewrite <- app_assoc. simpl.
      rewrite <- app_assoc in Hnd1. simpl in Hnd1.
      destruct (node_isolated n_addr _ _ _ _ _ Hnd1) as [_ Hiso].
      apply seg_ok_app in Hok1 as [Hok0 (Hpv & Hkpv & Hpps & Hpks & _)].
      destruct (Hin pv) as [? ?]; [set_solver|].
      apply seg_ok_app. split; [|split_and!; try done].
      * eapply seg_ok_frame; [exact Hok0|]. intros x Hx.
        destruct (Hin x) as [? ?]; [set_solver|].
        rewrite !lookup_delete_ne by done.
        rewrite lookup_insert_ne; [done|]. apply not_eq_sym, Hiso.
        apply elem_of_concat_middle. left. set_solver.
      * rewrite lookup_delete_ne by done. by rewrite lookup_insert_eq.
      * by rewrite lookup_delete_ne by done.
      * eapply seg_ok_frame; [exact Hok2|]. intros x Hx.
        destruct (Hin x) as [? ?]; [set_solver|].
        rewrite !lookup_delete_ne by done.
        rewrite lookup_insert_ne; [done|]. apply not_eq_sym, Hiso.
        apply elem_of_concat_middle. left. set_solver.
  - intros x Hx. eapply (at_slots _ _ _ _ Hat).
    + by apply list_lookup_middle.
    + set_solver.
Qed.

(** ** [ch_put] keeps the table well formed *)

Lemma put_present_preserves m t arr chains i l1 n l2 v :
  table_at m t arr chains →
  chains !! i = Some (l1 ++ n :: l2) →
  table_at (set_value n (head_addr l2) v m) t arr
    (<[i := l1 ++ with_value n v :: l2]> chains).
Proof.
  intros Hat (c1 & c2 & -> & <- & Hins)%chains_split. rewrite Hins.
  pose proof (at_chains _ _ _ _ Hat) as Hc.
  apply Forall_app in Hc as [_ Hc]. apply Forall_cons in Hc as [Hok _].
  apply seg_ok_app in Hok as [Hok1 Hok2].
  destruct Hok2 as (Ha & Hka & Hps & Hks & Hok2).
  destruct (node_isolated n_addr _ _ _ _ _ (at_addrs _ _ _ _ Hat)) as [_ Hiso].
  assert (∀ x, x ∈ l1 ++ l2 ∨ x ∈ concat c1 ++ concat c2 →
               <[n_addr n := Property (n_kaddr n) v (head_addr l2)]> (m_props m)
                 !! n_addr x = m_props m !! n_addr x) as Hframe.
  { intros x Hx. apply lookup_insert_ne, not_eq_sym, Hiso.
    by apply elem_of_concat_middle. }
  apply (table_at_replace m _ t arr c1 (l1 ++ n :: l2)); try done.
  - simpl. rewrite (at_array _ _ _ _ Hat). f_equal. apply slots_same.
    by destruct l1.
  - intros x Hx. split; [|done]. apply Hframe. by right.
  - apply seg_ok_app. split; [|split_and!; try done].
    + eapply seg_ok_frame; [exact Hok1|]. intros x Hx. split; [|done].
      apply Hframe. left. set_solver.
    + simpl. by rewrite lookup_insert_eq.
    + eapply seg_ok_frame; [exact Hok2|]. intros x Hx. split; [|done].
      apply Hframe. left. set_solver.
  - rewrite (node_replaced n_addr _ _ n) by done. apply (at_addrs _ _ _ _ Hat).
  - rewrite (node_replaced n_kaddr _ _ n) by done. apply (at_kaddrs _ _ _ _ Hat).
  - rewrite (node_replaced n_key _ _ n) by done. apply (at_keys _ _ _ _ Hat).
  - intros x Hx.
    assert (∃ y, y ∈ l1 ++ n :: l2 ∧ n_key y = n_key x) as (y & Hy & <-).
    { apply elem_of_app in Hx as [Hx|[->|Hx]%elem_of_cons].
      - exists x. set_solver.
      - exists n. set_solver.
      - exists x. set_solver. }
    eapply (at_slots _ _ _ _ Hat); [by apply list_lookup_middle|done].
Qed.

Lemma put_absent_preserves m t arr chains k v a b l :
  table_at m t arr chains →
  chains !! slot_of chains k = Some l →
  (∀ x, x ∈ concat chains → n_key x ≠ k) →
  is_free m a = true → is_free m b = true →
  table_at
    (relink (last l) arr (head_addr <$> chains) (slot_of chains k) a
       (alloc_entry a b k v m))
    t arr (<[slot_of chains k := l ++ [Node a b k v]]> chains).
Proof.
  intros Hat Hl Habs (Ha & _ & _ & Hpa & _)%is_free_spec
    (Hb & _ & _ & _ & Hkb)%is_free_spec.
  pose proof Hl as (c1 & c2 & Heq & Hi & Hins)%chains_split. rewrite Hins.
  clear Hl Hins. subst chains. rewrite <- Hi.
  pose proof (at_chains _ _ _ _ Hat) as Hc.
  assert (∀ x, x ∈ concat (c1 ++ l :: c2) →
               n_addr x ≠ a ∧ n_kaddr x ≠ b ∧ n_addr x ≠ NULL) as Hlive.
  { intros x (c & Hc' & Hx)%list_elem_of_In%in_concat.
    apply list_elem_of_In in Hc', Hx.
    eapply Forall_forall in Hc; [|exact Hc'].
    destruct (seg_ok_lookup _ _ _ _ _ Hc Hx) as (? & ? & [? ?] & ?).
    split_and!; congruence. }
  apply Forall_app in Hc as [_ Hc]. apply Forall_cons in Hc as [Hok _].
  apply (table_at_replace m _ t arr c1 l); try done.
  - by destruct (last l).
  - destruct (last l) as [pv|] eqn:Hlast; simpl.
    + rewrite (at_array _ _ _ _ Hat). f_equal. apply slots_same.
      apply last_Some in Hlast as [l0 ->]. by destruct l0.
    + apply last_None in Hlast as ->. rewrite lookup_insert_eq. f_equal.
      apply (slots_replace c1 [] [Node a b k v]).
  - intros x Hx.
    destruct (Hlive x) as (? & ? & ?); [apply elem_of_concat_middle; by right|].
    split.
    + destruct (last l) as [pv|] eqn:Hlast; simpl.
      * apply last_Some in Hlast as [l0 ->].
        destruct (node_isolated n_addr _ _ _ _ _ (at_addrs _ _ _ _ Hat)) as [_ Hiso].
        rewrite lookup_insert_ne.
        { by rewrite lookup_insert_ne. }
        apply not_eq_sym, Hiso. apply elem_of_concat_middle. by right.
      * by rewrite lookup_insert_ne.
    + assert (m_keys (relink (last l) arr (head_addr <$> c1 ++ l :: c2) (length c1) a
                (alloc_entry a b k v m)) = <[b := k]> (m_keys m)) as ->
        by (destruct (last l); reflexivity).
      by rewrite lookup_insert_ne.
  - assert (m_keys (relink (last l) arr (head_addr <$> c1 ++ l :: c2) (length c1) a
              (alloc_entry a b k v m)) = <[b := k]> (m_keys m)) as ->
      by (destruct (last l); reflexivity).
    assert (∀ x, x ∈ l → n_addr x ≠ a ∧ n_kaddr x ≠ b ∧ n_addr x ≠ NULL) as Hin.
    { intros x Hx. apply Hlive, elem_of_concat_middle. by left. }
    destruct l as [|pv l0 _] using rev_ind.
    + simpl. split_and!; try done; by rewrite lookup_insert_eq.
    + rewrite last_snoc. simpl. rewrite <- app_assoc. simpl.
      destruct (node_isolated n_addr _ _ _ _ _ (at_addrs _ _ _ _ Hat)) as [_ Hiso].
      apply seg_ok_app in Hok as [Hok0 (Hpv & Hkpv & Hpps & Hpks & _)].
      destruct (Hin pv) as (? & ? & ?); [set_solver|].
      apply seg_ok_app. split; [|split_and!; try done].
      * eapply seg_ok_frame; [exact Hok0|]. intros x Hx.
        destruct (Hin x) as (? & ? & ?); [set_solver|].
        split; [|by rewrite lookup_insert_ne].
        rewrite lookup_insert_ne; [by rewrite lookup_insert_ne|].
        apply not_eq_sym, Hiso. apply elem_of_concat_middle. left. set_solver.
      * by rewrite lookup_insert_eq.
      * by rewrite lookup_insert_ne.
      * simpl. split_and!; try done.
        -- rewrite lookup_insert_ne by done. by rewrite lookup_insert_eq.
        -- by rewrite lookup_insert_eq.
  - apply node_added; [apply (at_addrs _ _ _ _ Hat)|]. intros y Hy. by apply Hlive.
  - apply node_added; [apply (at_kaddrs _ _ _ _ Hat)|]. intros y Hy. by apply Hlive.
  - apply node_added; [apply (at_keys _ _ _ _ Hat)|]. intros y Hy. by apply Habs.
  - intros x [Hx|Hx]%elem_of_app.
    + eapply (at_slots _ _ _ _ Hat); [by apply list_lookup_middle|done].
    + apply list_elem_of_singleton in Hx as ->. by symmetry.
Qed.

(** ** Membership in the chains of a table *)

Lemma elem_of_chain (chains : list (list node)) i l x :
  chains !! i = Some l → x ∈ l → x ∈ concat chains.
Proof.
  intros Hl Hx. apply list_elem_of_In, in_concat. exists l.
  rewrite <- !list_elem_of_In. split; [|done]. by eapply list_elem_of_lookup_2.
Qed.

Lemma elem_of_chains (chains : list (list node)) x :
  x ∈ concat chains → ∃ i l, chains !! i = Some l ∧ x ∈ l.
Proof.
  intros (l & Hl & Hx)%list_elem_of_In%in_concat.
  apply list_elem_of_In, list_elem_of_lookup in Hl as [i Hi].
  exists i, l. by rewrite list_elem_of_In.
Qed.

Lemma present_split m t arr chains n :
  table_at m t arr chains → n ∈ concat chains →
  ∃ l1 l2, chains !! slot_of chains (n_key n) = Some (l1 ++ n :: l2) ∧
           Forall (λ x, n_key x ≠ n_key n) l1 ∧
           Forall (λ x, n_key x ≠ n_key n) l2.
Proof.
  intros Hat (i & l & Hl & Hn)%elem_of_chains.
  rewrite (at_slots _ _ _ _ Hat i l n Hl Hn).
  apply list_elem_of_split in Hn as (l1 & l2 & ->). exists l1, l2.
  split; [done|].
  pose proof Hl as (c1 & c2 & -> & _ & _)%chains_split.
  destruct (node_isolated n_key _ _ _ _ _ (at_keys _ _ _ _ Hat)) as [_ Hiso].
  split; apply Forall_forall; intros x Hx; apply Hiso, elem_of_concat_middle;
    left; set_solver.
Qed.

Lemma table_find_present m t arr chains n :
  table_at m t arr chains → n ∈ concat chains →
  table_find chains (n_key n) = Some n.
Proof.
  intros Hat Hn. destruct (present_split _ _ _ _ _ Hat Hn) as (l1 & l2 & Hl & H1 & _).
  unfold table_find. rewrite Hl. simpl. rewrite chain_find_app_skip by done.
  simpl. by rewrite decide_True.
Qed.

Lemma table_find_absent chains k : absent chains k → table_find chains k = None.
Proof.
  intros Habs. unfold table_find. apply chain_find_None, Forall_forall.
  intros x Hx. destruct (chains !! slot_of chains k) as [l|] eqn:Hl; simpl in Hx.
  - apply Habs. by eapply elem_of_chain.
  - by apply elem_of_nil in Hx.
Qed.

Lemma table_find_elem chains k n :
  table_find chains k = Some n → n ∈ concat chains ∧ n_key n = k.
Proof.
  unfold table_find. intros [Hk Hn]%chain_find_key. split; [|done].
  destruct (chains !! slot_of chains k) as [l|] eqn:Hl; simpl in Hn.
  - by eapply elem_of_chain.
  - by apply elem_of_nil in Hn.
Qed.

Lemma absent_chain chains k l :
  absent chains k → chains !! slot_of chains k = Some l →
  Forall (λ x, n_key x ≠ k) l.
Proof.
  intros Habs Hl. apply Forall_forall. intros x Hx. apply Habs.
  by eapply elem_of_chain.
Qed.

Lemma elem_of_bindings chains k v :
  (k, v) ∈ bindings chains ↔ ∃ n, n ∈ concat chains ∧ n_key n = k ∧ n_value n = v.
Proof.
  unfold bindings. rewrite list_elem_of_fmap. split.
  - intros (n & [= -> ->] & Hn). by exists n.
  - intros (n & Hn & <- & <-). by exists n.
Qed.

Lemma absent_bindings chains k : absent chains k ↔ k ∉ (bindings chains).*1.
Proof.
  unfold absent, bindings. rewrite <- list_fmap_compose. split.
  - intros Habs (n & -> & Hn)%list_elem_of_fmap. by apply (Habs n).
  - intros Hk x Hx Heq. apply Hk. apply list_elem_of_fmap. by exists x.
Qed.

(** Membership after a node has been appended to one chain. *)
Lemma elem_of_insert_snoc (chains : list (list node)) i l n x :
  chains !! i = Some l →
  (x ∈ concat (<[i := l ++ [n]]> chains) ↔ x = n ∨ x ∈ concat chains).
Proof.
  intros Hl. pose proof Hl as (c1 & c2 & -> & _ & ->)%chains_split.
  rewrite !concat_middle, !elem_of_app, list_elem_of_singleton. tauto.
Qed.

(** ** [ch_create] *)

Section Create.
Context (policy : memory → option Z).

Lemma create_loop_stays (m : memory) arr n c :
  m_arrays m !! arr = Some (replicate n NULL) → (Z.to_nat c < n)%nat →
  set_arrays <[arr := <[Z.to_nat c := NULL]> (replicate n NULL)]> m = m.
Proof.
  intros Harr Hc. rewrite list_insert_id by (by apply lookup_replicate_2).
  destruct m. unfold set_arrays. simpl in *. by rewrite insert_id.
Qed.

Lemma create_loop_inv fuel c ts t arr n m u m' :
  m_tables m !! t = Some (Table ts arr) →
  m_arrays m !! arr = Some (replicate n NULL) →
  0 <= c < ts → (Z.to_nat (ts - c) < fuel)%nat →
  create_loop fuel c ts t m = Ok u m' →
  ts <= INT_MAX ∧ ts <= Z.of_nat n ∧ m' = m.
Proof.
  intros Ht Harr. revert c. induction fuel as [|fuel IH]; intros c Hc Hf; [lia|].
  cbn [create_loop]. destruct (Z.ltb_spec c ts); [|lia].
  unfold bind, load_p_entries, load_table, store_slot. rewrite Ht. msimpl.
  rewrite Harr, length_replicate.
  destruct (Z.ltb_spec c 0); [lia|]. cbn [orb].
  destruct (Z.leb_spec (Z.of_nat n) c); [done|].
  rewrite (create_loop_stays m arr n c) by (done || lia).
  destruct (Z.leb_spec INT_MAX c); [done|].
  destruct (decide (c + 1 < ts)) as [Hlt|Hge].
  - apply IH; lia.
  - destruct fuel; cbn [create_loop]; destruct (Z.ltb_spec (c + 1) ts); try lia;
      unfold ret; intros [= <- <-]; split_and!; try done; lia.
Qed.

Lemma create_loop_ok fuel c ts t arr n m :
  m_tables m !! t = Some (Table ts arr) →
  m_arrays m !! arr = Some (replicate n NULL) →
  0 <= c → ts <= INT_MAX → ts <= Z.of_nat n → (Z.to_nat (ts - c) < fuel)%nat →
  create_loop fuel c ts t m = Ok tt m.
Proof.
  intros Ht Harr. revert c. induction fuel as [|fuel IH]; intros c Hc Hmax Hn Hf; [lia|].
  cbn [create_loop]. destruct (Z.ltb_spec c ts); [|done].
  unfold bind, load_p_entries, load_table, store_slot. rewrite Ht. msimpl.
  rewrite Harr, length_replicate.
  destruct (Z.ltb_spec c 0); [lia|]. cbn [orb].
  destruct (Z.leb_spec (Z.of_nat n) c); [lia|].
  rewrite (create_loop_stays m arr n c) by (done || lia).
  destruct (Z.leb_spec INT_MAX c); [lia|]. apply IH; lia.
Qed.

Lemma cells_of_size C :
  0 <= C <= INT_MAX → (sizeof_ptr * C) mod ULONG_MOD / sizeof_ptr = C.
Proof.
  intros HC. unfold sizeof_ptr, ULONG_MOD, INT_MAX in *.
  rewrite Z.mod_small by lia. rewrite Z.mul_comm. by apply Z.div_mul.
Qed.

Lemma ch_create_steps C m a b :
  policy m = Some a → is_free m a = true →
  policy (set_tables <[a := Table 0 NULL]> (count_alloc m)) = Some b →
  is_free (set_tables <[a := Table 0 NULL]> (count_alloc m)) b = true →
  ch_create policy C m =
    (let* _ := create_loop (S (Z.to_nat C)) 0 C a in ret a)
      (Memory (<[a := Table C b]> (m_tables m))
         (<[b := replicate (Z.to_nat ((sizeof_ptr * C) mod ULONG_MOD / sizeof_ptr)) NULL]>
            (m_arrays m))
         (m_props m) (m_keys m) (S (S (m_nalloc m)))).
Proof.
  intros Hp Hf Hp' Hf'. unfold ch_create, malloc_table, malloc_array, bind at 1.
  rewrite (malloc_ok _ _ _ _ Hp Hf). unfold bind at 1.
  rewrite (malloc_ok _ _ _ _ Hp' Hf').
  apply is_free_spec in Hf as (Ha & _). apply is_free_spec in Hf' as (Hb & _).
  mrun. mnorm. by rewrite !insert_insert_eq.
Qed.
End Create.

Section Created.
Context (policy : memory → option Z).
Hypothesis Hpolicy : allocs_succeed policy.

Lemma empty_table_at m t arr (n : nat) :
  m_tables m !! t = Some (Table (Z.of_nat n) arr) →
  m_arrays m !! arr = Some (replicate n NULL) →
  table_at m t arr (replicate n []).
Proof.
  intros Ht Harr.
  assert (concat (replicate n ([] : list node)) = []) as Hcat.
  { clear. induction n as [|n IH]; [done|]. simpl. exact IH. }
  split; rewrite ?Hcat, ?length_replicate; try done; try constructor.
  - by rewrite fmap_replicate.
  - apply Forall_forall. intros l [-> _]%elem_of_replicate. exact I.
  - intros i l x [-> _]%lookup_replicate Hx. by apply elem_of_nil in Hx.
Qed.

Lemma ch_create_table C m t m0 :
  1 <= C → ch_create policy C m = Ok t m0 →
  t ≠ NULL ∧ C <= INT_MAX ∧ ∃ arr, table_at m0 t arr (replicate (Z.to_nat C) []).
Proof.
  intros HC. destruct (Hpolicy m) as (a & Hp & Hf).
  destruct (Hpolicy (set_tables <[a := Table 0 NULL]> (count_alloc m)))
    as (b & Hp' & Hf').
  rewrite (ch_create_steps policy C m a b Hp Hf Hp' Hf').
  unfold bind, ret.
  destruct (create_loop _ _ _ _ _) as [u m'| |] eqn:Hloop; try done.
  intros [= <- <-].
  eapply create_loop_inv in Hloop as (Hmax & Hcells & ->); simpl;
    [|apply lookup_insert_eq|apply lookup_insert_eq|lia|lia].
  apply is_free_spec in Hf as (Ha & _). split_and!; try done.
  exists b. rewrite cells_of_size by lia.
  apply empty_table_at; simpl; rewrite ?lookup_insert_eq, ?Z2Nat.id; (done || lia).
Qed.

Lemma ch_create_succeeds C m :
  0 <= C <= INT_MAX → ∃ t m0, ch_create policy C m = Ok t m0 ∧ t ≠ NULL.
Proof.
  intros HC. destruct (Hpolicy m) as (a & Hp & Hf).
  destruct (Hpolicy (set_tables <[a := Table 0 NULL]> (count_alloc m)))
    as (b & Hp' & Hf').
  rewrite (ch_create_steps policy C m a b Hp Hf Hp' Hf').
  unfold bind, ret. rewrite cells_of_size by done.
  rewrite (create_loop_ok _ 0 C a b (Z.to_nat C)); simpl;
    rewrite ?lookup_insert_eq; try (done || lia).
  apply is_free_spec in Hf as (Ha & _). eauto.
Qed.

(** One insertion of a key that the table does not hold. *)
Lemma put_absent_step m t arr chains k v :
  table_at m t arr chains → chains ≠ [] → absent chains k →
  ∃ a b l,
    chains !! slot_of chains k = Some l ∧
    is_free m a = true ∧ is_free m b = true ∧ a ≠ b ∧
    ch_put policy t k v m =
      Ok v (relink (last l) arr (head_addr <$> chains) (slot_of chains k) a
              (alloc_entry a b k v m)) ∧
    table_at
      (relink (last l) arr (head_addr <$> chains) (slot_of chains k) a
         (alloc_entry a b k v m))
      t arr (<[slot_of chains k := l ++ [Node a b k v]]> chains).
Proof.
  intros Hat Hne Habs.
  destruct (slot_chain chains k Hne) as [l Hl].
  destruct (construct_succeeds policy k v m Hpolicy) as (a & b & Ha & Hb & Hab & Hc).
  exists a, b, l. split_and!; try done.
  - eapply ch_put_absent; eauto using absent_chain.
  - by apply put_absent_preserves.
Qed.

Lemma put_all_spec kvs : ∀ m t arr chains,
  table_at m t arr chains → chains ≠ [] →
  NoDup kvs.*1 → (∀ k, k ∈ kvs.*1 → absent chains k) →
  ∃ mf chainsf,
    put_all policy t kvs m = Ok tt mf ∧ table_at mf t arr chainsf ∧
    length chainsf = length chains ∧
    ∀ x, x ∈ bindings chainsf ↔ x ∈ kvs ∨ x ∈ bindings chains.
Proof.
  induction kvs as [|[k v] kvs IH]; intros m t arr chains Hat Hne Hnd Habs.
  { exists m, chains. split_and!; try done. set_solver. }
  apply NoDup_cons in Hnd as [Hk Hnd]. cbn [put_all].
  destruct (put_absent_step m t arr chains k v Hat Hne) as
    (a & b & l & Hl & Ha & Hb & Hab & Hput & Hat'); [apply Habs; left|].
  set (chains' := <[slot_of chains k := l ++ [Node a b k v]]> chains) in *.
  assert (∀ x, x ∈ bindings chains' ↔ x = (k, v) ∨ x ∈ bindings chains) as Hb'.
  { intros [k' v']. rewrite !elem_of_bindings. unfold chains'. split.
    - intros (n & Hn & <- & <-).
      apply (elem_of_insert_snoc chains _ l) in Hn as [->|Hn]; [by left| |done].
      right; eauto.
    - intros [[= -> ->]|(n & Hn & <- & <-)].
      + exists (Node a b k v). split; [|done].
        apply (elem_of_insert_snoc chains _ l); [done|by left].
      + exists n. split; [|done].
        apply (elem_of_insert_snoc chains _ l); [done|by right]. }
  destruct (IH _ t arr chains' Hat') as (mf & chainsf & Hrun & Hatf & Hlen & Hbf).
  - intros Heq. apply Hne. apply (f_equal length) in Heq.
    unfold chains' in Heq. rewrite length_insert in Heq. by destruct chains.
  - done.
  - intros k' Hk'. apply absent_bindings. intros Hin.
    apply list_elem_of_fmap in Hin as ([k'' v''] & -> & Hin). simpl in *.
    apply Hb' in Hin as [[= -> ->]|Hin]; [done|].
    assert (absent chains k'') as Hx by (apply Habs; by right).
    apply absent_bindings in Hx. apply Hx. apply list_elem_of_fmap.
    by exists (k'', v'').
  - exists mf, chainsf. unfold bind. rewrite Hput. split_and!; try done.
    + rewrite Hlen. apply length_insert.
    + intros x. rewrite Hbf, Hb'. set_solver.
Qed.

End Created.

(** ** Claims on a well-formed table, one operation at a time *)

Lemma slot_of_insert (chains : list (list node)) i l k :
  slot_of (<[i := l]> chains) k = slot_of chains k.
Proof. unfold slot_of. by rewrite length_insert. Qed.

Lemma insert_nonempty (chains : list (list node)) i l :
  chains ≠ [] → <[i := l]> chains ≠ [].
Proof.
  intros Hne Heq. apply Hne. apply (f_equal length) in Heq.
  rewrite length_insert in Heq. by destruct chains.
Qed.

Lemma absent_after_delete m t arr chains n l1 l2 :
  table_at m t arr chains →
  chains !! slot_of chains (n_key n) = Some (l1 ++ n :: l2) →
  absent (<[slot_of chains (n_key n) := l1 ++ l2]> chains) (n_key n).
Proof.
  intros Hat Hl. pose proof Hl as (c1 & c2 & Heq & _ & ->)%chains_split.
  rewrite Heq in Hat.
  by destruct (node_isolated n_key _ _ _ _ _ (at_keys _ _ _ _ Hat)) as [_ Hiso].
Qed.

(** ** Lookup *)

Lemma get_present m t arr chains n :
  table_at m t arr chains → chains ≠ [] → n ∈ concat chains →
  ch_get t (n_key n) m = Ok (n_value n) m.
Proof.
  intros Hat Hne Hn. rewrite (ch_get_spec m t arr chains _ Hat Hne).
  by rewrite (table_find_present _ _ _ _ _ Hat Hn).
Qed.

Lemma get_absent m t arr chains k :
  table_at m t arr chains → chains ≠ [] → absent chains k →
  ch_get t k m = Ok NULL m.
Proof.
  intros Hat Hne Hk. rewrite (ch_get_spec m t arr chains _ Hat Hne).
  by rewrite table_find_absent.
Qed.

(** ** Removal *)

Lemma delete_present m t arr chains n :
  table_at m t arr chains → chains ≠ [] → n ∈ concat chains →
  ∃ l1 l2,
    chains !! slot_of chains (n_key n) = Some (l1 ++ n :: l2) ∧
    let m' := free_entry n
                (relink (last l1) arr (head_addr <$> chains)
                   (slot_of chains (n_key n)) (head_addr l2) m) in
    ch_delete t (n_key n) m = Ok (n_value n) m' ∧
    table_at m' t arr (<[slot_of chains (n_key n) := l1 ++ l2]> chains) ∧
    ch_get t (n_key n) m' = Ok NULL m'.
Proof.
  intros Hat Hne Hn.
  destruct (present_split _ _ _ _ _ Hat Hn) as (l1 & l2 & Hl & H1 & H2).
  exists l1, l2. split; [done|]. cbn zeta.
  pose proof (delete_preserves _ _ _ _ _ _ _ _ Hat Hl) as Hat'.
  split_and!; [|done|].
  - by apply (ch_delete_present m t arr chains _ Hat Hne l1 n l2).
  - eapply get_absent; [exact Hat'|by apply insert_nonempty|].
    by eapply absent_after_delete.
Qed.

(** ** Update of a key that is present *)

Lemma put_present policy m t arr chains n v :
  table_at m t arr chains → chains ≠ [] → n ∈ concat chains →
  ∃ l1 l2,
    chains !! slot_of chains (n_key n) = Some (l1 ++ n :: l2) ∧
    let m' := set_props
                (alter (λ e, Property (p_key e) v (p_next e)) (n_addr n)) m in
    ch_put policy t (n_key n) v m = Ok v m' ∧
    table_at m' t arr
      (<[slot_of chains (n_key n) := l1 ++ with_value n v :: l2]> chains).
Proof.
  intros Hat Hne Hn.
  destruct (present_split _ _ _ _ _ Hat Hn) as (l1 & l2 & Hl & H1 & H2).
  exists l1, l2. split; [done|]. cbn zeta.
  assert (set_props (alter (λ e, Property (p_key e) v (p_next e)) (n_addr n)) m
          = set_value n (head_addr l2) v m) as ->.
  { unfold set_value, set_props. f_equal.
    pose proof (chain_at_ok _ _ _ _ Hat _ _ Hl) as Hok.
    apply seg_ok_app in Hok as [_ (_ & _ & Hps & _)].
    rewrite <- (insert_id (m_props m) _ _ Hps) at 1.
    by rewrite alter_insert_eq. }
  split; [|by apply put_present_preserves].
  by apply (ch_put_present m t arr chains _ Hat Hne policy l1 n l2 v).
Qed.

(** ** Insertion followed by removal *)

Lemma put_then_delete policy m t arr chains k v :
  allocs_succeed policy →
  table_at m t arr chains → chains ≠ [] → absent chains k →
  ∃ m1 m2,
    ch_put policy t k v m = Ok v m1 ∧ ch_delete t k m1 = Ok v m2 ∧
    m_tables m2 = m_tables m ∧ m_arrays m2 = m_arrays m ∧
    m_props m2 = m_props m ∧ m_keys m2 = m_keys m.
Proof.
  intros Hpol Hat Hne Habs.
  destruct (put_absent_step policy Hpol m t arr chains k v Hat Hne Habs)
    as (a & b & l & Hl & Ha & Hb & Hab & Hput & Hat').
  set (i := slot_of chains k) in *. set (new := Node a b k v).
  set (chains' := <[i := l ++ [new]]> chains) in *.
  assert (chains' !! slot_of chains' k = Some (l ++ new :: [])) as Hl'.
  { unfold chains'. rewrite slot_of_insert. fold i.
    apply list_lookup_insert_eq. by eapply lookup_lt_Some. }
  pose proof (ch_delete_present _ t arr chains' k Hat'
                (insert_nonempty _ _ _ Hne) l new [] Hl' eq_refl
                (absent_chain _ _ _ Habs Hl)) as Hdel.
  eexists _, _. split; [exact Hput|]. split; [exact Hdel|].
  apply is_free_spec in Ha as (Hna & _ & _ & Hpa & _).
  apply is_free_spec in Hb as (Hnb & _ & _ & _ & Hkb).
  pose proof (chain_at_ok _ _ _ _ Hat _ _ Hl) as Hok.
  unfold chains'. rewrite slot_of_insert. fold i.
  destruct (last l) as [pv|] eqn:Hlast; cbn.
  - destruct (seg_ok_last _ _ _ _ _ Hok Hlast) as [Hpv Hpvs].
    assert (a ≠ n_addr pv) by congruence.
    split_and!; try done.
    + rewrite insert_insert_eq, delete_insert_ne by done.
      rewrite delete_insert_id by done. by apply insert_id.
    + by apply delete_insert_id.
  - apply last_None in Hlast as ->.
    split_and!; try done.
    + rewrite insert_insert_eq, list_fmap_insert, list_insert_insert_eq.
      rewrite (list_insert_id _ i NULL) by (by rewrite list_lookup_fmap, Hl).
      apply insert_id, (at_array _ _ _ _ Hat).
    + by apply delete_insert_id.
    + by apply delete_insert_id.
Qed.

(** ** A failed allocation *)

Lemma construct_key_fails policy k v m a :
  policy m = Some a → is_free m a = true →
  policy (set_props <[a := Property NULL NULL NULL]> (count_alloc m)) = None →
  _construct policy k v m = Ok NULL (count_alloc (count_alloc m)).
Proof.
  intros Hp Hf Hp'. unfold _construct, malloc_prop, malloc_key, bind at 1.
  rewrite (malloc_ok _ _ _ _ Hp Hf). unfold bind at 1, malloc at 1. rewrite Hp'.
  apply is_free_spec in Hf as (Ha & _ & _ & Hpa & _).
  mrun. unfold _clear, free_prop. mrun.
  mnorm. rewrite !insert_insert_eq, delete_insert_id by done. by destruct m.
Qed.

Lemma create_array_fails policy C m a :
  policy m = Some a → is_free m a = true →
  policy (set_tables <[a := Table 0 NULL]> (count_alloc m)) = None →
  ch_create policy C m = Ok NULL (count_alloc (count_alloc m)).
Proof.
  intros Hp Hf Hp'. unfold ch_create, malloc_table, malloc_array, bind at 1.
  rewrite (malloc_ok _ _ _ _ Hp Hf). unfold bind at 1, malloc at 1. rewrite Hp'.
  apply is_free_spec in Hf as (Ha & Hta & _).
  mrun. unfold ch_destroy, free_table.
  change (0 <? sizeof_ptr / sizeof_t_property) with false. mrun.
  mnorm. rewrite !insert_insert_eq, delete_insert_id by done. by destruct m.
Qed.

Lemma put_key_fails policy m t arr chains k v a :
  table_at m t arr chains → chains ≠ [] → absent chains k →
  policy m = Some a → is_free m a = true →
  policy (set_props <[a := Property NULL NULL NULL]> (count_alloc m)) = None →
  ch_put policy t k v m = Ok v (count_alloc (count_alloc m)).
Proof.
  intros Hat Hne Habs Hp Hf Hp'.
  pose proof (construct_key_fails policy k v m a Hp Hf Hp') as Hcons.
  destruct (slot_chain chains k Hne) as [l Hl].
  pose proof (absent_chain _ _ _ Habs Hl) as Hk.
  pose proof (chain_at_ok _ _ _ _ Hat _ _ Hl) as Hok.
  assert (length l < S (size (m_props m)))%nat as Hfuel
    by (eapply fuel_enough; eauto).
  unfold ch_put. enter_slot Hat Hne Hl.
  destruct (last l) as [pv|] eqn:Hlast.
  - destruct (seg_ok_last _ _ _ _ _ Hok Hlast) as [Hpv Hpvs].
    assert ((head_addr l =? NULL) = false) as ->.
    { apply NULL_eqb. eapply seg_ok_head; [done|]. by intros ->. }
    replace (head_addr l) with (link (l ++ []) NULL) by by rewrite app_nil_r.
    rewrite (put_loop_skip _ k policy l [] NULL); [|by rewrite app_nil_r|done|lia].
    rewrite Hlast. cbn [from_option link].
    destruct (S (size (m_props m)) - length l)%nat; cbn [put_loop];
      change (NULL =? NULL) with true; cbn iota;
      unfold bind at 1; rewrite Hcons; mrun; mnorm;
      rewrite (insert_id _ _ _ Hpvs); done.
  - apply last_None in Hlast as ->. change (head_addr [] =? NULL) with true.
    cbn beta iota. rewrite Hcons. unfold store_slot. msimpl.
    rewrite (at_array _ _ _ _ Hat), slot_nonneg, slot_in_bounds by done.
    cbn [orb]. mnorm. f_equal. f_equal.
    rewrite list_insert_id by (by apply (slot_lookup chains k [])).
    apply insert_id, (at_array _ _ _ _ Hat).
Qed.

(** * Allocators and concrete tables *)

Lemma fresh_policy_succeeds : allocs_succeed fresh_policy.
Proof.
  intros m. eexists. split; [reflexivity|]. apply is_free_spec.
  match goal with |- context [fresh ?X] => pose proof (is_fresh X) as Hfresh end.
  rewrite !elem_of_union, elem_of_singleton, !elem_of_dom in Hfresh.
  split_and!; try apply eq_None_not_Some; tauto.
Qed.

Ltac solve_table_at :=
  split;
  [ reflexivity | reflexivity
  | repeat constructor; vm_compute; congruence
  | vm_compute; repeat constructor; set_solver
  | vm_compute; repeat constructor; set_solver
  | vm_compute; repeat constructor; set_solver
  | intros [|[|[|i]]] l n Hl Hn; try discriminate Hl; injection Hl as <-;
    repeat (apply elem_of_cons in Hn as [->|Hn]); try (by apply elem_of_nil in Hn);
    vm_compute; reflexivity ].

Ltac solve_absent :=
  let x := fresh "x" in let Hx := fresh "Hx" in
  intros x Hx; simpl in Hx;
  repeat (apply elem_of_cons in Hx as [->|Hx]);
  try (by apply elem_of_nil in Hx); discriminate.

Lemma empty_one_created : ch_create fresh_policy 1 empty_memory = Ok 1 empty_one.
Proof. vm_compute. reflexivity. Qed.

Lemma build_ab_runs : build_ab empty_memory = Ok 1 chain_ab.
Proof. vm_compute. reflexivity. Qed.

Lemma chain_ab_table : table_at chain_ab 1 2 chains_ab.
Proof. solve_table_at. Qed.

Lemma build_null_runs : build_null empty_memory = Ok 1 chain_null.
Proof. vm_compute. reflexivity. Qed.

Lemma build_cleared_runs : build_cleared empty_memory = Ok 1 cleared_a.
Proof. vm_compute. reflexivity. Qed.

(** * The operations on a well-formed table, in summary

    Each of [ch_put], [ch_get] and [ch_delete] returns, and leaves a
    well-formed table with as many slots as before. *)

Lemma table_find_None m t arr chains k :
  table_at m t arr chains → table_find chains k = None → absent chains k.
Proof.
  intros Hat Hnone x Hx Hk.
  rewrite <- Hk, (table_find_present _ _ _ _ _ Hat Hx) in Hnone. done.
Qed.

Lemma operations_preserve_table policy m t arr chains k v :
  allocs_succeed policy → table_at m t arr chains → chains ≠ [] →
  (∃ m' chains', ch_put policy t k v m = Ok v m' ∧
                 table_at m' t arr chains' ∧ length chains' = length chains) ∧
  (∃ r, ch_get t k m = Ok r m) ∧
  (∃ r m' chains', ch_delete t k m = Ok r m' ∧
                   table_at m' t arr chains' ∧ length chains' = length chains).
Proof.
  intros Hpol Hat Hne. split_and!.
  - destruct (table_find chains k) as [n|] eqn:Hfind.
    + apply table_find_elem in Hfind as [Hn <-].
      destruct (put_present policy m t arr chains n v Hat Hne Hn)
        as (l1 & l2 & _ & Hput & Hat').
      eexists _, _. split_and!; [exact Hput|exact Hat'|apply length_insert].
    + eapply table_find_None in Hfind; [|done].
      destruct (put_absent_step policy Hpol m t arr chains k v Hat Hne Hfind)
        as (a & b & l & _ & _ & _ & _ & Hput & Hat').
      eexists _, _. split_and!; [exact Hput|exact Hat'|apply length_insert].
  - eexists. by apply (ch_get_spec m t arr chains k).
  - destruct (table_find chains k) as [n|] eqn:Hfind.
    + apply table_find_elem in Hfind as [Hn <-].
      destruct (delete_present m t arr chains n Hat Hne Hn)
        as (l1 & l2 & _ & Hdel & Hat' & _).
      eexists _, _, _. split_and!; [exact Hdel|exact Hat'|apply length_insert].
    + exists NULL, m, chains. split_and!; try done.
      by apply (ch_delete_absent m t arr chains k).
Qed.

(** * C1: insertion, then lookup *)

(** C1. For a table created with capacity [C >= 1] and any sequence of
    insertions with pairwise distinct keys, every allocation succeeding,
    [ch_get] afterwards returns for each inserted key the value that was put
    for it, whatever the collisions (capacity 1 included). *)
Theorem put_then_get policy C m t m0 (kvs : list (string * Z)) :
  allocs_succeed policy → 1 <= C →
  ch_create policy C m = Ok t m0 →
  NoDup kvs.*1 →
  ∃ mf, put_all policy t kvs m0 = Ok tt mf ∧
        ∀ k v, (k, v) ∈ kvs → ch_get t k mf = Ok v mf.
Proof.
  intros Hpol HC Hcreate Hnd.
  destruct (ch_create_table policy Hpol C m t m0 HC Hcreate) as (_ & _ & arr & Hat).
  assert (replicate (Z.to_nat C) ([] : list node) ≠ []) as Hne.
  { destruct (Z.to_nat C) eqn:E; [lia|done]. }
  destruct (put_all_spec policy Hpol kvs m0 t arr _ Hat Hne Hnd)
    as (mf & chainsf & Hrun & Hatf & Hlen & Hb).
  { intros k _ x Hx. exfalso. clear -Hx.
    induction (Z.to_nat C) as [|n IH]; simpl in Hx; [by apply elem_of_nil in Hx|auto]. }
  exists mf. split; [done|]. intros k v Hkv.
  assert ((k, v) ∈ bindings chainsf) as (n & Hn & <- & <-)%elem_of_bindings
    by (apply Hb; by left).
  eapply get_present; [exact Hatf| |done].
  intros ->. rewrite length_replicate in Hlen. simpl in Hlen. lia.
Qed.

Lemma put_then_get_witness :
  allocs_succeed fresh_policy ∧ 1 <= 1 ∧
  ch_create fresh_policy 1 empty_memory = Ok 1 empty_one ∧
  NoDup [("value 1", 7); ("value 2", 1370); ("value 3", 193)].*1 ∧
  ∃ mf, put_all fresh_policy 1 [("value 1", 7); ("value 2", 1370); ("value 3", 193)]
          empty_one = Ok tt mf ∧
        ∀ k v, (k, v) ∈ [("value 1", 7); ("value 2", 1370); ("value 3", 193)] →
               ch_get 1 k mf = Ok v mf.
Proof.
  assert (NoDup [("value 1", 7); ("value 2", 1370); ("value 3", 193)].*1) as Hnd
    by (vm_compute; repeat constructor; set_solver).
  split; [exact fresh_policy_succeeds|]. split; [lia|].
  split; [exact empty_one_created|]. split; [exact Hnd|].
  exact (put_then_get fresh_policy 1 empty_memory 1 empty_one _
           fresh_policy_succeeds ltac:(lia) empty_one_created Hnd).
Defined.

(** * C2, C3: [ch_clear] and [ch_destroy] *)

(** C2 at the table of capacity 1 that holds "a" and "b" in one chain:
    [ch_clear] releases the head entry and its key buffer only; the slot
    keeps the address of the released entry, the entry of "b" stays
    allocated, and [ch_get] and [ch_put] on the table fault afterwards. *)
Theorem clear_leaves_dangling_slot :
  build_ab empty_memory = Ok 1 chain_ab ∧
  ch_clear 1 chain_ab = Ok tt cleared_ab ∧
  m_arrays cleared_ab !! 2 = Some [3] ∧
  m_props cleared_ab !! 3 = None ∧
  m_props cleared_ab !! 5 = Some (Property 6 9 NULL) ∧
  ch_get 1 "a" cleared_ab = Fault ∧
  ch_get 1 "b" cleared_ab = Fault ∧
  ch_put fresh_policy 1 "c" 11 cleared_ab = Fault.
Proof. split; [exact build_ab_runs|]. split_and!; vm_compute; reflexivity. Qed.

(** [ch_destroy] never enters [ch_clear]: the guard compares the size of a
    pointer with the size of an entry. *)
Lemma destroy_guard : (0 <? sizeof_ptr / sizeof_t_property) = false.
Proof. reflexivity. Qed.

Lemma destroy_keeps_entries t m m' :
  ch_destroy t m = Ok tt m' → m_props m' = m_props m ∧ m_keys m' = m_keys m.
Proof.
  unfold ch_destroy. rewrite destroy_guard.
  unfold bind, ret, load_p_entries, load_table, free_array, free_table,
    store_p_entries, store_table.
  intros Hrun. repeat case_match; simplify_eq; done.
Qed.

(** C3 at the same table: [ch_destroy] releases the slot array and the
    table header and leaves both entries and both key buffers allocated,
    where [ch_clear] releases the entry of "a" and its key buffer. *)
Theorem destroy_skips_clear :
  ch_destroy 1 chain_ab = Ok tt destroyed_ab ∧
  m_props destroyed_ab = m_props chain_ab ∧
  m_keys destroyed_ab = m_keys chain_ab ∧
  ch_clear 1 chain_ab = Ok tt cleared_ab ∧
  m_props cleared_ab !! 3 = None ∧
  m_keys cleared_ab !! 4 = None.
Proof. split_and!; vm_compute; reflexivity. Qed.

(** * C4: update of a key that is present *)

(** C4, as the code has it.  On a well-formed table that holds [k],
    [ch_put] overwrites the [p_value] field of the matching entry in place
    (no allocation, every other field and block untouched) and returns the
    new value reference; the reference stored before is neither returned nor
    released. *)
Theorem put_existing_overwrites policy m t arr chains n v_new :
  table_at m t arr chains → chains ≠ [] → n ∈ concat chains →
  let m' := set_props
              (alter (λ e, Property (p_key e) v_new (p_next e)) (n_addr n)) m in
  ch_put policy t (n_key n) v_new m = Ok v_new m' ∧
  ch_get t (n_key n) m' = Ok v_new m'.
Proof.
  intros Hat Hne Hn.
  destruct (put_present policy m t arr chains n v_new Hat Hne Hn)
    as (l1 & l2 & Hl & Hput & Hat').
  cbn zeta in *. split; [done|].
  apply (get_present _ t arr _ (with_value n v_new) Hat').
  - by apply insert_nonempty.
  - apply (elem_of_chain _ (slot_of chains (n_key n)) (l1 ++ with_value n v_new :: l2)).
    + apply list_lookup_insert_eq. by eapply lookup_lt_Some.
    + apply elem_of_app. right. left.
Qed.

Lemma put_existing_overwrites_witness :
  table_at chain_ab 1 2 chains_ab ∧ chains_ab ≠ [] ∧
  Node 3 4 "a" 7 ∈ concat chains_ab ∧
  ch_put fresh_policy 1 "a" 11 chain_ab =
    Ok 11 (Memory {[1 := Table 1 2]} {[2 := [3]]}
             {[3 := Property 4 11 5; 5 := Property 6 9 NULL]}
             {[4 := "a"; 6 := "b"]} 6).
Proof.
  split; [exact chain_ab_table|]. split; [discriminate|]. split; [left|].
  destruct (put_existing_overwrites fresh_policy chain_ab 1 2 chains_ab
              (Node 3 4 "a" 7) 11 chain_ab_table ltac:(discriminate) ltac:(left))
    as [Hput _].
  etrans; [exact Hput|]. vm_compute. reflexivity.
Defined.

(** The value handed back by an update is the new one, not the one stored
    before: C4 as it is worded fails on the table that holds "a" and "b". *)
Lemma put_existing_returns_new_value :
  table_at chain_ab 1 2 chains_ab ∧
  ch_get 1 "a" chain_ab = Ok 7 chain_ab ∧
  returned (ch_put fresh_policy 1 "a" 11 chain_ab) = Some 11 ∧
  returned (ch_put fresh_policy 1 "a" 11 chain_ab) ≠ Some 7.
Proof.
  split; [exact chain_ab_table|]. split; [vm_compute; reflexivity|].
  split; vm_compute; [reflexivity|discriminate].
Qed.

(** * C5: a failed allocation *)

(** C5, as the code has it.  When the first allocation of an operation
    succeeds and the second fails: [ch_create] releases the table block and
    returns [NULL]; [ch_put] of a key that is absent releases the entry
    block, stores nothing and returns the value reference it was given, as it
    does after an insertion.  In both cases the heap is as before the call,
    two calls of [malloc] apart. *)
Theorem second_allocation_failure policy m a :
  policy m = Some a → is_free m a = true →
  (∀ C, policy (set_tables <[a := Table 0 NULL]> (count_alloc m)) = None →
        ch_create policy C m = Ok NULL (count_alloc (count_alloc m))) ∧
  (∀ t arr chains k v,
     policy (set_props <[a := Property NULL NULL NULL]> (count_alloc m)) = None →
     table_at m t arr chains → chains ≠ [] → absent chains k →
     ch_put policy t k v m = Ok v (count_alloc (count_alloc m))).
Proof.
  intros Hp Hf. split.
  - intros C Hp'. by apply (create_array_fails policy C m a).
  - intros t arr chains k v Hp' Hat Hne Habs.
    by apply (put_key_fails policy m t arr chains k v a).
Qed.

Lemma second_allocation_failure_witness :
  ch_create (scripted [Some 1; None]) 4 empty_memory
    = Ok NULL (count_alloc (count_alloc empty_memory)) ∧
  ch_put (scripted [None; None; None; None; None; None; Some 7; None]) 1 "c" 11
    chain_ab = Ok 11 (count_alloc (count_alloc chain_ab)).
Proof.
  split.
  - apply (second_allocation_failure (scripted [Some 1; None]) empty_memory 1);
      reflexivity.
  - apply (second_allocation_failure
             (scripted [None; None; None; None; None; None; Some 7; None])
             chain_ab 7 eq_refl eq_refl) with (arr := 2) (chains := chains_ab).
    + reflexivity.
    + exact chain_ab_table.
    + discriminate.
    + solve_absent.
Defined.

(** An insertion whose key buffer cannot be allocated hands back the value
    reference it was given, as one that succeeds does, and the key is not in
    the table afterwards: C5 as it is worded fails on the empty table of
    capacity 1. *)
Lemma failed_put_not_reported :
  ch_put (scripted [None; None; Some 3; None]) 1 "a" 7 empty_one
    = Ok 7 (count_alloc (count_alloc empty_one)) ∧
  returned (ch_put (scripted [None; None; Some 3; None]) 1 "a" 7 empty_one)
    ≠ Some NULL ∧
  returned (ch_put fresh_policy 1 "a" 7 empty_one) = Some 7 ∧
  ch_get 1 "a" (count_alloc (count_alloc empty_one))
    = Ok NULL (count_alloc (count_alloc empty_one)).
Proof. split_and!; vm_compute; (reflexivity || discriminate). Qed.

(** When it is the first allocation that fails, both operations store
    through the null pointer before they test it. *)
Lemma first_allocation_failure_faults :
  ch_create (scripted [None; Some 1]) 4 empty_memory = Fault ∧
  ch_put (scripted [None; None; None; Some 3]) 1 "a" 7 empty_one = Fault.
Proof. split; vm_compute; reflexivity. Qed.

(** [ch_create] has no test of its own for a capacity of zero: when
    [malloc] serves the empty slot array the caller gets a table, on which
    every operation that hashes a key divides by zero. *)
Lemma create_zero_capacity :
  ch_create fresh_policy 0 empty_memory
    = Ok 1 (Memory {[1 := Table 0 2]} {[2 := []]} ∅ ∅ 2) ∧
  ch_put fresh_policy 1 "a" 7 (Memory {[1 := Table 0 2]} {[2 := []]} ∅ ∅ 2)
    = Fault.
Proof. split; vm_compute; reflexivity. Qed.

(** * C6: removal *)

(** C6. On a well-formed table, [ch_delete] of a key that is present unlinks
    exactly the matched entry (the slot head is rewritten when the match is
    the head of its chain, the [p_next] field of the entry before it
    otherwise), releases it with its key buffer, returns the value reference
    stored under the key, and [ch_get] of that key then returns [NULL];
    [ch_delete] of a key that is absent returns [NULL] and leaves the memory
    as it was. *)
Theorem delete_correct m t arr chains k :
  table_at m t arr chains → chains ≠ [] →
  (∀ n, n ∈ concat chains → n_key n = k →
     ∃ l1 l2,
       chains !! slot_of chains k = Some (l1 ++ n :: l2) ∧
       let m' := free_entry n
                   (relink (last l1) arr (head_addr <$> chains)
                      (slot_of chains k) (head_addr l2) m) in
       ch_delete t k m = Ok (n_value n) m' ∧
       table_at m' t arr (<[slot_of chains k := l1 ++ l2]> chains) ∧
       ch_get t k m' = Ok NULL m') ∧
  (absent chains k → ch_delete t k m = Ok NULL m).
Proof.
  intros Hat Hne. split.
  - intros n Hn <-. by apply delete_present.
  - intros Habs. apply (ch_delete_absent m t arr chains k Hat Hne).
    by apply table_find_absent.
Qed.

Lemma delete_correct_witness :
  table_at chain_ab 1 2 chains_ab ∧ chains_ab ≠ [] ∧
  returned (ch_delete 1 "b" chain_ab) = Some 9 ∧
  ch_delete 1 "zz" chain_ab = Ok NULL chain_ab.
Proof.
  split; [exact chain_ab_table|]. split; [discriminate|].
  destruct (delete_correct chain_ab 1 2 chains_ab "b" chain_ab_table
              ltac:(discriminate)) as [Hpresent _].
  destruct (delete_correct chain_ab 1 2 chains_ab "zz" chain_ab_table
              ltac:(discriminate)) as [_ Habsent].
  split.
  - destruct (Hpresent (Node 5 6 "b" 9)) as (l1 & l2 & _ & Hdel & _).
    + right. left.
    + reflexivity.
    + rewrite Hdel. reflexivity.
  - apply Habsent. solve_absent.
Defined.

(** * C7: not found, and a stored null *)

(** C7, as the code has it.  [ch_get] and [ch_delete] answer a key that is
    absent with [NULL], and a key that is present with the value reference
    stored under it: the two answers differ exactly when the stored
    reference is not [NULL]. *)
Theorem not_found_is_null m t arr chains n k' :
  table_at m t arr chains → chains ≠ [] →
  n ∈ concat chains → absent chains k' →
  returned (ch_get t (n_key n) m) = Some (n_value n) ∧
  returned (ch_get t k' m) = Some NULL ∧
  returned (ch_delete t (n_key n) m) = Some (n_value n) ∧
  returned (ch_delete t k' m) = Some NULL ∧
  (returned (ch_get t (n_key n) m) ≠ returned (ch_get t k' m) ↔ n_value n ≠ NULL) ∧
  (returned (ch_delete t (n_key n) m) ≠ returned (ch_delete t k' m)
   ↔ n_value n ≠ NULL).
Proof.
  intros Hat Hne Hn Habs.
  rewrite (get_present m t arr chains n Hat Hne Hn).
  rewrite (get_absent m t arr chains k' Hat Hne Habs).
  destruct (delete_present m t arr chains n Hat Hne Hn) as (l1 & l2 & _ & -> & _).
  rewrite (ch_delete_absent m t arr chains k' Hat Hne (table_find_absent _ _ Habs)).
  simpl. split_and!; try done; split; congruence.
Qed.

Lemma not_found_is_null_witness :
  table_at chain_ab 1 2 chains_ab ∧ chains_ab ≠ [] ∧
  Node 3 4 "a" 7 ∈ concat chains_ab ∧ absent chains_ab "zz" ∧
  returned (ch_get 1 "a" chain_ab) ≠ returned (ch_get 1 "zz" chain_ab).
Proof.
  split; [exact chain_ab_table|]. split; [discriminate|]. split; [left|].
  split; [solve_absent|].
  destruct (not_found_is_null chain_ab 1 2 chains_ab (Node 3 4 "a" 7) "zz"
              chain_ab_table ltac:(discriminate) ltac:(left) ltac:(solve_absent))
    as (_ & _ & _ & _ & Hget & _).
  apply Hget. discriminate.
Defined.

(** A key stored with [NULL] and a key that is not there get the same answer
    from [ch_get] and from [ch_delete]: C7 as it is worded fails. *)
Lemma stored_null_looks_absent :
  build_null empty_memory = Ok 1 chain_null ∧
  table_at chain_null 1 2 [[Node 3 4 "a" NULL]] ∧
  absent [[Node 3 4 "a" NULL]] "b" ∧
  returned (ch_get 1 "a" chain_null) = returned (ch_get 1 "b" chain_null) ∧
  returned (ch_delete 1 "a" chain_null) = returned (ch_delete 1 "b" chain_null).
Proof.
  split; [exact build_null_runs|].
  split; [solve_table_at|]. split; [solve_absent|].
  split; vm_compute; reflexivity.
Qed.

(** * C8: the hash *)

Lemma hash_loop_ascii s : ∀ v,
  Forall (λ c, uchar_val c < 128) (list_ascii_of_string s) →
  hash_loop (String.length s) s v =
  fold_left (λ acc c, (acc * 33 + uchar_val c) mod ULONG_MOD)
    (list_ascii_of_string s) v.
Proof.
  induction s as [|c s IH]; intros v; simpl; [done|].
  intros [Hc Hs]%Forall_cons. rewrite IH by done.
  unfold char_val. by destruct (Z.ltb_spec (uchar_val c) 128); [|lia].
Qed.

(** On keys shorter than 65536 bytes, all of them ASCII, the code computes
    the hash of the specification. *)
Lemma hash_short_ascii key :
  strlen key < USHRT_MOD →
  Forall (λ c, uchar_val c < 128) (list_ascii_of_string key) →
  _hash key = hash_spec key.
Proof.
  intros Hlen Hascii. unfold _hash, hash_spec, strlen in *.
  rewrite Z.mod_small by lia. rewrite Nat2Z.id. by apply hash_loop_ascii.
Qed.

Lemma hash_empty : _hash "" = 0.
Proof. reflexivity. Qed.

(** C8 at a key of 65536 bytes: the length is reduced to 0 when it is stored
    in the [unsigned short], no byte is read and the result is the hash of
    the empty string, where folding every byte gives another value; with one
    more byte in front only that byte is hashed. *)
Theorem hash_ignores_long_keys :
  strlen long_key = 65536 ∧
  _hash long_key = 0 ∧
  hash_spec long_key = 10780789021724442624 ∧
  _hash (String "b" long_key) = 98 ∧
  hash_spec (String "b" long_key) ≠ 98.
Proof. split_and!; vm_compute; (reflexivity || discriminate). Qed.

(** * C9: the invariants *)

(** C9 at a table of capacity 2: after [ch_put] of "a", [ch_clear] and
    [ch_put] of "b", with an allocator that hands the released blocks out
    again, both slots hold the address of the one entry, whose key "b"
    belongs to slot 0: an entry reachable from slot 1 does not hash to 1. *)
Theorem clear_then_put_breaks_slots :
  build_cleared empty_memory = Ok 1 cleared_a ∧
  reachable_keys 2 cleared_a 3 = [] ∧
  ch_put reuse_policy 1 "b" 9 cleared_a = Ok 9 shared_entry ∧
  m_arrays shared_entry !! 2 = Some [3; 3] ∧
  reachable_keys 2 shared_entry 3 = ["b"] ∧
  slot_index "b" 2 = 0 ∧
  slot_index "a" 2 = 1 ∧
  ch_get 1 "a" shared_entry = Ok NULL shared_entry.
Proof. split; [exact build_cleared_runs|]. split_and!; vm_compute; reflexivity. Qed.

(** * C10: insertion, then removal *)

(** C10. On a well-formed table that does not hold [k], [ch_put] of [k] and
    [v] (its two allocations succeeding) followed by [ch_delete] of [k]
    returns [v] from the removal and leaves every table header, slot array,
    entry and key buffer exactly as before the insertion. *)
Theorem put_delete_roundtrip policy m t arr chains k v :
  allocs_succeed policy →
  table_at m t arr chains → chains ≠ [] → absent chains k →
  ∃ m1 m2,
    ch_put policy t k v m = Ok v m1 ∧ ch_delete t k m1 = Ok v m2 ∧
    m_tables m2 = m_tables m ∧ m_arrays m2 = m_arrays m ∧
    m_props m2 = m_props m ∧ m_keys m2 = m_keys m ∧
    table_at m2 t arr chains.
Proof.
  intros Hpol Hat Hne Habs.
  destruct (put_then_delete policy m t arr chains k v Hpol Hat Hne Habs)
    as (m1 & m2 & Hput & Hdel & Ht & Ha & Hp & Hk).
  exists m1, m2. split_and!; try done.
  destruct Hat as [H1 H2 H3 H4 H5 H6 H7].
  split; try done; by rewrite ?Ht, ?Ha, ?Hp, ?Hk.
Qed.

Lemma put_delete_roundtrip_witness :
  allocs_succeed fresh_policy ∧ table_at chain_ab 1 2 chains_ab ∧
  chains_ab ≠ [] ∧ absent chains_ab "c" ∧
  ∃ m1 m2,
    ch_put fresh_policy 1 "c" 11 chain_ab = Ok 11 m1 ∧
    ch_delete 1 "c" m1 = Ok 11 m2 ∧
    m_tables m2 = m_tables chain_ab ∧ m_arrays m2 = m_arrays chain_ab ∧
    m_props m2 = m_props chain_ab ∧ m_keys m2 = m_keys chain_ab ∧
    table_at m2 1 2 chains_ab.
Proof.
  assert (absent chains_ab "c") as Habs by solve_absent.
  split; [exact fresh_policy_succeeds|]. split; [exact chain_ab_table|].
  split; [discriminate|]. split; [exact Habs|].
  exact (put_delete_roundtrip fresh_policy chain_ab 1 2 chains_ab "c" 11
           fresh_policy_succeeds chain_ab_table ltac:(discriminate) Habs).
Defined.

(** * Further properties of the operations *)

(** * Lookup reads only *)

Lemma get_loop_read_only k fuel : ∀ p m r m',
  get_loop fuel p k m = Ok r m' → m' = m.
Proof.
  induction fuel as [|fuel IH]; intros p m r m'; cbn [get_loop];
    unfold bind, ret, diverge, load_p_key, load_p_value, load_p_next,
      load_prop, load_key.
  - intros Hrun. repeat case_match; simplify_eq; done.
  - intros Hrun. repeat case_match; simplify_eq; try done. by eapply IH.
Qed.

(** X1. Whatever the memory holds, a call of [ch_get] that returns leaves it
    exactly as it was. *)
Theorem get_read_only t k m r m' :
  ch_get t k m = Ok r m' → m' = m.
Proof.
  unfold ch_get, bind, ret, fault, load_size, load_p_entries, load_table,
    load_slot, chain_fuel.
  intros Hrun. repeat case_match; simplify_eq; try done.
  by eapply get_loop_read_only.
Qed.

Lemma get_read_only_witness :
  ch_get 1 "a" chain_ab = Ok 7 chain_ab ∧ chain_ab = chain_ab.
Proof.
  assert (ch_get 1 "a" chain_ab = Ok 7 chain_ab) as Hrun by (vm_compute; reflexivity).
  split; [exact Hrun|]. exact (get_read_only 1 "a" chain_ab 7 chain_ab Hrun).
Defined.

(** * The table as a finite map *)

Lemma bindings_keys chains : (bindings chains).*1 = n_key <$> concat chains.
Proof. unfold bindings. by rewrite <- list_fmap_compose. Qed.

Lemma as_map_lookup m t arr chains k v :
  table_at m t arr chains →
  (as_map chains !! k = Some v ↔
   ∃ n, n ∈ concat chains ∧ n_key n = k ∧ n_value n = v).
Proof.
  intros Hat. unfold as_map. rewrite <- elem_of_list_to_map.
  - apply elem_of_bindings.
  - rewrite bindings_keys. apply (at_keys _ _ _ _ Hat).
Qed.

Lemma as_map_find m t arr chains k :
  table_at m t arr chains →
  as_map chains !! k = n_value <$> table_find chains k.
Proof.
  intros Hat. apply option_eq. intros v.
  rewrite (as_map_lookup _ _ _ _ _ _ Hat). split.
  - intros (n & Hn & <- & <-). by rewrite (table_find_present _ _ _ _ _ Hat Hn).
  - destruct (table_find chains k) as [n|] eqn:Hfind; [|done].
    intros [= <-]. apply table_find_elem in Hfind as [? ?]. by exists n.
Qed.

Lemma ch_get_map m t arr chains k :
  table_at m t arr chains → chains ≠ [] →
  ch_get t k m = Ok (default NULL (as_map chains !! k)) m.
Proof.
  intros Hat Hne. rewrite (ch_get_spec m t arr chains k Hat Hne).
  rewrite (as_map_find _ _ _ _ _ Hat). by destruct (table_find chains k).
Qed.

(** X2. On a well-formed table [ch_get] returns the value that the map of
    the table holds for the key, [NULL] when it holds none, and changes
    nothing. *)
Theorem get_refines_lookup m t arr chains k :
  table_at m t arr chains → chains ≠ [] →
  ch_get t k m = Ok (default NULL (as_map chains !! k)) m.
Proof. apply ch_get_map. Qed.

Lemma get_refines_lookup_witness :
  table_at chain_ab 1 2 chains_ab ∧ chains_ab ≠ [] ∧
  ch_get 1 "b" chain_ab = Ok (default NULL (as_map chains_ab !! "b")) chain_ab.
Proof.
  split; [exact chain_ab_table|]. split; [discriminate|].
  exact (get_refines_lookup chain_ab 1 2 chains_ab "b" chain_ab_table
           ltac:(discriminate)).
Defined.

(** Membership in the chains when one node of one chain is put in, taken
    out or exchanged. *)
Lemma elem_of_chain_with (c1 : list (list node)) l1 y l2 c2 x :
  x ∈ concat (c1 ++ (l1 ++ y :: l2) :: c2) ↔
  x = y ∨ x ∈ concat (c1 ++ (l1 ++ l2) :: c2).
Proof. rewrite !concat_middle, !elem_of_app, elem_of_cons. tauto. Qed.

Lemma as_map_with m t arr c1 l1 y l2 c2 :
  table_at m t arr (c1 ++ (l1 ++ y :: l2) :: c2) →
  (∀ k v, as_map (c1 ++ (l1 ++ y :: l2) :: c2) !! k = Some v ↔
          (k = n_key y ∧ v = n_value y) ∨
          (k ≠ n_key y ∧ ∃ x, x ∈ concat (c1 ++ (l1 ++ l2) :: c2) ∧
                               n_key x = k ∧ n_value x = v)).
Proof.
  intros Hat k v. rewrite (as_map_lookup _ _ _ _ _ _ Hat).
  destruct (node_isolated n_key _ _ _ _ _ (at_keys _ _ _ _ Hat)) as [_ Hiso].
  split.
  - intros (x & [->|Hx]%elem_of_chain_with & <- & <-); [by left|].
    right. split; [by apply Hiso|]. by exists x.
  - intros [[-> ->]|(Hk & x & Hx & <- & <-)].
    + exists y. split; [|done]. apply elem_of_chain_with. by left.
    + exists x. split; [|done]. apply elem_of_chain_with. by right.
Qed.

Lemma as_map_put_node m m' t arr chains c1 l1 y l2 c2 :
  table_at m t arr chains →
  table_at m' t arr (c1 ++ (l1 ++ y :: l2) :: c2) →
  (∀ x, x ∈ concat (c1 ++ (l1 ++ l2) :: c2) ↔
        x ∈ concat chains ∧ n_key x ≠ n_key y) →
  as_map (c1 ++ (l1 ++ y :: l2) :: c2) = <[n_key y := n_value y]> (as_map chains).
Proof.
  intros Hat Hat' Hrest. apply map_eq. intros k. apply option_eq. intros v.
  rewrite (as_map_with _ _ _ _ _ _ _ _ Hat'), lookup_insert_Some.
  rewrite (as_map_lookup _ _ _ _ _ _ Hat). split.
  - intros [[-> ->]|(Hk & x & Hx & <- & <-)]; [by left|].
    right. split; [done|]. exists x. split; [|done]. by apply Hrest.
  - intros [[<- <-]|(Hk & x & Hx & <- & <-)]; [by left|].
    right. split; [done|]. exists x. split; [|done]. by apply Hrest.
Qed.

Lemma as_map_delete_node m m' t arr c1 l1 y l2 c2 :
  table_at m t arr (c1 ++ (l1 ++ y :: l2) :: c2) →
  table_at m' t arr (c1 ++ (l1 ++ l2) :: c2) →
  as_map (c1 ++ (l1 ++ l2) :: c2) =
  delete (n_key y) (as_map (c1 ++ (l1 ++ y :: l2) :: c2)).
Proof.
  intros Hat Hat'. apply map_eq. intros k. apply option_eq. intros v.
  rewrite lookup_delete_Some, (as_map_with _ _ _ _ _ _ _ _ Hat).
  rewrite (as_map_lookup _ _ _ _ _ _ Hat').
  destruct (node_isolated n_key _ _ _ _ _ (at_keys _ _ _ _ Hat)) as [_ Hiso].
  split.
  - intros (x & Hx & <- & <-). split; [by apply not_eq_sym, Hiso|].
    right. split; [by apply Hiso|]. by exists x.
  - intros [Hk [[-> _]|(_ & x & Hx & <- & <-)]]; [done|]. by exists x.
Qed.

Lemma ch_put_map policy m t arr chains k v :
  allocs_succeed policy → table_at m t arr chains → chains ≠ [] →
  ∃ m' chains',
    ch_put policy t k v m = Ok v m' ∧
    table_at m' t arr chains' ∧ length chains' = length chains ∧
    as_map chains' = <[k := v]> (as_map chains).
Proof.
  intros Hpol Hat Hne.
  destruct (table_find chains k) as [n|] eqn:Hfind.
  - apply table_find_elem in Hfind as [Hn <-].
    destruct (put_present policy m t arr chains n v Hat Hne Hn)
      as (l1 & l2 & Hl & Hput & Hat').
    cbn zeta in *. eexists _, _. split; [exact Hput|]. split; [exact Hat'|].
    split; [apply length_insert|].
    destruct (chains_split _ _ _ Hl) as (c1 & c2 & Heq & _ & Hins).
    rewrite Hins in Hat' |- *.
    rewrite (as_map_put_node m _ t arr chains c1 l1 (with_value n v) l2 c2 Hat Hat');
      [done|].
    intros x. subst chains. rewrite (elem_of_chain_with c1 l1 n l2 c2). simpl.
    destruct (node_isolated n_key _ _ _ _ _ (at_keys _ _ _ _ Hat)) as [_ Hiso].
    split; [intros Hx; split; [by right|by apply Hiso]|].
    by intros [[->|Hx] Hk].
  - eapply table_find_None in Hfind; [|done].
    destruct (put_absent_step policy Hpol m t arr chains k v Hat Hne Hfind)
      as (a & b & l & Hl & _ & _ & _ & Hput & Hat').
    eexists _, _. split; [exact Hput|]. split; [exact Hat'|].
    split; [apply length_insert|].
    destruct (chains_split _ _ _ Hl) as (c1 & c2 & Heq & _ & Hins).
    rewrite Hins in Hat' |- *.
    rewrite (as_map_put_node m _ t arr chains c1 l (Node a b k v) [] c2 Hat Hat');
      [done|].
    intros x. subst chains. rewrite app_nil_r. simpl.
    split; [intros Hx; split; [done|by apply Hfind]|by intros [Hx _]].
Qed.

(** X3. On a well-formed table, with allocations that succeed, [ch_put]
    returns the value it was given and leaves a well-formed table of the
    same capacity whose map is the old one with the key bound to the new
    value, every other key as before. *)
Theorem put_refines_insert policy m t arr chains k v :
  allocs_succeed policy → table_at m t arr chains → chains ≠ [] →
  ∃ m' chains',
    ch_put policy t k v m = Ok v m' ∧
    table_at m' t arr chains' ∧ length chains' = length chains ∧
    as_map chains' = <[k := v]> (as_map chains).
Proof. apply ch_put_map. Qed.

Lemma put_refines_insert_witness :
  allocs_succeed fresh_policy ∧ table_at chain_ab 1 2 chains_ab ∧
  chains_ab ≠ [] ∧
  ∃ m' chains',
    ch_put fresh_policy 1 "c" 11 chain_ab = Ok 11 m' ∧
    table_at m' 1 2 chains' ∧ length chains' = length chains_ab ∧
    as_map chains' = <["c" := 11]> (as_map chains_ab).
Proof.
  split; [exact fresh_policy_succeeds|]. split; [exact chain_ab_table|].
  split; [discriminate|].
  exact (put_refines_insert fresh_policy chain_ab 1 2 chains_ab "c" 11
           fresh_policy_succeeds chain_ab_table ltac:(discriminate)).
Defined.

(** X4. On a well-formed table [ch_delete] returns the value that the map
    holds for the key, [NULL] when it holds none, and leaves a well-formed
    table of the same capacity whose map is the old one without the key. *)
Theorem delete_refines_delete m t arr chains k :
  table_at m t arr chains → chains ≠ [] →
  ∃ m' chains',
    ch_delete t k m = Ok (default NULL (as_map chains !! k)) m' ∧
    table_at m' t arr chains' ∧ length chains' = length chains ∧
    as_map chains' = delete k (as_map chains).
Proof.
  intros Hat Hne. rewrite (as_map_find _ _ _ _ _ Hat).
  destruct (table_find chains k) as [n|] eqn:Hfind.
  - apply table_find_elem in Hfind as [Hn <-].
    destruct (delete_present m t arr chains n Hat Hne Hn)
      as (l1 & l2 & Hl & Hdel & Hat' & _).
    cbn zeta in *. eexists _, _. split; [exact Hdel|]. split; [exact Hat'|].
    split; [apply length_insert|].
    destruct (chains_split _ _ _ Hl) as (c1 & c2 & Heq & _ & Hins).
    rewrite Hins in Hat' |- *. subst chains.
    exact (as_map_delete_node _ _ t arr c1 l1 n l2 c2 Hat Hat').
  - exists m, chains. split_and!; try done.
    + by apply (ch_delete_absent m t arr chains k).
    + symmetry. apply delete_id.
      rewrite (as_map_find _ _ _ _ _ Hat), Hfind. done.
Qed.

Lemma delete_refines_delete_witness :
  table_at chain_ab 1 2 chains_ab ∧ chains_ab ≠ [] ∧
  ∃ m' chains',
    ch_delete 1 "a" chain_ab = Ok (default NULL (as_map chains_ab !! "a")) m' ∧
    table_at m' 1 2 chains' ∧ length chains' = length chains_ab ∧
    as_map chains' = delete "a" (as_map chains_ab).
Proof.
  split; [exact chain_ab_table|]. split; [discriminate|].
  exact (delete_refines_delete chain_ab 1 2 chains_ab "a" chain_ab_table
           ltac:(discriminate)).
Defined.

(** X5. [ch_put] of a key that the table does not hold appends one entry at
    the tail of the chain of the key, at two addresses that held no block;
    the entries already there keep their place, their address and their
    content, and the other chains are not touched. *)
Theorem put_appends_at_tail policy m t arr chains k v :
  allocs_succeed policy → table_at m t arr chains → chains ≠ [] →
  absent chains k →
  ∃ a b l m',
    chains !! slot_of chains k = Some l ∧
    is_free m a = true ∧ is_free m b = true ∧ a ≠ b ∧
    ch_put policy t k v m = Ok v m' ∧
    table_at m' t arr (<[slot_of chains k := l ++ [Node a b k v]]> chains).
Proof.
  intros Hpol Hat Hne Habs.
  destruct (put_absent_step policy Hpol m t arr chains k v Hat Hne Habs)
    as (a & b & l & Hl & Ha & Hb & Hab & Hput & Hat').
  eexists a, b, l, _. split_and!; eauto.
Qed.

Lemma put_appends_at_tail_witness :
  allocs_succeed fresh_policy ∧ table_at chain_ab 1 2 chains_ab ∧
  chains_ab ≠ [] ∧ absent chains_ab "c" ∧
  ∃ a b l m',
    chains_ab !! slot_of chains_ab "c" = Some l ∧
    is_free chain_ab a = true ∧ is_free chain_ab b = true ∧ a ≠ b ∧
    ch_put fresh_policy 1 "c" 11 chain_ab = Ok 11 m' ∧
    table_at m' 1 2 (<[slot_of chains_ab "c" := l ++ [Node a b "c" 11]]> chains_ab).
Proof.
  assert (absent chains_ab "c") as Habs by solve_absent.
  split; [exact fresh_policy_succeeds|]. split; [exact chain_ab_table|].
  split; [discriminate|]. split; [exact Habs|].
  exact (put_appends_at_tail fresh_policy chain_ab 1 2 chains_ab "c" 11
           fresh_policy_succeeds chain_ab_table ltac:(discriminate) Habs).
Defined.

(** The record that the heap holds for a node of a well-formed table. *)
Lemma node_record m t arr chains n :
  table_at m t arr chains → n ∈ concat chains →
  ∃ next, m_props m !! n_addr n = Some (Property (n_kaddr n) (n_value n) next).
Proof.
  intros Hat Hn.
  destruct (present_split _ _ _ _ _ Hat Hn) as (l1 & l2 & Hl & _ & _).
  pose proof (chain_at_ok _ _ _ _ Hat _ _ Hl) as Hok.
  apply seg_ok_app in Hok as [_ (_ & _ & Hps & _)]. eauto.
Qed.

Lemma put_same_value policy m t arr chains n :
  table_at m t arr chains → chains ≠ [] → n ∈ concat chains →
  ch_put policy t (n_key n) (n_value n) m = Ok (n_value n) m.
Proof.
  intros Hat Hne Hn.
  destruct (put_present policy m t arr chains n (n_value n) Hat Hne Hn)
    as (l1 & l2 & _ & Hput & _).
  cbn zeta in Hput. rewrite Hput. f_equal.
  destruct (node_record _ _ _ _ _ Hat Hn) as [next Hps].
  unfold set_props. rewrite alter_id; [by destruct m|].
  intros e He. rewrite Hps in He. by injection He as <-.
Qed.

(** X6. [ch_put] of the same key and value twice in a row: the second call
    returns the value and changes nothing, no allocation included. *)
Theorem put_twice policy m t arr chains k v :
  allocs_succeed policy → table_at m t arr chains → chains ≠ [] →
  ∃ m1, ch_put policy t k v m = Ok v m1 ∧ ch_put policy t k v m1 = Ok v m1.
Proof.
  intros Hpol Hat Hne.
  destruct (table_find chains k) as [n|] eqn:Hfind.
  - apply table_find_elem in Hfind as [Hn <-].
    destruct (put_present policy m t arr chains n v Hat Hne Hn)
      as (l1 & l2 & Hl & Hput & Hat').
    cbn zeta in *. eexists. split; [exact Hput|].
    apply (put_same_value policy _ t arr _ (with_value n v) Hat').
    + intros Heq. apply Hne. apply (f_equal length) in Heq.
      rewrite length_insert in Heq. by destruct chains.
    + apply (elem_of_chain _ (slot_of chains (n_key n))
               (l1 ++ with_value n v :: l2)).
      * apply list_lookup_insert_eq. by eapply lookup_lt_Some.
      * apply elem_of_app. right. left.
  - eapply table_find_None in Hfind; [|done].
    destruct (put_absent_step policy Hpol m t arr chains k v Hat Hne Hfind)
      as (a & b & l & Hl & _ & _ & _ & Hput & Hat').
    eexists. split; [exact Hput|].
    apply (put_same_value policy _ t arr _ (Node a b k v) Hat').
    + intros Heq. apply Hne. apply (f_equal length) in Heq.
      rewrite length_insert in Heq. by destruct chains.
    + apply (elem_of_insert_snoc chains _ l); [done|by left].
Qed.

Lemma put_twice_witness :
  allocs_succeed fresh_policy ∧ table_at chain_ab 1 2 chains_ab ∧
  chains_ab ≠ [] ∧
  ∃ m1, ch_put fresh_policy 1 "c" 11 chain_ab = Ok 11 m1 ∧
        ch_put fresh_policy 1 "c" 11 m1 = Ok 11 m1.
Proof.
  split; [exact fresh_policy_succeeds|]. split; [exact chain_ab_table|].
  split; [discriminate|].
  exact (put_twice fresh_policy chain_ab 1 2 chains_ab "c" 11
           fresh_policy_succeeds chain_ab_table ltac:(discriminate)).
Defined.

(** X7. [ch_delete] of the same key twice in a row: the second call finds
    nothing, returns [NULL] and changes nothing. *)
Theorem delete_twice m t arr chains k :
  table_at m t arr chains → chains ≠ [] →
  ∃ r m1, ch_delete t k m = Ok r m1 ∧ ch_delete t k m1 = Ok NULL m1.
Proof.
  intros Hat Hne.
  destruct (table_find chains k) as [n|] eqn:Hfind.
  - apply table_find_elem in Hfind as [Hn <-].
    destruct (delete_present m t arr chains n Hat Hne Hn)
      as (l1 & l2 & Hl & Hdel & Hat' & _).
    cbn zeta in *. eexists _, _. split; [exact Hdel|].
    apply (ch_delete_absent _ t arr _ (n_key n) Hat').
    + intros Heq. apply Hne. apply (f_equal length) in Heq.
      rewrite length_insert in Heq. by destruct chains.
    + apply table_find_absent. by eapply absent_after_delete.
  - exists NULL, m. split; by apply (ch_delete_absent m t arr chains k).
Qed.

Lemma delete_twice_witness :
  table_at chain_ab 1 2 chains_ab ∧ chains_ab ≠ [] ∧
  ∃ r m1, ch_delete 1 "b" chain_ab = Ok r m1 ∧ ch_delete 1 "b" m1 = Ok NULL m1.
Proof.
  split; [exact chain_ab_table|]. split; [discriminate|].
  exact (delete_twice chain_ab 1 2 chains_ab "b" chain_ab_table
           ltac:(discriminate)).
Defined.

(** ** [ch_create] *)

Lemma ch_create_memory policy C m :
  allocs_succeed policy → 0 <= C <= INT_MAX →
  ∃ t arr, is_free m t = true ∧ is_free m arr = true ∧ t ≠ arr ∧
           ch_create policy C m = Ok t (created_at t arr C m).
Proof.
  intros Hpol HC. destruct (Hpol m) as (a & Hp & Hf).
  destruct (Hpol (set_tables <[a := Table 0 NULL]> (count_alloc m)))
    as (b & Hp' & Hf').
  exists a, b. split; [done|].
  pose proof Hf' as (Hb & Htb & Hab & Hpb & Hkb)%is_free_spec.
  cbn in Htb, Hab, Hpb, Hkb. apply lookup_insert_None in Htb as [Htb Hne].
  split; [by apply is_free_spec|]. split; [done|].
  rewrite (ch_create_steps policy C m a b Hp Hf Hp' Hf').
  unfold bind, ret, created_at. rewrite cells_of_size by done.
  rewrite (create_loop_ok _ 0 C a b (Z.to_nat C)); cbn [m_tables m_arrays];
    rewrite ?lookup_insert_eq; (done || lia).
Qed.

(** X8. With allocations that succeed and a capacity from 0 to [INT_MAX],
    [ch_create] returns a header at an address that held no block, with a
    slot array at another such address; the heap is the old one with these
    two blocks added, and it holds a well-formed table whose chains are all
    empty. *)
Theorem create_empty_table policy C m :
  allocs_succeed policy → 0 <= C <= INT_MAX →
  ∃ t arr,
    is_free m t = true ∧ is_free m arr = true ∧ t ≠ arr ∧
    ch_create policy C m = Ok t (created_at t arr C m) ∧
    table_at (created_at t arr C m) t arr (replicate (Z.to_nat C) []).
Proof.
  intros Hpol HC.
  destruct (ch_create_memory policy C m Hpol HC) as (t & arr & Ht & Harr & Hne & Hrun).
  exists t, arr. split_and!; try done.
  apply empty_table_at; cbn [created_at m_tables m_arrays];
    rewrite ?lookup_insert_eq, ?Z2Nat.id; (done || lia).
Qed.

Lemma create_empty_table_witness :
  allocs_succeed fresh_policy ∧ 0 <= 4 <= INT_MAX ∧
  ∃ t arr,
    is_free empty_memory t = true ∧ is_free empty_memory arr = true ∧ t ≠ arr ∧
    ch_create fresh_policy 4 empty_memory = Ok t (created_at t arr 4 empty_memory) ∧
    table_at (created_at t arr 4 empty_memory) t arr (replicate (Z.to_nat 4) []).
Proof.
  assert (0 <= 4 <= INT_MAX) as HC by (unfold INT_MAX; lia).
  split; [exact fresh_policy_succeeds|]. split; [exact HC|].
  exact (create_empty_table fresh_policy 4 empty_memory fresh_policy_succeeds HC).
Defined.

Lemma create_loop_overflows t arr ts n m :
  m_tables m !! t = Some (Table ts arr) →
  m_arrays m !! arr = Some (replicate n NULL) →
  INT_MAX < ts →
  ∀ fuel c, 0 <= c <= INT_MAX → (Z.to_nat (INT_MAX - c) < fuel)%nat →
  create_loop fuel c ts t m = Fault.
Proof.
  intros Ht Harr Hts. induction fuel as [|fuel IH]; intros c Hc Hf; [lia|].
  cbn [create_loop]. destruct (Z.ltb_spec c ts); [|lia].
  unfold bind, load_p_entries, load_table, store_slot. rewrite Ht. msimpl.
  rewrite Harr, length_replicate.
  destruct (Z.ltb_spec c 0); [lia|]. cbn [orb].
  destruct (Z.leb_spec (Z.of_nat n) c); [done|].
  rewrite (create_loop_stays m arr n c) by (done || lia).
  destruct (Z.leb_spec INT_MAX c); [done|]. apply IH; lia.
Qed.

(** X9. With a capacity above [INT_MAX], and allocations that succeed,
    [ch_create] does not return: the [int] counter of the loop that clears
    the slots overflows, or the loop stores past the end of the array. *)
Theorem create_over_int_max policy C m :
  allocs_succeed policy → INT_MAX < C → ch_create policy C m = Fault.
Proof.
  intros Hpol HC. destruct (Hpol m) as (a & Hp & Hf).
  destruct (Hpol (set_tables <[a := Table 0 NULL]> (count_alloc m)))
    as (b & Hp' & Hf').
  rewrite (ch_create_steps policy C m a b Hp Hf Hp' Hf').
  unfold bind.
  rewrite (create_loop_overflows a b C
             (Z.to_nat ((sizeof_ptr * C) mod ULONG_MOD / sizeof_ptr))); try done.
  - cbn [m_tables]. apply lookup_insert_eq.
  - cbn [m_arrays]. apply lookup_insert_eq.
  - assert (Z.to_nat (INT_MAX - 0) <= Z.to_nat C)%nat; [|lia].
    apply Z2Nat.inj_le; unfold INT_MAX in *; lia.
Qed.

Lemma create_over_int_max_witness :
  allocs_succeed fresh_policy ∧ INT_MAX < 2147483648 ∧
  ch_create fresh_policy 2147483648 empty_memory = Fault.
Proof.
  assert (INT_MAX < 2147483648) as HC by (unfold INT_MAX; lia).
  split; [exact fresh_policy_succeeds|]. split; [exact HC|].
  exact (create_over_int_max fresh_policy 2147483648 empty_memory
           fresh_policy_succeeds HC).
Defined.

(** ** A failed first allocation *)

Lemma construct_first_fails policy k v m :
  policy m = None → m_props m !! NULL = None →
  _construct policy k v m = Fault.
Proof.
  intros Hp Hnull. unfold _construct, malloc_prop, malloc_key, bind at 1.
  unfold malloc at 1. rewrite Hp. unfold bind at 1, malloc.
  destruct (policy (count_alloc m)) as [b|]; [destruct (is_free _ b)|];
    unfold bind, store_p_key, store_prop; msimpl; by rewrite Hnull.
Qed.

Lemma create_first_fails policy C m :
  policy m = None → m_tables m !! NULL = None → ch_create policy C m = Fault.
Proof.
  intros Hp Hnull. unfold ch_create, malloc_table, malloc_array, bind at 1.
  unfold malloc at 1. rewrite Hp. unfold bind at 1, malloc.
  destruct (policy (count_alloc m)) as [b|]; [destruct (is_free _ b)|];
    unfold bind, store_p_entries, store_table; msimpl; by rewrite Hnull.
Qed.

Lemma put_first_fails policy m t arr chains k v :
  table_at m t arr chains → chains ≠ [] → absent chains k →
  policy m = None → m_props m !! NULL = None →
  ch_put policy t k v m = Fault.
Proof.
  intros Hat Hne Habs Hp Hnull.
  pose proof (construct_first_fails policy k v m Hp Hnull) as Hcons.
  destruct (slot_chain chains k Hne) as [l Hl].
  pose proof (absent_chain _ _ _ Habs Hl) as Hk.
  pose proof (chain_at_ok _ _ _ _ Hat _ _ Hl) as Hok.
  assert (length l < S (size (m_props m)))%nat as Hfuel
    by (eapply fuel_enough; eauto).
  unfold ch_put. enter_slot Hat Hne Hl.
  destruct (last l) as [pv|] eqn:Hlast.
  - destruct (seg_ok_last _ _ _ _ _ Hok Hlast) as [Hpv Hpvs].
    assert ((head_addr l =? NULL) = false) as ->.
    { apply NULL_eqb. eapply seg_ok_head; [done|]. by intros ->. }
    replace (head_addr l) with (link (l ++ []) NULL) by by rewrite app_nil_r.
    rewrite (put_loop_skip _ k policy l [] NULL); [|by rewrite app_nil_r|done|lia].
    rewrite Hlast. cbn [from_option link].
    destruct (S (size (m_props m)) - length l)%nat; cbn [put_loop];
      change (NULL =? NULL) with true; cbn iota;
      unfold bind at 1; by rewrite Hcons.
  - apply last_None in Hlast as ->. change (head_addr [] =? NULL) with true.
    cbn beta iota. by rewrite Hcons.
Qed.

(** X10. When the first call of [malloc] of an operation fails, and no block
    sits at the null address, the operation stores through the null pointer
    before it tests it: [ch_create] faults, [_construct] faults, and so does
    [ch_put] of a key that the table does not hold. *)
Theorem first_allocation_fails policy m :
  policy m = None → m_tables m !! NULL = None → m_props m !! NULL = None →
  (∀ C, ch_create policy C m = Fault) ∧
  (∀ k v, _construct policy k v m = Fault) ∧
  (∀ t arr chains k v,
     table_at m t arr chains → chains ≠ [] → absent chains k →
     ch_put policy t k v m = Fault).
Proof.
  intros Hp Ht Hps. split_and!.
  - intros C. by apply create_first_fails.
  - intros k v. by apply construct_first_fails.
  - intros t arr chains k v Hat Hne Habs. by eapply put_first_fails.
Qed.

Lemma first_allocation_fails_witness :
  ch_create (scripted []) 4 empty_one = Fault ∧
  _construct (scripted []) "a" 7 empty_one = Fault ∧
  ch_put (scripted []) 1 "a" 7 empty_one = Fault.
Proof.
  destruct (first_allocation_fails (scripted []) empty_one
              eq_refl eq_refl eq_refl) as (Hcreate & Hcons & Hput).
  split; [apply Hcreate|]. split; [apply Hcons|].
  apply (Hput 1 2 [[]]); [solve_table_at|discriminate|solve_absent].
Defined.

(** X11. A capacity of zero is not refused: with allocations that succeed
    [ch_create] returns a table, and on it [ch_put], [ch_get] and
    [ch_delete] divide by zero for every key. *)
Theorem zero_capacity_faults policy m :
  allocs_succeed policy →
  ∃ t m0, ch_create policy 0 m = Ok t m0 ∧ t ≠ NULL ∧
    ∀ k v, ch_put policy t k v m0 = Fault ∧ ch_get t k m0 = Fault ∧
           ch_delete t k m0 = Fault.
Proof.
  intros Hpol.
  destruct (ch_create_memory policy 0 m Hpol ltac:(unfold INT_MAX; lia))
    as (t & arr & Ht & _ & _ & Hrun).
  exists t, (created_at t arr 0 m). split; [exact Hrun|].
  apply is_free_spec in Ht as [Ht _]. split; [done|].
  intros k v. unfold ch_put, ch_get, ch_delete, bind, load_size, load_table,
    created_at. cbn [m_tables]. rewrite lookup_insert_eq. done.
Qed.

Lemma zero_capacity_faults_witness :
  allocs_succeed fresh_policy ∧
  ∃ t m0, ch_create fresh_policy 0 empty_memory = Ok t m0 ∧ t ≠ NULL ∧
    ∀ k v, ch_put fresh_policy t k v m0 = Fault ∧ ch_get t k m0 = Fault ∧
           ch_delete t k m0 = Fault.
Proof.
  split; [exact fresh_policy_succeeds|].
  exact (zero_capacity_faults fresh_policy empty_memory fresh_policy_succeeds).
Defined.

(** ** [ch_clear] *)

Lemma node_live m t arr chains n :
  table_at m t arr chains → n ∈ concat chains →
  n_addr n ≠ NULL ∧ n_kaddr n ≠ NULL ∧
  (∃ next, m_props m !! n_addr n = Some (Property (n_kaddr n) (n_value n) next)) ∧
  m_keys m !! n_kaddr n = Some (n_key n).
Proof.
  intros Hat Hn.
  destruct (present_split _ _ _ _ _ Hat Hn) as (l1 & l2 & Hl & _ & _).
  pose proof (chain_at_ok _ _ _ _ Hat _ _ Hl) as Hok.
  apply seg_ok_app in Hok as [_ (? & ? & ? & ? & _)]. eauto.
Qed.

Lemma heads_sublist (chains : list (list node)) :
  heads chains `sublist_of` concat chains.
Proof.
  induction chains as [|[|x l] chains IH]; cbn; [constructor|done|].
  apply sublist_skip. by apply sublist_inserts_l.
Qed.

Lemma heads_cons x l (rest : list (list node)) :
  heads ((x :: l) :: rest) = x :: heads rest.
Proof. done. Qed.

Lemma heads_app (c1 c2 : list (list node)) :
  heads (c1 ++ c2) = heads c1 ++ heads c2.
Proof. apply omap_app. Qed.

Lemma release_cons x ns m : release (x :: ns) m = release ns (free_entry x m).
Proof. done. Qed.

Lemma release_frame ns : ∀ m,
  m_tables (release ns m) = m_tables m ∧ m_arrays (release ns m) = m_arrays m ∧
  m_nalloc (release ns m) = m_nalloc m.
Proof.
  induction ns as [|x ns IH]; intros m; [done|].
  rewrite release_cons. destruct (IH (free_entry x m)) as (-> & -> & ->). done.
Qed.

Lemma release_props ns : ∀ m a,
  m_props (release ns m) !! a =
  if decide (a ∈ n_addr <$> ns) then None else m_props m !! a.
Proof.
  induction ns as [|x ns IH]; intros m a; [done|].
  rewrite release_cons, IH. cbn [free_entry m_props fmap list_fmap].
  destruct (decide (a = n_addr x)) as [->|Hne].
  - rewrite lookup_delete_eq. rewrite (decide_True (P := _ ∈ _ :: _)) by left.
    by case_decide.
  - rewrite lookup_delete_ne by done.
    repeat case_decide; set_solver.
Qed.

Lemma release_keys ns : ∀ m a,
  m_keys (release ns m) !! a =
  if decide (a ∈ n_kaddr <$> ns) then None else m_keys m !! a.
Proof.
  induction ns as [|x ns IH]; intros m a; [done|].
  rewrite release_cons, IH. cbn [free_entry m_keys fmap list_fmap].
  destruct (decide (a = n_kaddr x)) as [->|Hne].
  - rewrite lookup_delete_eq. rewrite (decide_True (P := _ ∈ _ :: _)) by left.
    by case_decide.
  - rewrite lookup_delete_ne by done.
    repeat case_decide; set_solver.
Qed.

Lemma clear_loop_spec t arr : ∀ rest done m fuel,
  m_tables m !! t = Some (Table (Z.of_nat (length (done ++ rest))) arr) →
  m_arrays m !! arr = Some (head_addr <$> done ++ rest) →
  Z.of_nat (length (done ++ rest)) <= INT_MAX →
  Forall (live_entry m) (heads rest) →
  NoDup (n_addr <$> heads rest) → NoDup (n_kaddr <$> heads rest) →
  (length rest < fuel)%nat →
  clear_loop fuel (Z.of_nat (length done)) t m = Ok tt (release (heads rest) m).
Proof.
  induction rest as [|l rest IH]; intros done m fuel Ht Harr Hmax Hlive Ha Hk Hf;
    (destruct fuel as [|fuel]; [simpl in Hf; lia|]).
  - cbn [clear_loop]. unfold bind, load_size, load_table. rewrite Ht. msimpl.
    rewrite app_nil_r. by rewrite Z.ltb_irrefl.
  - cbn [clear_loop]. unfold bind at 1, load_size, load_table. rewrite Ht. msimpl.
    rewrite length_app in Hmax |- *. cbn [length] in Hmax |- *.
    destruct (Z.ltb_spec (Z.of_nat (length done))
                (Z.of_nat (length done + S (length rest)))); [|lia].
    unfold bind at 1, load_p_entries, load_table. rewrite Ht. msimpl.
    unfold bind at 1, load_slot. rewrite Harr.
    destruct (Z.ltb_spec (Z.of_nat (length done)) 0); [lia|].
    rewrite Nat2Z.id, list_lookup_fmap, list_lookup_middle by done.
    cbn [fmap option_fmap option_map].
    destruct (Z.leb_spec INT_MAX (Z.of_nat (length done))); [lia|].
    assert (Z.of_nat (length done) + 1 = Z.of_nat (length (done ++ [l]))) as ->
      by (rewrite length_app; simpl; lia).
    assert (done ++ l :: rest = (done ++ [l]) ++ rest) as Hsplit
      by by rewrite <- app_assoc.
    rewrite Hsplit in Ht, Harr. simpl in Hf.
    destruct l as [|x l].
    + change (head_addr [] =? NULL) with true. cbn [negb]. unfold bind, ret.
      apply IH; try done; [|lia].
      rewrite <- Hsplit, length_app. simpl. lia.
    + rewrite heads_cons in Hlive, Ha, Hk |- *.
      apply Forall_cons in Hlive as [(Hx & Hkx & [nx Hps] & [s Hks]) Hlive].
      rewrite fmap_cons in Ha, Hk.
      apply NoDup_cons in Ha as [Hxa Ha]. apply NoDup_cons in Hk as [Hxk Hk].
      change (head_addr (x :: l)) with (n_addr x).
      rewrite (NULL_eqb _ Hx). cbn [negb]. unfold bind.
      rewrite (clear_node m _ _ _ _ _ Hx Hkx Hps Hks).
      change (Memory (m_tables m) (m_arrays m) (delete (n_addr x) (m_props m))
                (delete (n_kaddr x) (m_keys m)) (m_nalloc m))
        with (free_entry x m).
      rewrite release_cons. apply IH; try done; [| |lia].
      * rewrite <- Hsplit, length_app. simpl. lia.
      * apply Forall_forall. intros y Hy.
        rewrite Forall_forall in Hlive.
        destruct (Hlive y Hy) as (? & ? & [ny Hyp] & Hyk).
        split_and!; try done.
        -- exists ny. cbn [free_entry m_props]. rewrite lookup_delete_ne; [done|].
           intros Heq. apply Hxa. rewrite Heq. by apply list_elem_of_fmap_2.
        -- cbn [free_entry m_keys]. rewrite lookup_delete_ne; [done|].
           intros Heq. apply Hxk. rewrite Heq. by apply list_elem_of_fmap_2.
Qed.

Lemma heads_live m t arr chains :
  table_at m t arr chains → Forall (live_entry m) (heads chains).
Proof.
  intros Hat. apply Forall_forall. intros x Hx.
  assert (x ∈ concat chains) as Hin
    by (eapply elem_of_sublist; [done|apply heads_sublist]).
  destruct (node_live _ _ _ _ _ Hat Hin) as (? & ? & ? & Hk).
  split_and!; first [done | by rewrite Hk].
Qed.

Lemma ch_clear_spec m t arr chains :
  table_at m t arr chains → Z.of_nat (length chains) <= INT_MAX →
  ch_clear t m = Ok tt (release (heads chains) m).
Proof.
  intros Hat Hmax. unfold ch_clear, bind, load_size, load_table.
  rewrite (at_table _ _ _ _ Hat). msimpl.
  apply (clear_loop_spec t arr chains [] m); cbn [app length]; try done.
  - apply (at_table _ _ _ _ Hat).
  - apply (at_array _ _ _ _ Hat).
  - by eapply heads_live.
  - eapply sublist_NoDup; [apply (at_addrs _ _ _ _ Hat)|].
    apply fmap_sublist, heads_sublist.
  - eapply sublist_NoDup; [apply (at_kaddrs _ _ _ _ Hat)|].
    apply fmap_sublist, heads_sublist.
  - rewrite Nat2Z.id. lia.
Qed.

(** X12. On a well-formed table of capacity at most [INT_MAX], [ch_clear]
    returns after releasing, for every chain that is not empty, its first
    entry and the key buffer of that entry, and nothing else: the header, the
    slot array and every other block are as before. *)
Theorem clear_releases_heads m t arr chains :
  table_at m t arr chains → Z.of_nat (length chains) <= INT_MAX →
  ch_clear t m = Ok tt (release (heads chains) m).
Proof. apply ch_clear_spec. Qed.

Lemma clear_releases_heads_witness :
  table_at chain_ab 1 2 chains_ab ∧ Z.of_nat (length chains_ab) <= INT_MAX ∧
  ch_clear 1 chain_ab = Ok tt (release (heads chains_ab) chain_ab).
Proof.
  assert (Z.of_nat (length chains_ab) <= INT_MAX) as Hmax by (by vm_compute).
  split; [exact chain_ab_table|]. split; [exact Hmax|].
  exact (clear_releases_heads chain_ab 1 2 chains_ab chain_ab_table Hmax).
Defined.

Lemma tail_not_head m t arr chains i x l y :
  table_at m t arr chains → chains !! i = Some (x :: l) → y ∈ l →
  (n_addr y ∉ n_addr <$> heads chains) ∧ (n_kaddr y ∉ n_kaddr <$> heads chains).
Proof.
  intros Hat Hl Hy.
  destruct (chains_split _ _ _ Hl) as (c1 & c2 & -> & _ & _).
  apply list_elem_of_split in Hy as (l1 & l2 & ->).
  assert (∀ h, h ∈ heads (c1 ++ (x :: l1 ++ y :: l2) :: c2) →
               h ∈ concat (c1 ++ ((x :: l1) ++ l2) :: c2)) as Hheads.
  { intros h. rewrite heads_app, (heads_cons x), elem_of_app.
    rewrite elem_of_cons, concat_middle, !elem_of_app.
    intros [Hh|[->|Hh]].
    - left. eapply elem_of_sublist; [done|apply heads_sublist].
    - right. left. left. left.
    - right. right. eapply elem_of_sublist; [done|apply heads_sublist]. }
  split.
  - intros (h & Heq & Hh)%list_elem_of_fmap.
    destruct (node_isolated n_addr c1 (x :: l1) y l2 c2 (at_addrs _ _ _ _ Hat))
      as [_ Hiso].
    by apply (Hiso h (Hheads h Hh)).
  - intros (h & Heq & Hh)%list_elem_of_fmap.
    destruct (node_isolated n_kaddr c1 (x :: l1) y l2 c2 (at_kaddrs _ _ _ _ Hat))
      as [_ Hiso].
    by apply (Hiso h (Hheads h Hh)).
Qed.

(** X13. After [ch_clear] on a well-formed table of capacity at most
    [INT_MAX] every slot holds what it held before, the first entry of every
    chain is gone with its key buffer, and every entry further down a chain is
    still allocated, with its key buffer and its fields as they were. *)
Theorem clear_leaves_slots_and_tails m t arr chains :
  table_at m t arr chains → Z.of_nat (length chains) <= INT_MAX →
  ∃ m', ch_clear t m = Ok tt m' ∧
    m_tables m' = m_tables m ∧
    m_arrays m' !! arr = Some (head_addr <$> chains) ∧
    (∀ i x l, chains !! i = Some (x :: l) →
       m_props m' !! n_addr x = None ∧ m_keys m' !! n_kaddr x = None ∧
       ∀ y, y ∈ l →
         m_props m' !! n_addr y = m_props m !! n_addr y ∧
         is_Some (m_props m' !! n_addr y) ∧
         m_keys m' !! n_kaddr y = Some (n_key y)).
Proof.
  intros Hat Hmax. exists (release (heads chains) m).
  split; [by eapply ch_clear_spec|].
  destruct (release_frame (heads chains) m) as (Ht & Ha & _).
  split; [done|]. split; [rewrite Ha; apply (at_array _ _ _ _ Hat)|].
  intros i x l Hl.
  assert (x ∈ heads chains) as Hx.
  { apply list_elem_of_omap. exists (x :: l). split; [|done].
    by eapply list_elem_of_lookup_2. }
  rewrite release_props, release_keys.
  rewrite decide_True by (by apply list_elem_of_fmap_2).
  rewrite decide_True by (by apply list_elem_of_fmap_2).
  split; [done|]. split; [done|]. intros y Hy.
  destruct (tail_not_head _ _ _ _ _ _ _ _ Hat Hl Hy) as [Hya Hyk].
  rewrite release_props, release_keys.
  rewrite decide_False by done. rewrite decide_False by done.
  assert (y ∈ concat chains) as Hin
    by (eapply elem_of_chain; [done|by right]).
  destruct (node_live _ _ _ _ _ Hat Hin) as (_ & _ & [ny Hyp] & Hk).
  rewrite Hyp. eauto.
Qed.

Lemma clear_leaves_slots_and_tails_witness :
  table_at chain_ab 1 2 chains_ab ∧ Z.of_nat (length chains_ab) <= INT_MAX ∧
  ∃ m', ch_clear 1 chain_ab = Ok tt m' ∧
    m_tables m' = m_tables chain_ab ∧
    m_arrays m' !! 2 = Some (head_addr <$> chains_ab) ∧
    (∀ i x l, chains_ab !! i = Some (x :: l) →
       m_props m' !! n_addr x = None ∧ m_keys m' !! n_kaddr x = None ∧
       ∀ y, y ∈ l →
         m_props m' !! n_addr y = m_props chain_ab !! n_addr y ∧
         is_Some (m_props m' !! n_addr y) ∧
         m_keys m' !! n_kaddr y = Some (n_key y)).
Proof.
  assert (Z.of_nat (length chains_ab) <= INT_MAX) as Hmax by (by vm_compute).
  split; [exact chain_ab_table|]. split; [exact Hmax|].
  exact (clear_leaves_slots_and_tails chain_ab 1 2 chains_ab chain_ab_table Hmax).
Defined.

(** X14. After [ch_clear] on a well-formed table of capacity at most
    [INT_MAX], [ch_get], [ch_put] and [ch_delete] of any key whose slot held
    a chain read the released first entry of that chain: none of them
    returns. *)
Theorem cleared_slot_faults policy m t arr chains k v x l :
  table_at m t arr chains → Z.of_nat (length chains) <= INT_MAX →
  chains !! slot_of chains k = Some (x :: l) →
  ∃ m', ch_clear t m = Ok tt m' ∧
        ch_get t k m' = Fault ∧ ch_put policy t k v m' = Fault ∧
        ch_delete t k m' = Fault.
Proof.
  intros Hat Hmax Hl. exists (release (heads chains) m).
  split; [by eapply ch_clear_spec|].
  assert (chains ≠ []) as Hne by (by intros ->).
  destruct (release_frame (heads chains) m) as (Ht & Ha & _).
  assert (x ∈ heads chains) as Hx.
  { apply list_elem_of_omap. exists (x :: l). split; [|done].
    by eapply list_elem_of_lookup_2. }
  assert (m_props (release (heads chains) m) !! n_addr x = None) as Hgone.
  { rewrite release_props. by rewrite decide_True by (by apply list_elem_of_fmap_2). }
  assert (x ∈ concat chains) as Hin by (eapply elem_of_chain; [done|left]).
  destruct (node_live _ _ _ _ _ Hat Hin) as (Hxn & _).
  split_and!.
  - unfold ch_get. run_monad. rewrite Ht, (at_table _ _ _ _ Hat). msimpl.
    rewrite (size_nonzero _ Hne), Ht, (at_table _ _ _ _ Hat). msimpl.
    unfold load_slot. rewrite Ha, (at_array _ _ _ _ Hat).
    rewrite (slot_nonneg _ _ Hne), (slot_lookup _ _ _ Hl).
    change (head_addr (x :: l)) with (n_addr x). rewrite (NULL_eqb _ Hxn).
    cbn [get_loop]. rewrite (NULL_eqb _ Hxn).
    unfold bind, load_p_key, load_prop. by rewrite Hgone.
  - unfold ch_put. run_monad. rewrite Ht, (at_table _ _ _ _ Hat). msimpl.
    rewrite (size_nonzero _ Hne), Ht, (at_table _ _ _ _ Hat). msimpl.
    unfold load_slot. rewrite Ha, (at_array _ _ _ _ Hat).
    rewrite (slot_nonneg _ _ Hne), (slot_lookup _ _ _ Hl).
    change (head_addr (x :: l)) with (n_addr x). rewrite (NULL_eqb _ Hxn).
    cbn [put_loop]. rewrite (NULL_eqb _ Hxn).
    unfold bind, load_p_key, load_prop. by rewrite Hgone.
  - unfold ch_delete. run_monad. rewrite Ht, (at_table _ _ _ _ Hat). msimpl.
    rewrite (size_nonzero _ Hne), Ht, (at_table _ _ _ _ Hat). msimpl.
    unfold load_slot. rewrite Ha, (at_array _ _ _ _ Hat).
    rewrite (slot_nonneg _ _ Hne), (slot_lookup _ _ _ Hl).
    change (head_addr (x :: l)) with (n_addr x).
    cbn [delete_loop]. rewrite (NULL_eqb _ Hxn).
    unfold bind, load_p_key, load_prop. by rewrite Hgone.
Qed.

Lemma cleared_slot_faults_witness :
  table_at chain_ab 1 2 chains_ab ∧ Z.of_nat (length chains_ab) <= INT_MAX ∧
  chains_ab !! slot_of chains_ab "b" = Some [Node 3 4 "a" 7; Node 5 6 "b" 9] ∧
  ∃ m', ch_clear 1 chain_ab = Ok tt m' ∧
        ch_get 1 "b" m' = Fault ∧ ch_put fresh_policy 1 "b" 11 m' = Fault ∧
        ch_delete 1 "b" m' = Fault.
Proof.
  assert (Z.of_nat (length chains_ab) <= INT_MAX) as Hmax by (by vm_compute).
  assert (chains_ab !! slot_of chains_ab "b"
          = Some [Node 3 4 "a" 7; Node 5 6 "b" 9]) as Hl by (vm_compute; reflexivity).
  split; [exact chain_ab_table|]. split; [exact Hmax|]. split; [exact Hl|].
  exact (cleared_slot_faults fresh_policy chain_ab 1 2 chains_ab "b" 11 _ _
           chain_ab_table Hmax Hl).
Defined.

(** ** [ch_destroy] *)

Lemma ch_destroy_spec m t arr sz cells :
  m_tables m !! t = Some (Table sz arr) → m_arrays m !! arr = Some cells →
  t ≠ NULL → arr ≠ NULL →
  ch_destroy t m = Ok tt (destroyed_at t arr m).
Proof.
  intros Ht Harr Htn Han. unfold ch_destroy, free_array, free_table.
  change (0 <? sizeof_ptr / sizeof_t_property) with false. mrun.
  unfold destroyed_at. mnorm. by rewrite delete_insert_eq.
Qed.

(** X15. [ch_destroy] of a live table with a live slot array releases the
    header and the array and nothing else: every entry and every key buffer
    stays allocated.  Afterwards every operation on the handle, a second
    [ch_destroy] included, reads the released header. *)
Theorem destroy_releases_table_only policy m t arr sz cells :
  m_tables m !! t = Some (Table sz arr) → m_arrays m !! arr = Some cells →
  t ≠ NULL → arr ≠ NULL →
  ch_destroy t m = Ok tt (destroyed_at t arr m) ∧
  m_props (destroyed_at t arr m) = m_props m ∧
  m_keys (destroyed_at t arr m) = m_keys m ∧
  ch_destroy t (destroyed_at t arr m) = Fault ∧
  ch_clear t (destroyed_at t arr m) = Fault ∧
  ∀ k v, ch_get t k (destroyed_at t arr m) = Fault ∧
         ch_put policy t k v (destroyed_at t arr m) = Fault ∧
         ch_delete t k (destroyed_at t arr m) = Fault.
Proof.
  intros Ht Harr Htn Han.
  split; [by eapply ch_destroy_spec|]. split; [done|]. split; [done|].
  assert (m_tables (destroyed_at t arr m) !! t = None) as Hgone
    by apply lookup_delete_eq.
  split_and!; [| |intros k v; split_and!];
    unfold ch_destroy, ch_clear, ch_get, ch_put, ch_delete;
    try change (0 <? sizeof_ptr / sizeof_t_property) with false;
    unfold bind, ret, load_size, load_p_entries, load_table; by rewrite Hgone.
Qed.

Lemma destroy_releases_table_only_witness :
  ch_destroy 1 chain_ab = Ok tt (destroyed_at 1 2 chain_ab) ∧
  m_props (destroyed_at 1 2 chain_ab) = m_props chain_ab ∧
  m_keys (destroyed_at 1 2 chain_ab) = m_keys chain_ab ∧
  ch_destroy 1 (destroyed_at 1 2 chain_ab) = Fault ∧
  ch_clear 1 (destroyed_at 1 2 chain_ab) = Fault ∧
  ∀ k v, ch_get 1 k (destroyed_at 1 2 chain_ab) = Fault ∧
         ch_put fresh_policy 1 k v (destroyed_at 1 2 chain_ab) = Fault ∧
         ch_delete 1 k (destroyed_at 1 2 chain_ab) = Fault.
Proof.
  apply (destroy_releases_table_only fresh_policy chain_ab 1 2 1 [3]);
    (reflexivity || discriminate).
Defined.

(** ** [_hash] and the slot of a key *)

Lemma hash_loop_range n : ∀ s v,
  0 <= v < ULONG_MOD → 0 <= hash_loop n s v < ULONG_MOD.
Proof.
  induction n as [|n IH]; intros [|c s] v Hv; cbn [hash_loop]; try done.
  apply IH. apply Z.mod_pos_bound. by unfold ULONG_MOD.
Qed.

Lemma hash_range k : 0 <= _hash k < ULONG_MOD.
Proof. apply hash_loop_range. by unfold ULONG_MOD. Qed.

Lemma slot_index_small k sz :
  0 < sz <= UINT_MOD → slot_index k sz = _hash k mod sz.
Proof.
  intros Hsz. unfold slot_index. apply Z.mod_small.
  pose proof (Z.mod_pos_bound (_hash k) sz ltac:(lia)). lia.
Qed.

(** X16. The hash fits an [unsigned long]; the slot of a key is below the
    capacity whatever the capacity is, and it is the hash modulo the
    capacity as long as the capacity fits the [unsigned int] that holds the
    slot. *)
Theorem slot_within_capacity k sz :
  0 < sz →
  0 <= _hash k < ULONG_MOD ∧ 0 <= slot_index k sz < sz ∧
  (sz <= UINT_MOD → slot_index k sz = _hash k mod sz).
Proof.
  intros Hsz. split; [apply hash_range|]. split; [by apply slot_index_range|].
  intros Hle. apply slot_index_small. lia.
Qed.

Lemma slot_within_capacity_witness :
  0 < 4 ∧
  0 <= _hash "value 1" < ULONG_MOD ∧ 0 <= slot_index "value 1" 4 < 4 ∧
  (4 <= UINT_MOD → slot_index "value 1" 4 = _hash "value 1" mod 4).
Proof.
  assert (0 < 4) as Hsz by lia. split; [exact Hsz|].
  exact (slot_within_capacity "value 1" 4 Hsz).
Defined.

Lemma hash_loop_app p : ∀ s n v,
  hash_loop (String.length p + n) (String.append p s) v =
  hash_loop n s (hash_loop (String.length p) p v).
Proof.
  induction p as [|c p IH]; intros s n v; [done|].
  cbn [String.length String.append Nat.add hash_loop]. apply IH.
Qed.

Lemma length_append p s :
  String.length (String.append p s) = (String.length p + String.length s)%nat.
Proof. induction p as [|c p IH]; simpl; [done|]. by rewrite IH. Qed.

Lemma hash_short k :
  strlen k < USHRT_MOD → _hash k = hash_loop (String.length k) k 0.
Proof.
  intros Hlen. unfold _hash, strlen in *.
  rewrite Z.mod_small by lia. by rewrite Nat2Z.id.
Qed.

Lemma hash_last_byte p c :
  strlen p + 1 < USHRT_MOD →
  _hash (String.append p (String c EmptyString)) =
  (_hash p * 33 + char_val c) mod ULONG_MOD.
Proof.
  intros Hlen. unfold strlen in Hlen.
  rewrite !hash_short; unfold strlen; rewrite ?length_append; simpl; try lia.
  by rewrite hash_loop_app.
Qed.

(** X17. One more byte at the end of a key, the whole still shorter than
    65536 bytes, multiplies the hash by 33 and adds the byte, read as a
    signed [char], modulo 2^64. *)
Theorem hash_appends_byte p c :
  strlen p + 1 < USHRT_MOD →
  _hash (String.append p (String c EmptyString)) =
  (_hash p * 33 + char_val c) mod ULONG_MOD.
Proof. apply hash_last_byte. Qed.

Lemma hash_appends_byte_witness :
  strlen "value " + 1 < USHRT_MOD ∧
  _hash (String.append "value " (String "1" EmptyString)) =
  (_hash "value " * 33 + char_val "1") mod ULONG_MOD.
Proof.
  assert (strlen "value " + 1 < USHRT_MOD) as Hlen by (by vm_compute).
  split; [exact Hlen|]. exact (hash_appends_byte "value " "1"%char Hlen).
Defined.

(** X18. Two keys shorter than 65536 bytes that differ in their last byte
    only fall in different slots when the capacity divides 2^64, fits an
    [unsigned int] and does not divide the difference of the two bytes: the
    keys "value 1" to "value 4" of a table of capacity 4 have a slot each. *)
Theorem last_byte_separates p c1 c2 sz :
  strlen p + 1 < USHRT_MOD → 0 < sz <= UINT_MOD → Z.divide sz ULONG_MOD →
  (char_val c1 - char_val c2) mod sz ≠ 0 →
  slot_index (String.append p (String c1 EmptyString)) sz ≠
  slot_index (String.append p (String c2 EmptyString)) sz.
Proof.
  intros Hlen Hsz Hdiv Hdiff Heq. apply Hdiff.
  rewrite !slot_index_small, !hash_last_byte in Heq by done.
  rewrite !Z.mod_mod_divide in Heq by done.
  replace (char_val c1 - char_val c2)
    with ((_hash p * 33 + char_val c1) - (_hash p * 33 + char_val c2)) by lia.
  rewrite Zminus_mod, Heq, Z.sub_diag. apply Z.mod_0_l. lia.
Qed.

Lemma last_byte_separates_witness :
  strlen "value " + 1 < USHRT_MOD ∧ 0 < 4 <= UINT_MOD ∧ Z.divide 4 ULONG_MOD ∧
  (char_val "1" - char_val "2") mod 4 ≠ 0 ∧
  slot_index (String.append "value " (String "1" EmptyString)) 4 ≠
  slot_index (String.append "value " (String "2" EmptyString)) 4.
Proof.
  assert (strlen "value " + 1 < USHRT_MOD) as Hlen by (by vm_compute).
  assert (0 < 4 <= UINT_MOD) as Hsz by (unfold UINT_MOD; lia).
  assert (Z.divide 4 ULONG_MOD) as Hdiv by (exists (2 ^ 62); reflexivity).
  assert ((char_val "1" - char_val "2") mod 4 ≠ 0) as Hdiff
    by (vm_compute; discriminate).
  split; [exact Hlen|]. split; [exact Hsz|]. split; [exact Hdiv|].
  split; [exact Hdiff|].
  exact (last_byte_separates "value " "1"%char "2"%char 4 Hlen Hsz Hdiv Hdiff).
Defined.

Lemma hash_loop_prefix n : ∀ s v,
  hash_loop n s v = hash_loop n (substring 0 n s) v.
Proof.
  induction n as [|n IH]; intros [|c s] v; cbn [hash_loop substring];
    first [done | apply IH].
Qed.

Lemma length_substring n : ∀ s,
  (n <= String.length s)%nat → String.length (substring 0 n s) = n.
Proof.
  induction n as [|n IH]; intros [|c s] Hn; simpl in *; try done; try lia.
  rewrite IH; [done|lia].
Qed.

(** X19. The hash of a key is the hash of its first [strlen mod 65536]
    bytes: the length goes through an [unsigned short], and the bytes past
    it are not read. *)
Theorem hash_reads_truncated_length key :
  _hash key = _hash (substring 0 (Z.to_nat (strlen key mod USHRT_MOD)) key).
Proof.
  set (n := Z.to_nat (strlen key mod USHRT_MOD)).
  assert (0 <= strlen key mod USHRT_MOD < USHRT_MOD) as Hmod
    by (apply Z.mod_pos_bound; by unfold USHRT_MOD).
  assert (n <= String.length key)%nat as Hn.
  { unfold n, strlen in *. apply Nat2Z.inj_le. rewrite Z2Nat.id by lia.
    apply Z.mod_le; [lia|by unfold USHRT_MOD]. }
  rewrite (hash_short (substring 0 n key)).
  - rewrite length_substring by done. unfold _hash. fold n.
    apply hash_loop_prefix.
  - unfold strlen. rewrite length_substring by done. unfold n. lia.
Qed.

(** ** [_print_hash_table] *)

Lemma print_chain_spec m l : ∀ fuel out,
  chain_ok (m_props m) (m_keys m) l → (length l < fuel)%nat →
  print_chain fuel (head_addr l) out m = Ok (out ++ render_chain l) m.
Proof.
  unfold chain_ok, head_addr.
  induction l as [|n l IH]; intros fuel out Hok Hf.
  - destruct fuel; cbn [print_chain link]; change (NULL =? NULL) with true;
      unfold ret; by rewrite app_nil_r.
  - destruct fuel as [|fuel]; [simpl in Hf; lia|].
    cbn [seg_ok] in Hok. destruct Hok as (Ha & Hka & Hps & Hks & Hok).
    cbn [print_chain link render_chain]. rewrite (NULL_eqb _ Ha). mrun.
    rewrite IH by (done || simpl in Hf; lia).
    unfold printf. rewrite <- app_assoc. do 3 f_equal.
    destruct l as [|n' l]; [done|].
    cbn [link]. cbn [seg_ok] in Hok. destruct Hok as (Ha' & _).
    by rewrite (NULL_eqb _ Ha').
Qed.

Lemma print_slots_spec m t arr : ∀ rest done fuel out,
  m_tables m !! t = Some (Table (Z.of_nat (length (done ++ rest))) arr) →
  m_arrays m !! arr = Some (head_addr <$> done ++ rest) →
  Z.of_nat (length (done ++ rest)) <= INT_MAX →
  Forall (chain_ok (m_props m) (m_keys m)) rest →
  Forall (λ l, length l < S (size (m_props m)))%nat rest →
  (length rest < fuel)%nat →
  print_slots fuel (Z.of_nat (length done)) t out m =
  Ok (out ++ concat (imap (λ j, render_slot (length done + j)) rest)) m.
Proof.
  induction rest as [|l rest IH]; intros done fuel out Ht Harr Hmax Hok Hlen Hf;
    (destruct fuel as [|fuel]; [simpl in Hf; lia|]).
  - cbn [print_slots]. unfold bind, load_size, load_table. rewrite Ht. msimpl.
    rewrite !app_nil_r. by rewrite Z.ltb_irrefl.
  - cbn [print_slots]. unfold bind at 1, load_size, load_table. rewrite Ht. msimpl.
    rewrite length_app in Hmax |- *. cbn [length] in Hmax |- *.
    destruct (Z.ltb_spec (Z.of_nat (length done))
                (Z.of_nat (length done + S (length rest)))); [|lia].
    unfold bind at 1, load_p_entries, load_table. rewrite Ht. msimpl.
    unfold bind at 1, load_slot. rewrite Harr.
    destruct (Z.ltb_spec (Z.of_nat (length done)) 0); [lia|].
    rewrite Nat2Z.id, list_lookup_fmap, list_lookup_middle by done.
    cbn [fmap option_fmap option_map].
    apply Forall_cons in Hok as [Hl Hok]. apply Forall_cons in Hlen as [Hll Hlen].
    assert (Z.of_nat (length done) + 1 = Z.of_nat (length (done ++ [l]))) as Hnext
      by (rewrite length_app; simpl; lia).
    assert (done ++ l :: rest = (done ++ [l]) ++ rest) as Hsplit
      by by rewrite <- app_assoc.
    rewrite Hsplit in Ht, Harr. simpl in Hf.
    assert (∀ out',
      print_slots fuel (Z.of_nat (length done) + 1) t out' m =
      Ok (out' ++ concat (imap (λ j, render_slot (length done + S j)) rest)) m)
      as Hrest.
    { intros out'. rewrite Hnext, IH; try done.
      - do 3 f_equal. apply imap_ext. intros j x _. f_equal.
        rewrite length_app. simpl. lia.
      - rewrite <- Hsplit, length_app. simpl. lia.
      - lia. }
    rewrite imap_cons, concat_cons. unfold compose.
    destruct l as [|x l].
    + change (head_addr [] =? NULL) with true. unfold bind at 1, ret at 1.
      destruct (Z.leb_spec INT_MAX (Z.of_nat (length done))); [lia|].
      rewrite Hrest. cbn [render_slot app]. done.
    + assert ((head_addr (x :: l) =? NULL) = false) as ->.
      { apply NULL_eqb. cbn [chain_ok seg_ok] in Hl. unfold chain_ok in Hl.
        cbn [seg_ok] in Hl. by destruct Hl. }
      unfold bind at 1. unfold bind at 1, chain_fuel at 1. unfold bind at 1.
      rewrite (print_chain_spec m (x :: l)) by done.
      unfold ret at 1.
      destruct (Z.leb_spec INT_MAX (Z.of_nat (length done))); [lia|].
      rewrite Hrest. unfold printf, render_slot.
      rewrite Nat.add_0_r, <- !app_assoc. cbn [app]. by rewrite <- !app_assoc.
Qed.

(** X20. On a well-formed table of capacity at most [INT_MAX],
    [_print_hash_table] returns, changes nothing in the heap, and writes, in
    slot order and for the slots that are not empty only: the number of the
    slot, then every entry of the chain in chain order with its key and its
    value reference, the last one with the format that has no comma, then a
    new line. *)
Theorem print_renders_chains m t arr chains :
  table_at m t arr chains → Z.of_nat (length chains) <= INT_MAX →
  _print_hash_table t m = Ok (render chains) m.
Proof.
  intros Hat Hmax. unfold _print_hash_table, bind, load_size, load_table.
  rewrite (at_table _ _ _ _ Hat). msimpl.
  rewrite (print_slots_spec m t arr chains [] _ []); cbn [app length]; try done.
  - apply (at_table _ _ _ _ Hat).
  - apply (at_array _ _ _ _ Hat).
  - apply (at_chains _ _ _ _ Hat).
  - apply Forall_forall. intros l [j Hj]%list_elem_of_lookup.
    by eapply fuel_enough.
  - rewrite Nat2Z.id. lia.
Qed.

Lemma print_renders_chains_witness :
  table_at chain_ab 1 2 chains_ab ∧ Z.of_nat (length chains_ab) <= INT_MAX ∧
  _print_hash_table 1 chain_ab = Ok (render chains_ab) chain_ab.
Proof.
  assert (Z.of_nat (length chains_ab) <= INT_MAX) as Hmax by (by vm_compute).
  split; [exact chain_ab_table|]. split; [exact Hmax|].
  exact (print_renders_chains chain_ab 1 2 chains_ab chain_ab_table Hmax).
Defined.

(** ** [_construct] and [_clear] *)

(** X21. With allocations that succeed [_construct] returns a new entry
    with its key buffer, both at addresses that held no block, and [_clear]
    of that entry gives back the heap of before, two calls of [malloc]
    later. *)
Theorem construct_then_clear policy k v m :
  allocs_succeed policy →
  ∃ a b, is_free m a = true ∧ is_free m b = true ∧ a ≠ b ∧
         _construct policy k v m = Ok a (alloc_entry a b k v m) ∧
         _clear a (alloc_entry a b k v m) = Ok tt (count_alloc (count_alloc m)).
Proof.
  intros Hpol.
  destruct (construct_succeeds policy k v m Hpol) as (a & b & Ha & Hb & Hab & Hrun).
  exists a, b. split_and!; try done.
  apply is_free_spec in Ha as (Han & _ & _ & Hpa & _).
  apply is_free_spec in Hb as (Hbn & _ & _ & _ & Hkb).
  rewrite (clear_node _ a b v NULL k); try done.
  - cbn [alloc_entry m_tables m_arrays m_props m_keys m_nalloc].
    rewrite !delete_insert_id by done. done.
  - cbn [alloc_entry m_props]. apply lookup_insert_eq.
  - cbn [alloc_entry m_keys]. apply lookup_insert_eq.
Qed.

Lemma construct_then_clear_witness :
  allocs_succeed fresh_policy ∧
  ∃ a b, is_free empty_one a = true ∧ is_free empty_one b = true ∧ a ≠ b ∧
         _construct fresh_policy "a" 7 empty_one
           = Ok a (alloc_entry a b "a" 7 empty_one) ∧
         _clear a (alloc_entry a b "a" 7 empty_one)
           = Ok tt (count_alloc (count_alloc empty_one)).
Proof.
  split; [exact fresh_policy_succeeds|].
  exact (construct_then_clear fresh_policy "a" 7 empty_one fresh_policy_succeeds).
Defined.

(** ** A second table in the same heap *)

Lemma table_at_frame m m' t arr chains :
  table_at m t arr chains →
  m_tables m' !! t = m_tables m !! t →
  m_arrays m' !! arr = m_arrays m !! arr →
  (∀ n, n ∈ concat chains →
        m_props m' !! n_addr n = m_props m !! n_addr n ∧
        m_keys m' !! n_kaddr n = m_keys m !! n_kaddr n) →
  table_at m' t arr chains.
Proof.
  intros Hat Ht Ha Hn.
  pose proof (at_chains _ _ _ _ Hat) as Hch. rewrite Forall_forall in Hch.
  split; try apply Hat.
  - rewrite Ht. apply Hat.
  - rewrite Ha. apply Hat.
  - apply Forall_forall. intros l Hl.
    eapply seg_ok_frame; [by apply Hch|].
    intros n Hin. apply Hn.
    apply list_elem_of_lookup in Hl as [i Hi]. by eapply elem_of_chain.
Qed.

Lemma relink_frame prev arr slots i target m :
  m_tables (relink prev arr slots i target m) = m_tables m ∧
  m_keys (relink prev arr slots i target m) = m_keys m ∧
  (∀ arr', arr' ≠ arr →
     m_arrays (relink prev arr slots i target m) !! arr' = m_arrays m !! arr') ∧
  (∀ a, (∀ pv, prev = Some pv → n_addr pv ≠ a) →
     m_props (relink prev arr slots i target m) !! a = m_props m !! a).
Proof.
  destruct prev as [pv|]; cbn [relink set_props set_arrays m_tables m_keys
    m_arrays m_props]; split_and!; try done.
  - intros a Ha. rewrite lookup_insert_ne; [done|]. by apply Ha.
  - intros arr' Hne. by rewrite lookup_insert_ne.
Qed.

Lemma last_elem_of (l : list node) pv : last l = Some pv → pv ∈ l.
Proof. intros [l' ->]%last_Some. apply elem_of_app. right. left. Qed.

Lemma put_frame policy m t arr chains t2 arr2 chains2 k v :
  allocs_succeed policy → table_at m t arr chains → chains ≠ [] →
  table_at m t2 arr2 chains2 → arr2 ≠ arr → separate chains chains2 →
  ∃ m', ch_put policy t k v m = Ok v m' ∧ table_at m' t2 arr2 chains2.
Proof.
  intros Hpol Hat Hne Hat2 Harr Hsep.
  destruct (table_find chains k) as [n|] eqn:Hfind.
  - apply table_find_elem in Hfind as [Hn <-].
    destruct (put_present policy m t arr chains n v Hat Hne Hn)
      as (l1 & l2 & Hl & Hput & _).
    cbn zeta in *. eexists. split; [exact Hput|].
    apply (table_at_frame m); try done.
    intros y Hy. split; [|done]. cbn [set_props m_props].
    apply lookup_alter_ne. by apply (Hsep n y).
  - eapply table_find_None in Hfind; [|done].
    destruct (put_absent_step policy Hpol m t arr chains k v Hat Hne Hfind)
      as (a & b & l & Hl & Ha & Hb & _ & Hput & _).
    eexists. split; [exact Hput|].
    destruct (relink_frame (last l) arr (head_addr <$> chains)
                (slot_of chains k) a (alloc_entry a b k v m))
      as (Ht & Hk & Hothers & Hp).
    apply is_free_spec in Ha as (_ & _ & _ & Hpa & _).
    apply is_free_spec in Hb as (_ & _ & _ & _ & Hkb).
    apply (table_at_frame m); try done.
    + by rewrite Ht.
    + by rewrite Hothers.
    + intros y Hy.
      destruct (node_live _ _ _ _ _ Hat2 Hy) as (_ & _ & [ny Hyp] & Hyk).
      rewrite Hk, Hp.
      * cbn [alloc_entry m_props m_keys].
        rewrite !lookup_insert_ne; [done| |]; intros ?; congruence.
      * intros pv Hpv%last_elem_of.
        apply (Hsep pv y); [|done]. by eapply elem_of_chain.
Qed.

Lemma delete_frame m t arr chains t2 arr2 chains2 k :
  table_at m t arr chains → chains ≠ [] →
  table_at m t2 arr2 chains2 → arr2 ≠ arr → separate chains chains2 →
  ∃ r m', ch_delete t k m = Ok r m' ∧ table_at m' t2 arr2 chains2.
Proof.
  intros Hat Hne Hat2 Harr Hsep.
  destruct (table_find chains k) as [n|] eqn:Hfind.
  - apply table_find_elem in Hfind as [Hn <-].
    destruct (delete_present m t arr chains n Hat Hne Hn)
      as (l1 & l2 & Hl & Hdel & _).
    cbn zeta in *. eexists _, _. split; [exact Hdel|].
    destruct (relink_frame (last l1) arr (head_addr <$> chains)
                (slot_of chains (n_key n)) (head_addr l2) m)
      as (Ht & Hk & Hothers & Hp).
    apply (table_at_frame m); try done.
    + cbn [free_entry m_tables]. by rewrite Ht.
    + cbn [free_entry m_arrays]. by rewrite Hothers.
    + intros y Hy. destruct (Hsep n y Hn Hy) as [Hna Hnk].
      cbn [free_entry m_props m_keys].
      rewrite !lookup_delete_ne by done. rewrite Hk, Hp; [done|].
      intros pv Hpv%last_elem_of.
      apply (Hsep pv y); [|done].
      eapply elem_of_chain; [exact Hl|]. apply elem_of_app. by left.
  - exists NULL, m. split; [|done].
    apply (ch_delete_absent m t arr chains k Hat Hne).
    by apply table_find_absent, (table_find_None m t arr).
Qed.

(** X22. Two well-formed tables in one heap that share no block: [ch_put]
    and [ch_delete] on the first leave the second as it is, well formed with
    the same chains at the same addresses. *)
Theorem other_table_untouched policy m t arr chains t2 arr2 chains2 k v :
  allocs_succeed policy → table_at m t arr chains → chains ≠ [] →
  table_at m t2 arr2 chains2 → arr2 ≠ arr → separate chains chains2 →
  (∃ m', ch_put policy t k v m = Ok v m' ∧ table_at m' t2 arr2 chains2) ∧
  (∃ r m', ch_delete t k m = Ok r m' ∧ table_at m' t2 arr2 chains2).
Proof.
  intros Hpol Hat Hne Hat2 Harr Hsep. split.
  - by eapply put_frame.
  - by eapply delete_frame.
Qed.

Lemma two_tables_first : table_at two_tables 1 2 chains_ab.
Proof. solve_table_at. Qed.

Lemma two_tables_second : table_at two_tables 7 8 chains_second.
Proof. solve_table_at. Qed.

Lemma two_tables_separate : separate chains_ab chains_second.
Proof.
  intros x y Hx Hy. simpl in Hx, Hy.
  repeat (apply elem_of_cons in Hx as [->|Hx]); try (by apply elem_of_nil in Hx);
    repeat (apply elem_of_cons in Hy as [->|Hy]); try (by apply elem_of_nil in Hy);
    split; discriminate.
Qed.

Lemma other_table_untouched_witness :
  (∃ m', ch_put fresh_policy 1 "b" 11 two_tables = Ok 11 m' ∧
         table_at m' 7 8 chains_second) ∧
  (∃ r m', ch_delete 1 "b" two_tables = Ok r m' ∧ table_at m' 7 8 chains_second).
Proof.
  apply (other_table_untouched fresh_policy two_tables 1 2 chains_ab 7 8
           chains_second "b" 11 fresh_policy_succeeds two_tables_first
           ltac:(discriminate) two_tables_second ltac:(discriminate)
           two_tables_separate).
Defined.

(** ** No block is lost *)

Section Owned.
Context {B : Type} `{Countable B} (f : node → B).

Lemma owned_with (c1 : list (list node)) l1 y l2 c2 :
  list_to_set (C := gset B) (f <$> concat (c1 ++ (l1 ++ y :: l2) :: c2)) =
  {[f y]} ∪ list_to_set (f <$> concat (c1 ++ (l1 ++ l2) :: c2)).
Proof.
  apply set_eq. intros b.
  rewrite elem_of_union, elem_of_singleton, !elem_of_list_to_set,
    !list_elem_of_fmap.
  split.
  - intros (x & -> & [->|Hx]%elem_of_chain_with); [by left|]. right. eauto.
  - intros [->|(x & -> & Hx)]; eexists; (split; [done|]);
      apply elem_of_chain_with; eauto.
Qed.

End Owned.

Lemma relink_dom prev arr slots i target m :
  (∀ pv, prev = Some pv → is_Some (m_props m !! n_addr pv)) →
  dom (m_props (relink prev arr slots i target m)) = dom (m_props m).
Proof.
  destruct prev as [pv|]; cbn [relink set_props set_arrays m_props]; [|done].
  intros Hpv. rewrite dom_insert_L.
  assert (n_addr pv ∈ dom (m_props m)) by (apply elem_of_dom; eauto).
  set_solver.
Qed.

Lemma prev_live m t arr chains i l pv :
  table_at m t arr chains → chains !! i = Some l → pv ∈ l →
  is_Some (m_props m !! n_addr pv).
Proof.
  intros Hat Hl Hpv.
  destruct (node_live _ _ _ _ _ Hat (elem_of_chain _ _ _ _ Hl Hpv))
    as (_ & _ & [nx Hp] & _).
  eauto.
Qed.

Lemma put_owns policy m t arr chains k v :
  allocs_succeed policy → table_at m t arr chains → chains ≠ [] →
  owns m chains →
  ∃ m' chains', ch_put policy t k v m = Ok v m' ∧
                table_at m' t arr chains' ∧ owns m' chains'.
Proof.
  intros Hpol Hat Hne [Hp Hk].
  destruct (table_find chains k) as [n|] eqn:Hfind.
  - apply table_find_elem in Hfind as [Hn <-].
    destruct (put_present policy m t arr chains n v Hat Hne Hn)
      as (l1 & l2 & Hl & Hput & Hat').
    cbn zeta in *. eexists _, _. split; [exact Hput|]. split; [exact Hat'|].
    destruct (chains_split _ _ _ Hl) as (c1 & c2 & -> & _ & ->).
    split; cbn [set_props m_props m_keys].
    + rewrite dom_alter_L, Hp.
      by rewrite (node_replaced n_addr c1 l1 n (with_value n v)).
    + rewrite Hk. by rewrite (node_replaced n_kaddr c1 l1 n (with_value n v)).
  - eapply table_find_None in Hfind; [|done].
    destruct (put_absent_step policy Hpol m t arr chains k v Hat Hne Hfind)
      as (a & b & l & Hl & _ & _ & _ & Hput & Hat').
    eexists _, _. split; [exact Hput|]. split; [exact Hat'|].
    destruct (relink_frame (last l) arr (head_addr <$> chains)
                (slot_of chains k) a (alloc_entry a b k v m))
      as (_ & Hkeys & _ & _).
    destruct (chains_split _ _ _ Hl) as (c1 & c2 & Heq & _ & Hins).
    rewrite Hins. unfold owns.
    rewrite (owned_with n_addr c1 l (Node a b k v) [] c2).
    rewrite (owned_with n_kaddr c1 l (Node a b k v) [] c2).
    rewrite app_nil_r, <- Heq, <- Hp, <- Hk.
    split.
    + rewrite relink_dom.
      * cbn [alloc_entry m_props n_addr]. by rewrite dom_insert_L.
      * intros pv Hpv%last_elem_of. cbn [alloc_entry m_props].
        destruct (prev_live _ _ _ _ _ _ _ Hat Hl Hpv) as [e He].
        destruct (decide (n_addr pv = a)) as [->|Hne'].
        -- rewrite lookup_insert_eq. eauto.
        -- rewrite lookup_insert_ne by done. eauto.
    + rewrite Hkeys. cbn [alloc_entry m_keys n_kaddr]. by rewrite dom_insert_L.
Qed.

Lemma delete_owns m t arr chains k :
  table_at m t arr chains → chains ≠ [] → owns m chains →
  ∃ r m' chains', ch_delete t k m = Ok r m' ∧
                  table_at m' t arr chains' ∧ owns m' chains'.
Proof.
  intros Hat Hne [Hp Hk].
  destruct (table_find chains k) as [n|] eqn:Hfind.
  - apply table_find_elem in Hfind as [Hn <-].
    destruct (delete_present m t arr chains n Hat Hne Hn)
      as (l1 & l2 & Hl & Hdel & Hat' & _).
    cbn zeta in *. eexists _, _, _. split; [exact Hdel|]. split; [exact Hat'|].
    destruct (relink_frame (last l1) arr (head_addr <$> chains)
                (slot_of chains (n_key n)) (head_addr l2) m)
      as (_ & Hkeys & _ & _).
    assert (dom (m_props (relink (last l1) arr (head_addr <$> chains)
                            (slot_of chains (n_key n)) (head_addr l2) m))
            = dom (m_props m)) as Hdom.
    { apply relink_dom. intros pv Hpv%last_elem_of.
      eapply prev_live; [done|exact Hl|]. apply elem_of_app. by left. }
    destruct (chains_split _ _ _ Hl) as (c1 & c2 & Heq & _ & Hins).
    rewrite Hins. rewrite Heq in Hp, Hk, Hat.
    rewrite (owned_with n_addr) in Hp. rewrite (owned_with n_kaddr) in Hk.
    destruct (node_isolated n_addr _ _ _ _ _ (at_addrs _ _ _ _ Hat)) as [_ Ha].
    destruct (node_isolated n_kaddr _ _ _ _ _ (at_kaddrs _ _ _ _ Hat)) as [_ Hka].
    split; cbn [free_entry m_props m_keys]; rewrite dom_delete_L.
    + rewrite Hdom, Hp.
      assert (n_addr n ∉ list_to_set (C := gset Z)
                (n_addr <$> concat (c1 ++ (l1 ++ l2) :: c2))) as Hnot.
      { rewrite elem_of_list_to_set. intros (x & Hx & Hin)%list_elem_of_fmap.
        by apply (Ha x Hin). }
      set_solver.
    + rewrite Hkeys, Hk.
      assert (n_kaddr n ∉ list_to_set (C := gset Z)
                (n_kaddr <$> concat (c1 ++ (l1 ++ l2) :: c2))) as Hnot.
      { rewrite elem_of_list_to_set. intros (x & Hx & Hin)%list_elem_of_fmap.
        by apply (Hka x Hin). }
      set_solver.
  - exists NULL, m, chains. split_and!; try done.
    apply (ch_delete_absent m t arr chains k Hat Hne).
    by apply table_find_absent, (table_find_None m t arr).
Qed.

(** X23. In a heap whose entries and key buffers are exactly those of a
    well-formed table, they still are after [ch_put] and after [ch_delete]:
    an insertion allocates nothing but the entry it links and its key
    buffer, an update allocates nothing, and a removal releases the entry it
    unlinks and its key buffer. *)
Theorem put_delete_lose_no_block policy m t arr chains k v :
  allocs_succeed policy → table_at m t arr chains → chains ≠ [] →
  owns m chains →
  (∃ m' chains', ch_put policy t k v m = Ok v m' ∧
                 table_at m' t arr chains' ∧ owns m' chains') ∧
  (∃ r m' chains', ch_delete t k m = Ok r m' ∧
                   table_at m' t arr chains' ∧ owns m' chains').
Proof.
  intros Hpol Hat Hne Hown. split.
  - by apply (put_owns policy m t arr chains k v).
  - by apply (delete_owns m t arr chains k).
Qed.

Lemma chain_ab_owned : owns chain_ab chains_ab.
Proof. split; apply set_eq; intros a; vm_compute; set_solver. Qed.

Lemma put_delete_lose_no_block_witness :
  (∃ m' chains', ch_put fresh_policy 1 "c" 11 chain_ab = Ok 11 m' ∧
                 table_at m' 1 2 chains' ∧ owns m' chains') ∧
  (∃ r m' chains', ch_delete 1 "c" chain_ab = Ok r m' ∧
                   table_at m' 1 2 chains' ∧ owns m' chains').
Proof.
  exact (put_delete_lose_no_block fresh_policy chain_ab 1 2 chains_ab "c" 11
           fresh_policy_succeeds chain_ab_table ltac:(discriminate)
           chain_ab_owned).
Defined.

(** ** A sequence of insertions *)

Lemma put_all_map policy kvs : ∀ m t arr chains,
  allocs_succeed policy → table_at m t arr chains → chains ≠ [] →
  ∃ m' chains',
    put_all policy t kvs m = Ok tt m' ∧
    table_at m' t arr chains' ∧ length chains' = length chains ∧
    as_map chains' = foldl (λ M kv, <[kv.1 := kv.2]> M) (as_map chains) kvs.
Proof.
  induction kvs as [|[k v] kvs IH]; intros m t arr chains Hpol Hat Hne.
  - exists m, chains. by split_and!.
  - destruct (ch_put_map policy m t arr chains k v Hpol Hat Hne)
      as (m1 & chains1 & Hput & Hat1 & Hlen1 & Hmap1).
    assert (chains1 ≠ []) as Hne1 by (intros ->; by destruct chains).
    destruct (IH m1 t arr chains1 Hpol Hat1 Hne1)
      as (m' & chains' & Hrun & Hat' & Hlen' & Hmap').
    exists m', chains'. split_and!; try done.
    + cbn [put_all]. unfold bind. by rewrite Hput.
    + congruence.
    + rewrite Hmap', Hmap1. done.
Qed.

(** X24. A sequence of [ch_put] on a well-formed table, with allocations
    that succeed, leaves a well-formed table whose map is the old one with
    the pairs inserted in order, a later pair overriding an earlier one with
    the same key; [ch_get] then answers by that map. *)
Theorem put_all_refines policy kvs m t arr chains :
  allocs_succeed policy → table_at m t arr chains → chains ≠ [] →
  ∃ m' chains',
    put_all policy t kvs m = Ok tt m' ∧
    table_at m' t arr chains' ∧ length chains' = length chains ∧
    as_map chains' = foldl (λ M kv, <[kv.1 := kv.2]> M) (as_map chains) kvs ∧
    ∀ k, ch_get t k m' =
         Ok (default NULL
               (foldl (λ M kv, <[kv.1 := kv.2]> M) (as_map chains) kvs !! k)) m'.
Proof.
  intros Hpol Hat Hne.
  destruct (put_all_map policy kvs m t arr chains Hpol Hat Hne)
    as (m' & chains' & Hrun & Hat' & Hlen & Hmap).
  exists m', chains'. split_and!; try done.
  intros k. rewrite <- Hmap. apply (ch_get_map m' t arr chains' k Hat').
  intros ->. by destruct chains.
Qed.

Lemma put_all_refines_witness :
  ∃ m' chains',
    put_all fresh_policy 1 [("c", 11); ("a", 12); ("c", 13)] chain_ab = Ok tt m' ∧
    table_at m' 1 2 chains' ∧ length chains' = length chains_ab ∧
    as_map chains' =
      foldl (λ M kv, <[kv.1 := kv.2]> M) (as_map chains_ab)
        [("c", 11); ("a", 12); ("c", 13)] ∧
    ∀ k, ch_get 1 k m' =
         Ok (default NULL
               (foldl (λ M kv, <[kv.1 := kv.2]> M) (as_map chains_ab)
                  [("c", 11); ("a", 12); ("c", 13)] !! k)) m'.
Proof.
  exact (put_all_refines fresh_policy [("c", 11); ("a", 12); ("c", 13)]
           chain_ab 1 2 chains_ab fresh_policy_succeeds chain_ab_table
           ltac:(discriminate)).
Defined.

(** ** [ch_create], then [ch_destroy] *)

(** X25. With allocations that succeed and a capacity from 0 to [INT_MAX],
    [ch_create] followed by [ch_destroy] gives back the heap of before, two
    calls of [malloc] later. *)
Theorem create_destroy_roundtrip policy C m :
  allocs_succeed policy → 0 <= C <= INT_MAX →
  ∃ t m0, ch_create policy C m = Ok t m0 ∧ t ≠ NULL ∧
          ch_destroy t m0 = Ok tt (count_alloc (count_alloc m)).
Proof.
  intros Hpol HC.
  destruct (ch_create_memory policy C m Hpol HC)
    as (t & arr & Ht & Harr & Hne & Hrun).
  exists t, (created_at t arr C m). split; [exact Hrun|].
  apply is_free_spec in Ht as (Htn & Htt & _).
  apply is_free_spec in Harr as (Han & _ & Haa & _).
  split; [done|].
  rewrite (ch_destroy_spec _ t arr C (replicate (Z.to_nat C) NULL)); try done.
  - unfold destroyed_at, created_at, count_alloc.
    cbn [m_tables m_arrays m_props m_keys m_nalloc].
    by rewrite !delete_insert_id by done.
  - cbn [created_at m_tables]. apply lookup_insert_eq.
  - cbn [created_at m_arrays]. apply lookup_insert_eq.
Qed.

Lemma create_destroy_roundtrip_witness :
  allocs_succeed fresh_policy ∧ 0 <= 4 <= INT_MAX ∧
  ∃ t m0, ch_create fresh_policy 4 chain_ab = Ok t m0 ∧ t ≠ NULL ∧
          ch_destroy t m0 = Ok tt (count_alloc (count_alloc chain_ab)).
Proof.
  assert (0 <= 4 <= INT_MAX) as HC by (unfold INT_MAX; lia).
  split; [exact fresh_policy_succeeds|]. split; [exact HC|].
  exact (create_destroy_roundtrip fresh_policy 4 chain_ab fresh_policy_succeeds HC).
Defined.

(** ** What [ch_put] can return *)

Section Returns.
Context {A : Type} (v : A).

Lemma returns_ret : returns_only v (ret v).
Proof. by intros m r m' [= <- _]. Qed.

Lemma returns_fault : returns_only v fault.
Proof. by intros m r m'. Qed.

Lemma returns_diverge : returns_only v diverge.
Proof. by intros m r m'. Qed.

Lemma returns_bind {B} (c : M B) (k : B → M A) :
  (∀ b, returns_only v (k b)) → returns_only v (bind c k).
Proof.
  intros Hk m r m'. unfold bind. destruct (c m) as [b m1| |]; try done.
  apply Hk.
Qed.

End Returns.

Ltac returns_step :=
  first
    [ apply returns_ret | apply returns_fault | apply returns_diverge
    | apply returns_bind; intros ?
    | match goal with
      | |- returns_only _ (if ?b then _ else _) => destruct b
      end ].

Lemma put_loop_returns policy k v fuel : ∀ p pv,
  returns_only v (put_loop policy fuel p pv k v).
Proof.
  induction fuel as [|fuel IH]; intros p pv; cbn [put_loop];
    repeat returns_step; apply IH.
Qed.

(** X26. Whatever the heap and whatever the allocator, when [ch_put]
    returns it returns the value reference it was given: a null result
    never signals a failure. *)
Theorem put_returns_its_argument policy t k v m r m' :
  ch_put policy t k v m = Ok r m' → r = v.
Proof.
  revert m r m'. change (returns_only v (ch_put policy t k v)).
  unfold ch_put. repeat returns_step. apply put_loop_returns.
Qed.

Lemma put_returns_its_argument_witness :
  ch_put (scripted [None; None; Some 3; None]) 1 "a" 7 empty_one
    = Ok 7 (count_alloc (count_alloc empty_one)) ∧ 7 = 7.
Proof.
  assert (ch_put (scripted [None; None; Some 3; None]) 1 "a" 7 empty_one
          = Ok 7 (count_alloc (count_alloc empty_one))) as Hrun
    by (vm_compute; reflexivity).
  split; [exact Hrun|].
  exact (put_returns_its_argument _ _ _ _ _ _ _ Hrun).
Defined.

(** ** The header of a table *)

Lemma keeps_ret {A} (a : A) : keeps_headers (ret a).
Proof. by intros m r m' [= _ <-]. Qed.

Lemma keeps_fault {A} : keeps_headers (@fault A).
Proof. by intros m r m'. Qed.

Lemma keeps_diverge {A} : keeps_headers (@diverge A).
Proof. by intros m r m'. Qed.

Lemma keeps_bind {A B} (c : M B) (k : B → M A) :
  keeps_headers c → (∀ b, keeps_headers (k b)) → keeps_headers (bind c k).
Proof.
  intros Hc Hk m r m'. unfold bind. destruct (c m) as [b m1| |] eqn:Hcm; try done.
  intros Hrun. rewrite (Hk b _ _ _ Hrun). by eapply Hc.
Qed.

Lemma keeps_load_table {B} (f : t_table → B) p : keeps_headers (load_table f p).
Proof. intros m r m'. unfold load_table. by case_match; intros [= _ <-]. Qed.

Lemma keeps_load_prop {B} (f : t_property → B) p : keeps_headers (load_prop f p).
Proof. intros m r m'. unfold load_prop. by case_match; intros [= _ <-]. Qed.

Lemma keeps_store_prop f p : keeps_headers (store_prop f p).
Proof. intros m r m'. unfold store_prop. by case_match; intros [= _ <-]. Qed.

Lemma keeps_load_slot arr i : keeps_headers (load_slot arr i).
Proof.
  intros m r m'. unfold load_slot. by repeat case_match; intros [= _ <-].
Qed.

Lemma keeps_store_slot arr i x : keeps_headers (store_slot arr i x).
Proof.
  intros m r m'. unfold store_slot. by repeat case_match; intros [= _ <-].
Qed.

Lemma keeps_load_key p : keeps_headers (load_key p).
Proof. intros m r m'. unfold load_key. by case_match; intros [= _ <-]. Qed.

Lemma keeps_strcpy p s : keeps_headers (strcpy p s).
Proof. intros m r m'. unfold strcpy. by case_match; intros [= _ <-]. Qed.

Lemma keeps_free_prop p : keeps_headers (free_prop p).
Proof.
  intros m r m'. unfold free_prop. by repeat case_match; intros [= _ <-].
Qed.

Lemma keeps_free_key p : keeps_headers (free_key p).
Proof.
  intros m r m'. unfold free_key. by repeat case_match; intros [= _ <-].
Qed.

Lemma keeps_chain_fuel : keeps_headers chain_fuel.
Proof. by intros m r m' [= _ <-]. Qed.

Lemma keeps_malloc policy init :
  (∀ a m, m_tables (init a m) = m_tables m) → keeps_headers (malloc policy init).
Proof.
  intros Hinit m r m'. unfold malloc.
  repeat case_match; intros [= _ <-]; by rewrite ?Hinit.
Qed.

Ltac keeps_step :=
  first
    [ apply keeps_ret | apply keeps_fault | apply keeps_diverge
    | apply keeps_load_table | apply keeps_load_prop | apply keeps_store_prop
    | apply keeps_load_slot | apply keeps_store_slot | apply keeps_load_key
    | apply keeps_strcpy | apply keeps_free_prop | apply keeps_free_key
    | apply keeps_chain_fuel
    | apply keeps_malloc; by intros ??
    | apply keeps_bind; [|intros ?]
    | match goal with
      | |- keeps_headers (if ?b then _ else _) => destruct b
      end ].

Ltac keeps_unfold :=
  unfold load_size, load_p_entries, load_p_key, load_p_value, load_p_next,
    store_p_key, store_p_value, store_p_next, malloc_prop, malloc_key.

Lemma keeps_clear p : keeps_headers (_clear p).
Proof. unfold _clear. keeps_unfold. repeat keeps_step. Qed.

Lemma keeps_construct policy k v : keeps_headers (_construct policy k v).
Proof.
  unfold _construct. keeps_unfold. repeat keeps_step; apply keeps_clear.
Qed.

Lemma keeps_put_loop policy k v fuel : ∀ p pv,
  keeps_headers (put_loop policy fuel p pv k v).
Proof.
  induction fuel as [|fuel IH]; intros p pv; cbn [put_loop]; keeps_unfold;
    repeat keeps_step; first [apply keeps_construct | apply IH].
Qed.

Lemma keeps_get_loop k fuel : ∀ p, keeps_headers (get_loop fuel p k).
Proof.
  induction fuel as [|fuel IH]; intros p; cbn [get_loop]; keeps_unfold;
    repeat keeps_step; apply IH.
Qed.

Lemma keeps_delete_loop k fuel : ∀ p pv, keeps_headers (delete_loop fuel p pv k).
Proof.
  induction fuel as [|fuel IH]; intros p pv; cbn [delete_loop]; keeps_unfold;
    repeat keeps_step; apply IH.
Qed.

Lemma keeps_clear_loop t fuel : ∀ c, keeps_headers (clear_loop fuel c t).
Proof.
  induction fuel as [|fuel IH]; intros c; cbn [clear_loop]; keeps_unfold;
    repeat keeps_step; first [apply keeps_clear | apply IH].
Qed.

(** X27. Whatever the heap and whatever the allocator, [ch_put], [ch_get],
    [ch_delete] and [ch_clear] leave every table header as it is when they
    return: the capacity and the slot array of a table never change after
    [ch_create]. *)
Theorem headers_never_change policy t k v :
  keeps_headers (ch_put policy t k v) ∧ keeps_headers (ch_get t k) ∧
  keeps_headers (ch_delete t k) ∧ keeps_headers (ch_clear t).
Proof.
  split_and!.
  - unfold ch_put. keeps_unfold.
    repeat keeps_step; first [apply keeps_construct | apply keeps_put_loop].
  - unfold ch_get. keeps_unfold. repeat keeps_step; apply keeps_get_loop.
  - unfold ch_delete. keeps_unfold.
    repeat keeps_step;
      first [apply keeps_delete_loop | apply keeps_clear].
  - unfold ch_clear. keeps_unfold. repeat keeps_step. apply keeps_clear_loop.
Qed.
